(** * license-bill-of-materials: the license attribution engine

    A shallow embedding of [license-bill-of-materials.go] and the properties
    its specification states about it.

    Conventions of the embedding.
    - A Go [string] and a Go [[]byte] are both byte sequences: [string].
    - A Go [map[string]T] is a [gmap string T].  Go leaves the iteration
      order of [range] over a map unspecified; where a loop ranges over a map
      the model iterates over [map_to_list] and the order-independence of the
      result is proved where a property needs it.
    - A Go [float64] is [float64] below: the exact rational value of the
      number, or one of the IEEE 754 special values.  The only float
      operations of the program are the conversion of an [int], [2 * x],
      [x + y], [x / y] and [x > y]; a division [0 / 0] gives [NaN] and every
      comparison with [NaN] is false.
    - A nil pointer is [None]; dereferencing it panics.  A function that
      can return an error or panic has an [outcome] as its result.
    - The text alphabet is ASCII: [bytes.ToLower] and the case folding of
      [(?i)] are modelled on the ASCII letters and leave the other bytes as
      they are (Go also lower-cases the letters outside of ASCII, and lets
      [s] match U+017F). *)

From Stdlib Require Import Ascii String QArith Qround Lqa.
From stdpp Require Import gmap strings list sorting.

Local Open Scope string_scope.
Local Open Scope list_scope.

(** ** float64 *)

Inductive float64 : Type :=
| NaN : float64
| Inf (negative : bool) : float64
| Fin (q : Q) : float64.

(** [float64(n)] for an [int]. *)
Definition float64_of_int (n : Z) : float64 := Fin (Qred (inject_Z n)).

Definition Qsign_neg (q : Q) : bool := (Qnum q <? 0)%Z.

Definition fmul (x y : float64) : float64 :=
  match x, y with
  | NaN, _ | _, NaN => NaN
  | Fin a, Fin b => Fin (Qred (a * b))
  | Inf s, Inf s' => Inf (xorb s s')
  | Inf s, Fin b | Fin b, Inf s =>
      if Qeq_bool b 0 then NaN else Inf (xorb s (Qsign_neg b))
  end.

Definition fadd (x y : float64) : float64 :=
  match x, y with
  | NaN, _ | _, NaN => NaN
  | Fin a, Fin b => Fin (Qred (a + b))
  | Inf s, Inf s' => if Bool.eqb s s' then Inf s else NaN
  | Inf s, Fin _ | Fin _, Inf s => Inf s
  end.

Definition fdiv (x y : float64) : float64 :=
  match x, y with
  | NaN, _ | _, NaN => NaN
  | Fin a, Fin b =>
      if Qeq_bool b 0
      then (if Qeq_bool a 0 then NaN else Inf (Qsign_neg a))
      else Fin (Qred (a / b))
  | Inf _, Inf _ => NaN
  | Inf s, Fin b => Inf (xorb s (Qsign_neg b))
  | Fin _, Inf _ => Fin 0
  end.

(** [x > y]. *)
Definition fgt (x y : float64) : bool :=
  match x, y with
  | NaN, _ | _, NaN => false
  | Fin a, Fin b => negb (Qle_bool a b)
  | Inf s, Inf s' => negb s && s'
  | Inf s, Fin _ => negb s
  | Fin _, Inf s => s
  end.

(** ** Data model *)

Record Template : Type := mkTemplate {
  Title : string;
  Nickname : string;
  Words : gmap string nat
}.

Record Word : Type := mkWord { Text : string; Pos : nat }.

Record MatchResult : Type := mkMatchResult {
  mr_Template : option Template;
  mr_Score : float64;
  mr_ExtraWords : list string;
  mr_MissingWords : list string
}.

Record LicenseInfo : Type := mkLicenseInfo {
  Path : string;
  Score : float64;
  li_Template : option Template;
  ExtraWords : list string;
  MissingWords : list string
}.

Record License : Type := mkLicense {
  Package : string;
  LicenseInfos : list LicenseInfo;
  Err : string
}.

Record truncLicense : Type := mkTruncLicense {
  Name : string;
  Confidence : float64
}.

Record projectAndLicenses : Type := mkProjectAndLicenses {
  Project : string;
  Licenses : list truncLicense;
  Error : string
}.

(** ** Bytes and character classes

    The regular expressions of the program are applied to byte sequences.
    The classes they use are the ASCII ones of Go's [regexp] syntax:
    [\s] is [[\t\n\f\r ]], [\d] is [[0-9]], [\w] is [[0-9A-Za-z_]] and [.]
    is any character but the line feed. *)

Definition byte_in (lo hi : nat) (c : ascii) : bool :=
  (lo <=? nat_of_ascii c)%nat && (nat_of_ascii c <=? hi)%nat.

Definition is_upper (c : ascii) : bool := byte_in 65 90 c.
Definition is_lower (c : ascii) : bool := byte_in 97 122 c.
Definition is_digit (c : ascii) : bool := byte_in 48 57 c.

Definition is_space (c : ascii) : bool :=
  match nat_of_ascii c with
  | 9 | 10 | 12 | 13 | 32 => true
  | _ => false
  end.

Definition is_newline (c : ascii) : bool := Ascii.eqb c "010".

Definition not_newline (c : ascii) : bool := negb (is_newline c).

Definition is_word (c : ascii) : bool :=
  is_digit c || is_upper c || is_lower c || Ascii.eqb c "_".

(** The class [[\w']] of [reWords]. *)
Definition is_word_or_quote (c : ascii) : bool :=
  is_word c || Ascii.eqb c "'".

Definition lower_byte (c : ascii) : ascii :=
  if is_upper c then ascii_of_nat (nat_of_ascii c + 32) else c.

(** [bytes.ToLower], on the ASCII letters; the other bytes are kept. *)
Fixpoint ToLower (s : string) : string :=
  match s with
  | "" => ""
  | String c s' => String (lower_byte c) (ToLower s')
  end.

Fixpoint drop_while (p : ascii -> bool) (s : string) : string :=
  match s with
  | "" => ""
  | String c s' => if p c then drop_while p s' else s
  end.

(** [strip_prefix p s] is the rest of [s] after its prefix [p], if [s]
    starts with [p]. *)
Fixpoint strip_prefix (p s : string) : option string :=
  match p, s with
  | "", _ => Some s
  | String a p', String b s' =>
      if Ascii.eqb a b then strip_prefix p' s' else None
  | String _ _, "" => None
  end.

(** ** Text normalisation: [reCopyright], [cleanLicenseData]

    [reCopyright] is
    [(?i)\s*Copyright (?:©|\(c\)|\xC2\xA9)?\s*(?:\d{4}|\[year\]).*]
    and is applied to lower-cased data, so its letters are matched in lower
    case.  In the pattern [©] is the code point U+00A9 (bytes C2 A9) and
    [\xC2\xA9] are the code points U+00C2 U+00A9; under [(?i)] U+00C2 also
    matches its lower case U+00E2. *)

Definition copyright_sign : string := String "194" (String "169" "").
Definition a_circumflex_upper : string := String "195" (String "130" "").
Definition a_circumflex_lower : string := String "195" (String "162" "").

(** [(?:©|\(c\)|\xC2\xA9)]: the alternatives in the order of the pattern. *)
Definition match_marker (s : string) : option string :=
  match strip_prefix copyright_sign s with
  | Some r => Some r
  | None =>
      match strip_prefix "(c)" s with
      | Some r => Some r
      | None =>
          match strip_prefix (a_circumflex_upper +:+ copyright_sign) s with
          | Some r => Some r
          | None => strip_prefix (a_circumflex_lower +:+ copyright_sign) s
          end
      end
  end.

(** [(?:\d{4}|\[year\])] *)
Definition match_year (s : string) : option string :=
  match s with
  | String a (String b (String c (String d r))) =>
      if is_digit a && is_digit b && is_digit c && is_digit d
      then Some r else strip_prefix "[year]" s
  | _ => strip_prefix "[year]" s
  end.

(** [\s*(?:\d{4}|\[year\]).*]: the rest after the match. *)
Definition match_year_and_line (s : string) : option string :=
  match match_year (drop_while is_space s) with
  | Some r => Some (drop_while not_newline r)
  | None => None
  end.

(** A match of [reCopyright] that starts at the first byte of [s]: the
    rest of [s] after the match.  The leading [\s*] is greedy and the
    literal that follows starts with a letter, so giving white space back
    never helps; the optional marker is tried first and given up when what
    follows it does not match. *)
Definition reCopyright_match (s : string) : option string :=
  match strip_prefix "copyright " (drop_while is_space s) with
  | None => None
  | Some r =>
      match match_marker r with
      | Some r' =>
          match match_year_and_line r' with
          | Some rest => Some rest
          | None => match_year_and_line r
          end
      | None => match_year_and_line r
      end
  end.

(** [reCopyright.ReplaceAll(data, nil)]: the leftmost match is removed and
    the search resumes after it.  [skip] counts the bytes of the current
    match that are still to be removed. *)
Fixpoint reCopyright_ReplaceAll_from (skip : nat) (s : string) : string :=
  match s with
  | "" => ""
  | String c s' =>
      match skip with
      | S k => reCopyright_ReplaceAll_from k s'
      | O =>
          match reCopyright_match s with
          | Some rest =>
              reCopyright_ReplaceAll_from
                (String.length s - String.length rest - 1) s'
          | None => String c (reCopyright_ReplaceAll_from 0 s')
          end
      end
  end.

Definition reCopyright_ReplaceAll (s : string) : string :=
  reCopyright_ReplaceAll_from 0 s.

Definition cleanLicenseData (data : string) : string :=
  reCopyright_ReplaceAll (ToLower data).

(** ** Tokens and word sets: [reWords], [makeWordSet] *)

Definition flush (cur : string) : list string :=
  match cur with "" => [] | _ => [cur] end.

(** [reWords.FindAll(data, -1)] for [reWords = [\w']+]: the maximal runs
    of bytes of the class, from left to right.  [cur] is the run being
    read. *)
Fixpoint reWords_FindAll_from (cur : string) (s : string) : list string :=
  match s with
  | "" => flush cur
  | String c s' =>
      if is_word_or_quote c
      then reWords_FindAll_from (cur +:+ String c "") s'
      else flush cur ++ reWords_FindAll_from "" s'
  end.

Definition reWords_FindAll (s : string) : list string :=
  reWords_FindAll_from "" s.

(** The loop of [makeWordSet]: [i] is the index of the head of [matches]. *)
Fixpoint addWords (i : nat) (matches : list string) (words : gmap string nat)
  : gmap string nat :=
  match matches with
  | [] => words
  | s :: ms =>
      addWords (S i) ms
        (match words !! s with
         | Some _ => words
         | None => <[s := i]> words
         end)
  end.

Definition makeWordSet (data : string) : gmap string nat :=
  addWords 0 (reWords_FindAll (cleanLicenseData data)) ∅.

Definition LF : string := String "010" "".
Definition TAB : string := String "009" "".


(** [w] occurs in [tokens] and [p] is the index of its first
    occurrence. *)
Definition firstAt (tokens : list string) (w : string) (p : nat) : Prop :=
  tokens !! p = Some w /\ forall j, (j < p)%nat -> tokens !! j <> Some w.

(** [out] lists exactly the words of the word set [a] that the word set [b]
    lacks, by strictly increasing position in [a]. *)
Definition orderedDifference (a b : gmap string nat) (out : list string)
  : Prop :=
  (forall w, w ∈ out <-> is_Some (a !! w) /\ b !! w = None)
  /\ exists ps, Forall2 (fun w p => a !! w = Some p) out ps
                /\ StronglySorted lt ps.

(** ** The template matcher: [sortAndReturnWords], [matchTemplates] *)

(** [sortedWords.Less], as the order [sort.Sort] sorts by. *)
Definition word_le (a b : Word) : Prop := (Pos a <= Pos b)%nat.

#[global] Instance word_le_dec : RelDecision word_le.
Proof. intros a b. unfold word_le. apply _. Defined.

(** [sort.Sort] is not stable; it is modelled by a merge sort.  Any sort
    gives the same list when the positions are pairwise distinct, which is
    proved below for the positions of a word set. *)
Definition sortAndReturnWords (words : list Word) : list string :=
  Text <$> merge_sort word_le words.

(** [Word{Text: w, Pos: pos}] for an entry [(w, pos)] of a word set. *)
Definition wordOf (kv : string * nat) : Word := mkWord kv.1 kv.2.

(** The first inner loop of [matchTemplates]: the words of the sample that
    are missing from the template, and the number of those it has. *)
Definition sampleLoop (words : gmap string nat) (t : Template)
  : list Word * nat :=
  foldl (fun '(extra, common) '(w, pos) =>
           match Words t !! w with
           | Some _ => (extra, S common)
           | None => (extra ++ [mkWord w pos], common)
           end)
        ([], 0%nat) (map_to_list words).

(** The second inner loop: the words of the template the sample lacks. *)
Definition templateLoop (words : gmap string nat) (t : Template)
  : list Word :=
  foldl (fun missing '(w, pos) =>
           match words !! w with
           | Some _ => missing
           | None => missing ++ [mkWord w pos]
           end)
        [] (map_to_list (Words t)).

(** [2 * float64(common) / (float64(n) + float64(m))], the Dice
    coefficient of two sets of [n] and [m] words with [common] words in
    common. *)
Definition dice (common n m : nat) : float64 :=
  fdiv (fmul (float64_of_int 2) (float64_of_int (Z.of_nat common)))
       (fadd (float64_of_int (Z.of_nat n)) (float64_of_int (Z.of_nat m))).

(** [score] for the template [t]: [n] is [len(words)] and [m] is
    [len(t.Words)]. *)
Definition templateScore (words : gmap string nat) (t : Template) : float64 :=
  dice (snd (sampleLoop words t)) (size words) (size (Words t)).

Record Best : Type := mkBest {
  bestScore : float64;
  bestTemplate : option Template;
  bestExtra : list Word;
  bestMissing : list Word
}.

Definition bestInit : Best := mkBest (Fin (-1)) None [] [].

(** The state the loop has after a template [t] with a better score. *)
Definition bestOf (words : gmap string nat) (t : Template) : Best :=
  mkBest (templateScore words t) (Some t)
    (fst (sampleLoop words t)) (templateLoop words t).

(** One iteration of the loop over the templates. *)
Definition matchStep (words : gmap string nat) (b : Best) (t : Template)
  : Best :=
  let extra := fst (sampleLoop words t) in
  let missing := templateLoop words t in
  let score := templateScore words t in
  if fgt score (bestScore b)
  then mkBest score (Some t) extra missing
  else b.

Definition matchWords (words : gmap string nat) (templates : list Template)
  : MatchResult :=
  let b := foldl (matchStep words) bestInit templates in
  mkMatchResult (bestTemplate b) (bestScore b)
    (sortAndReturnWords (bestExtra b))
    (sortAndReturnWords (bestMissing b)).

Definition matchTemplates (license : string) (templates : list Template)
  : MatchResult :=
  matchWords (makeWordSet license) templates.

(** The template a document body gives: the part of [parseTemplate] after
    the front matter. *)
Definition templateOf (title nickname body : string) : Template :=
  mkTemplate title nickname (makeWordSet body).

(** ** Results of fallible code

    [Return] is a normal return, [Failure] a returned [error] (or a
    [log.Fatal]), [Panic] a run-time panic. *)

Inductive outcome (A : Type) : Type :=
| Return (a : A)
| Failure (msg : string)
| Panic.
Arguments Return {A} a.
Arguments Failure {A} msg.
Arguments Panic {A}.

(** ** Import paths: [strings.Split], [strings.Join], [strings.Index] *)

Definition slash : ascii := "/"%char.

(** [strings.Split(s, "/")] *)
Fixpoint Split (s : string) : list string :=
  match s with
  | "" => [""]
  | String c s' =>
      if Ascii.eqb c slash then "" :: Split s'
      else match Split s' with
           | h :: t => String c h :: t
           | [] => [String c ""]
           end
  end.

(** [strings.Join(parts, "/")] *)
Fixpoint Join (parts : list string) : string :=
  match parts with
  | [] => ""
  | [p] => p
  | p :: ps => p +:+ "/" +:+ Join ps
  end.

(** [strings.Index(s, sub)]; [None] is Go's [-1]. *)
Fixpoint Index (s sub : string) : option nat :=
  match strip_prefix sub s with
  | Some _ => Some 0%nat
  | None =>
      match s with
      | "" => None
      | String _ s' => S <$> Index s' sub
      end
  end.

(** [s[n:]] *)
Fixpoint string_drop (n : nat) (s : string) : string :=
  match n, s with
  | O, _ => s
  | S k, String _ s' => string_drop k s'
  | S _, "" => ""
  end.

(** ** The prefix tree of [longestCommonPrefix]

    [Children] is a Go map.  The code only looks a key up, adds a fresh
    key, asks for the number of keys and takes the sole entry of a
    one-entry map, so an association list with distinct keys models it
    without any dependence on the iteration order. *)

Unset Elimination Schemes.
Inductive Node : Type :=
| mkNode (name : string) (children : list (string * Node)) (shared : nat).
Set Elimination Schemes.

Definition node_Name (n : Node) : string :=
  match n with mkNode name _ _ => name end.
Definition node_Children (n : Node) : list (string * Node) :=
  match n with mkNode _ children _ => children end.
Definition node_Shared (n : Node) : nat :=
  match n with mkNode _ _ shared => shared end.

(** [n.Children[part]] *)
Fixpoint getChild (part : string) (children : list (string * Node))
  : option Node :=
  match children with
  | [] => None
  | (k, c) :: rest =>
      if String.eqb k part then Some c else getChild part rest
  end.

(** [n.Children[part] = c] *)
Fixpoint setChild (part : string) (c : Node) (children : list (string * Node))
  : list (string * Node) :=
  match children with
  | [] => [(part, c)]
  | (k, c0) :: rest =>
      if String.eqb k part then (k, c) :: rest
      else (k, c0) :: setChild part c rest
  end.

(** The inner loop of the construction, from node [n] on: every node on
    the path of [parts] is created when missing and its [Shared] counter
    is incremented. *)
Fixpoint addPath (parts : list string) (n : Node) : Node :=
  match parts with
  | [] => n
  | part :: rest =>
      let c := match getChild part (node_Children n) with
               | Some c => c
               | None => mkNode part [] 0
               end in
      let c' := addPath rest
                  (mkNode (node_Name c) (node_Children c) (S (node_Shared c))) in
      mkNode (node_Name n) (setChild part c' (node_Children n)) (node_Shared n)
  end.

Definition buildTree (licenses : list License) : Node :=
  foldl (fun root l => addPath (Split (Package l)) root)
        (mkNode "" [] (length licenses)) licenses.

(** The final loop: it goes down while the node has exactly one child, and
    collects the names of the children every license goes through. *)
Fixpoint walkPrefix (total : nat) (n : Node) : list string :=
  match n with
  | mkNode _ [(_, c)] _ =>
      (if (node_Shared c =? total)%nat then [node_Name c] else [])
      ++ walkPrefix total c
  | _ => []
  end.

Definition longestCommonPrefix (licenses : list License) : string :=
  Join (walkPrefix (length licenses) (buildTree licenses)).

(** ** Grouping: [groupLicenses] *)

(** The first loop: the licenses that claim each non-empty path, in the
    order of the input. *)
Definition claimPath (l : License) (paths : gmap string (list License))
  (li : LicenseInfo) : gmap string (list License) :=
  if String.eqb (Path li) "" then paths
  else <[Path li := default [] (paths !! Path li) ++ [l]]> paths.

Definition collectPaths (licenses : list License)
  : gmap string (list License) :=
  foldl (fun paths l => foldl (claimPath l) paths (LicenseInfos l))
        ∅ licenses.

Definition withPackage (l : License) (package : string) : License :=
  mkLicense package (LicenseInfos l) (Err l).

(** The body of the second loop, for the entry [(k, v)]. *)
Definition mergeGroup (acc : outcome (gmap string (list License)))
  (kv : string * list License) : outcome (gmap string (list License)) :=
  match acc with
  | Return paths =>
      match kv.2 with
      | l :: _ :: _ =>
          let prefix := longestCommonPrefix kv.2 in
          if String.eqb prefix ""
          then Failure "packages share the same license but not common prefix"
          else Return (<[kv.1 := [withPackage l prefix]]> paths)
      | _ => Return paths
      end
  | _ => acc
  end.

Definition mergeGroups (paths : gmap string (list License))
  : outcome (gmap string (list License)) :=
  foldl mergeGroup (Return paths) (map_to_list paths).

(** The state of the third loop. *)
Record Keeping : Type := mkKeeping {
  kept : list License;
  k_paths : gmap string (list License);
  seen : gset string
}.

(** The body of the inner loop of the third loop. *)
Definition keepInfo (l : License) (acc : outcome Keeping) (li : LicenseInfo)
  : outcome Keeping :=
  match acc with
  | Return st =>
      if String.eqb (Path li) ""
      then Return (mkKeeping (kept st ++ [l]) (k_paths st) (seen st))
      else match k_paths st !! Path li with
           | Some (v0 :: _) =>
               if decide (Package v0 ∈ seen st) then Return st
               else Return (mkKeeping (kept st ++ [v0])
                              (delete (Path li) (k_paths st))
                              ({[Package v0]} ∪ seen st))
           | Some [] => Panic
           | None => Return st
           end
  | _ => acc
  end.

Definition keepLicense (acc : outcome Keeping) (l : License)
  : outcome Keeping :=
  match acc with
  | Return st =>
      match LicenseInfos l with
      | [] => Return (mkKeeping (kept st ++ [l]) (k_paths st) (seen st))
      | infos => foldl (keepInfo l) acc infos
      end
  | _ => acc
  end.

Definition groupLicenses (licenses : list License) : outcome (list License) :=
  match mergeGroups (collectPaths licenses) with
  | Return paths =>
      match foldl keepLicense (Return (mkKeeping [] paths ∅)) licenses with
      | Return st => Return (kept st)
      | Failure msg => Failure msg
      | Panic => Panic
      end
  | Failure msg => Failure msg
  | Panic => Panic
  end.

(** ** Projects: [removeVendor], [licensesToProjectAndLicenses] *)

Definition vendor : string := "/vendor/".

Definition removeVendor (s : string) : string :=
  match Index s vendor with
  | None => s
  | Some i => string_drop (i + String.length vendor) s
  end.

(** The number of license infos whose [Template] is nil. *)
Definition countNil (infos : list LicenseInfo) : nat :=
  foldl (fun nt li => match li_Template li with
                      | None => S nt
                      | Some _ => nt
                      end) 0%nat infos.

(** The loop that fills [tLicenses]; [li.Template.Title] dereferences the
    template, which panics when it is nil. *)
Definition addTruncLicense (acc : outcome (list truncLicense))
  (li : LicenseInfo) : outcome (list truncLicense) :=
  match acc with
  | Return tLicenses =>
      match li_Template li with
      | None => Panic
      | Some t =>
          if String.eqb (Title t) "" then Return tLicenses
          else Return (tLicenses ++ [mkTruncLicense (Title t) (Score li)])
      end
  | _ => acc
  end.

Definition noLicenseDetected : string := "No license detected".

(** One iteration of the loop of [licensesToProjectAndLicenses]; the
    state is the pair of the lists [c] and [e]. *)
Definition projectStep
  (acc : outcome (list projectAndLicenses * list projectAndLicenses))
  (l : License)
  : outcome (list projectAndLicenses * list projectAndLicenses) :=
  match acc with
  | Return (c, e) =>
      if negb (String.eqb (Err l) "")
      then Return (c, e ++ [mkProjectAndLicenses (removeVendor (Package l)) [] (Err l)])
      else if (length (LicenseInfos l) =? countNil (LicenseInfos l))%nat
      then Return (c, e ++ [mkProjectAndLicenses (removeVendor (Package l)) []
                              noLicenseDetected])
      else match foldl addTruncLicense (Return []) (LicenseInfos l) with
           | Return tLicenses =>
               Return (c ++ [mkProjectAndLicenses (removeVendor (Package l))
                               tLicenses ""], e)
           | Failure msg => Failure msg
           | Panic => Panic
           end
  | _ => acc
  end.

Definition licensesToProjectAndLicenses (licenses : list License)
  : outcome (list projectAndLicenses * list projectAndLicenses) :=
  foldl projectStep (Return ([], [])) licenses.

(** The licenses that go to the error list [e]: those with an error and
    those whose license infos all have a nil template. *)
Definition reportsError (l : License) : bool :=
  negb (String.eqb (Err l) "")
  || (length (LicenseInfos l) =? countNil (LicenseInfos l))%nat.

(** The license list a package whose templates are all present gets: the
    infos whose template has a title, in order. *)
Definition namedLicenses (infos : list LicenseInfo) : list truncLicense :=
  omap (fun li => match li_Template li with
                  | Some t =>
                      if String.eqb (Title t) "" then None
                      else Some (mkTruncLicense (Title t) (Score li))
                  | None => None
                  end) infos.

(** ** [truncateFloat]

    [fmt.Sprintf("%.3f", f)] writes the decimal with three digits after the
    point that is nearest to [f], the even one of two equally near ones;
    [strconv.ParseFloat] reads it back. *)

Definition round_half_even (q : Q) : Z :=
  let f := Qfloor q in
  match ((q - inject_Z f) ?= (1 # 2))%Q with
  | Lt => f
  | Gt => (f + 1)%Z
  | Eq => if Z.even f then f else (f + 1)%Z
  end.

Definition truncateFloat (f : float64) : float64 :=
  match f with
  | Fin q => Fin (Qred (inject_Z (round_half_even (q * 1000)%Q) / 1000)%Q)
  | _ => f
  end.

(** The [LicenseInfo] that [listLicenses] makes of the match result of the
    file at a non-empty [path]. *)
Definition licenseInfoOf (path : string) (m : MatchResult) : LicenseInfo :=
  mkLicenseInfo path (mr_Score m) (mr_Template m)
    (mr_ExtraWords m) (mr_MissingWords m).

(** ** Override merging: [pkgsToLicenses] *)

(** The map [fplm]: the license names the overrides force on each
    project. *)
Definition addOverrideName (project : string) (fplm : gmap string (list string))
  (tl : truncLicense) : gmap string (list string) :=
  <[project := default [] (fplm !! project) ++ [Name tl]]> fplm.

Definition overrideMap (overrides : list projectAndLicenses)
  : gmap string (list string) :=
  foldl (fun fplm pl => foldl (addOverrideName (Project pl)) fplm (Licenses pl))
        ∅ overrides.

(** [tls = append(tls, truncLicense{Name: tl, Confidence: 1.0})] for every
    name of [l]. *)
Definition appendForced (tls : list truncLicense) (l : list string)
  : list truncLicense :=
  foldl (fun tls tl => tls ++ [mkTruncLicense tl (Fin 1)]) tls l.

(** The state of the loops over [c] and over [fplm]: the slice [tls], the
    map [fplm] and the result [pls]. *)
Record Merging : Type := mkMerging {
  m_tls : list truncLicense;
  m_fplm : gmap string (list string);
  m_pls : list projectAndLicenses
}.

(** The body of the loop over the detected licenses [c]. *)
Definition overrideDetected (st : Merging) (pl : projectAndLicenses)
  : Merging :=
  match m_fplm st !! Project pl with
  | Some l =>
      let tls := appendForced (m_tls st) l in
      mkMerging tls (delete (Project pl) (m_fplm st))
        (m_pls st ++ [mkProjectAndLicenses (Project pl) tls ""])
  | None => mkMerging (m_tls st) (m_fplm st) (m_pls st ++ [pl])
  end.

(** The body of the loop over the remaining overrides. *)
Definition forceAdd (st : Merging) (entry : string * list string) : Merging :=
  let tls := appendForced (m_tls st) entry.2 in
  mkMerging tls (m_fplm st)
    (m_pls st ++ [mkProjectAndLicenses entry.1 tls ""]).

(** The part of [pkgsToLicenses] after [licensesToProjectAndLicenses]:
    [overrides] is the decoded override document, [c] and [e] the detected
    licenses and the errors. *)
Definition mergeOverrides (overrides c e : list projectAndLicenses)
  : list projectAndLicenses * list projectAndLicenses :=
  let fplm := overrideMap overrides in
  let st1 := foldl overrideDetected (mkMerging [] fplm []) c in
  let st2 := foldl forceAdd (mkMerging [] (m_fplm st1) (m_pls st1))
               (map_to_list (m_fplm st1)) in
  let ne := filter (fun pl => m_fplm st2 !! Project pl = None) e in
  (m_pls st2, ne).

(** [pkgsToLicenses], from the result of [listLicenses] on. *)
Definition pkgsToLicenses (licenses : list License)
  (overrides : list projectAndLicenses)
  : outcome (list projectAndLicenses * list projectAndLicenses) :=
  match groupLicenses licenses with
  | Return grouped =>
      match licensesToProjectAndLicenses grouped with
      | Return (c, e) => Return (mergeOverrides overrides c e)
      | Failure msg => Failure msg
      | Panic => Panic
      end
  | Failure msg => Failure msg
  | Panic => Panic
  end.

(** ** License file names: [reLicense], [scoreLicenseName]

    [reLicense] is
    [(?i)^(?:((?:un)?licen[sc]e(?:\.[^.]+)?)|(copy(?:ing|right)(?:\.[^.]+)?)|)$]:
    the whole name is matched, without regard to case, by the first group,
    by the second group or by the empty alternative. *)

Definition is_dot (c : ascii) : bool := Ascii.eqb c ".".

Fixpoint all_bytes (p : ascii -> bool) (s : string) : bool :=
  match s with
  | "" => true
  | String c s' => p c && all_bytes p s'
  end.

(** [(?:\.[^.]+)?$]: nothing, or a dot and one or more bytes that are not
    dots, up to the end of the name. *)
Definition match_extension_end (s : string) : bool :=
  match s with
  | "" => true
  | String c "" => false
  | String c r => is_dot c && all_bytes (fun b => negb (is_dot b)) r
  end.

(** [licen[sc]e] *)
Definition match_licence (s : string) : option string :=
  match strip_prefix "license" s with
  | Some r => Some r
  | None => strip_prefix "licence" s
  end.

(** Group 1: [(?:un)?licen[sc]e(?:\.[^.]+)?], on a lower-cased name. *)
Definition match_group1 (s : string) : bool :=
  let with_un :=
    match strip_prefix "un" s with
    | Some r =>
        match match_licence r with
        | Some r' => match_extension_end r'
        | None => false
        end
    | None => false
    end in
  with_un ||
  match match_licence s with
  | Some r' => match_extension_end r'
  | None => false
  end.

(** Group 2: [copy(?:ing|right)(?:\.[^.]+)?], on a lower-cased name. *)
Definition match_group2 (s : string) : bool :=
  match strip_prefix "copy" s with
  | Some r =>
      match strip_prefix "ing" r with
      | Some r' => match_extension_end r'
      | None =>
          match strip_prefix "right" r with
          | Some r' => match_extension_end r'
          | None => false
          end
      end
  | None => false
  end.

(** [m[1] != "" || m[2] != ""]: neither group matches the empty name. *)
Definition scoreLicenseName (name : string) : Z :=
  if match_group1 (ToLower name) || match_group2 (ToLower name)
  then 1%Z else 0%Z.

(** ** Lexical paths: [filepath.Clean], [filepath.Dir], [filepath.Join] *)

Definition is_rooted (path : string) : bool :=
  match path with
  | String c _ => Ascii.eqb c slash
  | "" => false
  end.

(** The elements [Clean] keeps; [out] is the stack of the elements kept so
    far, the last one first.  A [".."] on the stack is one that could not
    be resolved. *)
Fixpoint cleanElems (rooted : bool) (out : list string) (elems : list string)
  : list string :=
  match elems with
  | [] => rev out
  | e :: es =>
      if String.eqb e "" || String.eqb e "." then cleanElems rooted out es
      else if String.eqb e ".." then
        match out with
        | top :: out' =>
            if String.eqb top ".." then cleanElems rooted (e :: out) es
            else cleanElems rooted out' es
        | [] =>
            if rooted then cleanElems rooted out es
            else cleanElems rooted [e] es
        end
      else cleanElems rooted (e :: out) es
  end.

Definition Clean (path : string) : string :=
  let rooted := is_rooted path in
  let out := Join (cleanElems rooted [] (Split path)) in
  if rooted then "/" +:+ out
  else if String.eqb out "" then "." else out.

(** [path[:i+1]] for the index [i] of the last slash of [path], the empty
    string when there is none. *)
Fixpoint upToLastSlash (path : string) : string :=
  match path with
  | "" => ""
  | String c r =>
      match upToLastSlash r with
      | "" => if Ascii.eqb c slash then String c "" else ""
      | d => String c d
      end
  end.

Definition Dir (path : string) : string := Clean (upToLastSlash path).

(** [filepath.Join]: the empty elements before the first non-empty one are
    dropped and the rest is joined and cleaned. *)
Fixpoint filepath_Join (elem : list string) : string :=
  match elem with
  | [] => ""
  | e :: es =>
      if String.eqb e "" then filepath_Join es else Clean (Join elem)
  end.

(** ** The license file locator: [findLicenses] *)

Record FileInfo : Type := mkFileInfo {
  fi_Name : string;
  fi_IsRegular : bool
}.

Record PkgInfo : Type := mkPkgInfo {
  pi_Name : string;
  pi_Dir : string;
  pi_Root : string;
  pi_ImportPath : string
}.

(** What [ioutil.ReadDir] returns: the entries of the directory, or an
    error. *)
Inductive ReadDirResult : Type :=
| DirEntries (fis : list FileInfo)
| DirError (msg : string).

(** The file system, as [ioutil.ReadDir] shows it. *)
Definition FileSystem : Type := string -> ReadDirResult.

(** [filepath.Join(info.Root, "src", path)] *)
Definition dirOf (root path : string) : string :=
  filepath_Join [root; "src"; path].

(** The inner loop: the viable names of one directory. *)
Definition viableNames (path : string) (fis : list FileInfo) : list string :=
  foldl (fun allViableNames fi =>
           if negb (fi_IsRegular fi) then allViableNames
           else if (scoreLicenseName (fi_Name fi) =? 1)%Z
                then allViableNames ++ [filepath_Join [path; fi_Name fi]]
                else allViableNames)
        [] fis.

(** The loop of [findLicenses] from [path] on; the result is the pair of
    the returned paths and the returned error.  [fuel] bounds the number
    of iterations: [None] is a loop that has not ended within [fuel]
    iterations. *)
Fixpoint findLicensesFrom (fuel : nat) (fs : FileSystem) (root path : string)
  : option (list string * option string) :=
  if String.eqb path "." then Some ([""], None)
  else
    match fuel with
    | O => None
    | S fuel' =>
        match fs (dirOf root path) with
        | DirEntries fis =>
            match viableNames path fis with
            | [] => findLicensesFrom fuel' fs root (Dir path)
            | allViableNames => Some (allViableNames, None)
            end
        | DirError msg => Some ([""], Some msg)
        end
    end.

Definition findLicenses (fuel : nat) (fs : FileSystem) (info : PkgInfo)
  : option (list string * option string) :=
  findLicensesFrom fuel fs (pi_Root info) (pi_ImportPath info).

(** *** What the locator is to do

    The directories the loop visits: [path], [Dir path], ... up to, and
    without, ["."]. *)
Fixpoint ancestors (fuel : nat) (path : string) : list string :=
  if String.eqb path "." then []
  else match fuel with
       | O => []
       | S fuel' => path :: ancestors fuel' (Dir path)
       end.

(** A name that, in lower case, is [license], [licence], [unlicense],
    [unlicence], [copying] or [copyright], alone or followed by a dot and
    one or more bytes none of which is a dot. *)
Definition isLicenseName (name : string) : Prop :=
  exists base ext,
    ToLower name = base +:+ ext
    /\ base ∈ ["license"; "licence"; "unlicense"; "unlicence";
               "copying"; "copyright"]
    /\ (ext = ""
        \/ exists e, ext = "." +:+ e /\ e <> ""
                     /\ all_bytes (fun b => negb (is_dot b)) e = true).

(** The names of the regular files of a directory that have a license
    name, in the order of the directory. *)
Definition licenseFiles (fis : list FileInfo) : list string :=
  fi_Name <$> List.filter
                (fun fi => fi_IsRegular fi
                           && (scoreLicenseName (fi_Name fi) =? 1)%Z) fis.

(** [located fs root dirs r]: [r] is the result for the directories
    [dirs], taken from the first one on. *)
Inductive located (fs : FileSystem) (root : string)
  : list string -> list string * option string -> Prop :=
| located_nowhere :
    located fs root [] ([""], None)
| located_here d dirs fis :
    fs (dirOf root d) = DirEntries fis ->
    licenseFiles fis <> [] ->
    located fs root (d :: dirs)
      ((fun name => filepath_Join [d; name]) <$> licenseFiles fis, None)
| located_above d dirs fis r :
    fs (dirOf root d) = DirEntries fis ->
    licenseFiles fis = [] ->
    located fs root dirs r ->
    located fs root (d :: dirs) r
| located_unreadable d dirs msg :
    fs (dirOf root d) = DirError msg ->
    located fs root (d :: dirs) ([""], Some msg).

(** An element of an import path: not empty, without a slash, and neither
    [.] nor [..]. *)
Definition normalElem (e : string) : Prop :=
  e <> "" /\ e <> "." /\ e <> ".."
  /\ all_bytes (fun c => negb (Ascii.eqb c slash)) e = true.

(** The directories of an import path made of the elements [elems], from
    the path itself up to its first element. *)
Definition ancestorPaths (elems : list string) : list string :=
  (fun k => Join (take k elems)) <$> reverse (seq 1 (length elems)).

(** The number of bytes of the strings of [l]. *)
Definition total_length (l : list string) : nat :=
  sum_list (String.length <$> l).

Definition nonempty (e : string) : bool := negb (String.eqb e "").

(** A source tree in which [colors/cmd/paint] has no license file of its
    own, [colors/cmd] has a directory called [LICENSE], and [colors] has
    two license files. *)
Definition exampleTree : FileSystem := fun d =>
  if String.eqb d "/go/src/colors/cmd/paint"
  then DirEntries [mkFileInfo "main.go" true]
  else if String.eqb d "/go/src/colors/cmd"
  then DirEntries [mkFileInfo "LICENSE" false]
  else if String.eqb d "/go/src/colors"
  then DirEntries [mkFileInfo "COPYING" true; mkFileInfo "a.go" true;
                   mkFileInfo "License.md" true]
  else DirError "no such directory".

Definition examplePackage : PkgInfo :=
  mkPkgInfo "paint" "/go/src/colors/cmd/paint" "/go" "colors/cmd/paint".

(** *** What grouping is to do *)

(** [q] is the longest list that is a prefix of every list of [pss]. *)
Definition isLongestCommonPrefix (q : list string) (pss : list (list string))
  : Prop :=
  (forall p, p ∈ pss -> q `prefix_of` p)
  /\ (forall q', (forall p, p ∈ pss -> q' `prefix_of` p) -> q' `prefix_of` q).

(** The elements of the import paths of [licenses]. *)
Definition importPaths (licenses : list License) : list (list string) :=
  (fun l => Split (Package l)) <$> licenses.

(** The licenses that claim the path [k], one for each license info of
    theirs that has this path, in the order of the input. *)
Definition claimants (licenses : list License) (k : string) : list License :=
  l ← licenses;
  (fun _ => l) <$> List.filter (fun li => String.eqb (Path li) k) (LicenseInfos l).

(** The tails of the lists of [pss] that start with [k]. *)
Definition tailsOf (k : string) (pss : list (list string))
  : list (list string) :=
  omap (fun p => match p with
                 | e :: t => if String.eqb e k then Some t else None
                 | [] => None
                 end) pss.

(** The children of a node under which the lists [pss] have been added. *)
Definition builtChildren (pss : list (list string)) : list (string * Node) :=
  node_Children (foldl (fun n p => addPath p n) (mkNode "" [] 0) pss).

(** The number of elements of the lists of [pss]. *)
Definition pathsSize (pss : list (list string)) : nat :=
  sum_list (length <$> pss).

(** [l'] stands for the group of the licenses that claim one license file:
    the path [k] of the file is not empty, two or more licenses claim it,
    [l'] is the first of them under the name [Join q], where [q] is the
    longest common prefix of their import paths, and this name is not
    empty. *)
Definition mergedEntry (licenses : list License) (l' : License) : Prop :=
  exists k l0 rest q,
    k <> ""
    /\ claimants licenses k = l0 :: rest
    /\ rest <> []
    /\ isLongestCommonPrefix q (importPaths (l0 :: rest))
    /\ Join q <> ""
    /\ l' = withPackage l0 (Join q).

(** What a value of the map of paths is after the second loop: the group
    as it was, or the one entry that stands for it. *)
Definition groupValue (paths : gmap string (list License))
  (k : string) (v' : list License) : Prop :=
  paths !! k = Some v'
  \/ exists l0 rest,
       paths !! k = Some (l0 :: rest) /\ rest <> []
       /\ longestCommonPrefix (l0 :: rest) <> ""
       /\ v' = [withPackage l0 (longestCommonPrefix (l0 :: rest))].


(** What is kept, and what is left in the map of paths, is in [Q]. *)
Definition keepingIn (Q : License -> Prop) (st : Keeping) : Prop :=
  Forall Q (kept st)
  /\ forall k v, k_paths st !! k = Some v -> Forall Q v.

(** *** Copyright notices *)

Definition is_blank (c : ascii) : bool := is_space c && negb (is_newline c).

(** A four-digit year, or the literal [[year]]. *)
Definition yearMarker (y : string) : Prop :=
  y = "[year]"
  \/ exists a b c d,
       y = String a (String b (String c (String d "")))
       /\ is_digit a = true /\ is_digit b = true
       /\ is_digit c = true /\ is_digit d = true.

(** The symbols a notice may have after [copyright ]: none, the copyright
    sign, [(c)], or the copyright sign after a capital or small A with
    circumflex. *)
Definition symbolMarkers : list string :=
  [""; copyright_sign; "(c)";
   a_circumflex_upper +:+ copyright_sign;
   a_circumflex_lower +:+ copyright_sign].

(** A lower-case copyright notice with a year, up to the end of its line:
    [copyright ], a symbol or none, blanks, the year, and what follows on
    the line. *)
Definition noticeLine (n : string) : Prop :=
  exists sym ws y rest,
    n = "copyright " +:+ sym +:+ ws +:+ y +:+ rest
    /\ sym ∈ symbolMarkers
    /\ all_bytes is_blank ws = true
    /\ yearMarker y
    /\ all_bytes not_newline rest = true.

(** What follows a line: nothing, or a text that starts with a line
    feed. *)
Definition lineEnd (post : string) : Prop :=
  post = "" \/ exists r, post = String "010" r.

(** [x] is a text that begins with a notice: it starts with [copyright ],
    the notice is matched, and [post] is what follows its line. *)
Definition noticeAhead (x post : string) : Prop :=
  (exists x', x = "copyright " +:+ x')
  /\ drop_while not_newline x = post
  /\ reCopyright_match x = Some post.

(** The suffixes of a string, from the string itself to the empty one. *)
Fixpoint suffixes (s : string) : list string :=
  s :: match s with
       | "" => []
       | String _ s' => suffixes s'
       end.

(** The literals of [reCopyright]. *)
Definition literals : list string :=
  ["copyright "; copyright_sign; "(c)";
   a_circumflex_upper +:+ copyright_sign;
   a_circumflex_lower +:+ copyright_sign; "[year]"].

(** * The rest of the program: templates, the go tool, [listLicenses] *)

(** ** [strings.TrimSpace], [strings.HasPrefix], [strings.Contains]

    [strings.TrimSpace] removes the leading and the trailing white space
    of [unicode.IsSpace].  The white space runes are listed here by their
    UTF-8 encodings: the six of ASCII, U+0085, U+00A0, U+1680, U+2000 to
    U+200A, U+2028, U+2029, U+202F, U+205F and U+3000.  A byte sequence
    that is not the encoding of one of them decodes to another rune or to
    [RuneError], neither of which is white space. *)

Definition byte_string (bs : list nat) : string :=
  fold_right (fun b s => String (ascii_of_nat b) s) "" bs.

Definition spaceRunes : list string :=
  byte_string <$>
    [[9]; [10]; [11]; [12]; [13]; [32]; [194; 133]; [194; 160];
     [225; 154; 128];
     [226; 128; 128]; [226; 128; 129]; [226; 128; 130]; [226; 128; 131];
     [226; 128; 132]; [226; 128; 133]; [226; 128; 134]; [226; 128; 135];
     [226; 128; 136]; [226; 128; 137]; [226; 128; 138];
     [226; 128; 168]; [226; 128; 169]; [226; 128; 175]; [226; 129; 159];
     [227; 128; 128]]%nat.

(** The rest of [s] after the first string of [ws] it starts with. *)
Fixpoint strip_any (ws : list string) (s : string) : option string :=
  match ws with
  | [] => None
  | w :: ws' =>
      match strip_prefix w s with
      | Some r => Some r
      | None => strip_any ws' s
      end
  end.

(** [s] without the strings of [ws] it starts with, one after the other;
    [fuel] bounds their number. *)
Fixpoint trimLeft (fuel : nat) (ws : list string) (s : string) : string :=
  match fuel with
  | O => s
  | S fuel' =>
      match strip_any ws s with
      | Some r => trimLeft fuel' ws r
      | None => s
      end
  end.

Definition TrimLeftSpace (s : string) : string :=
  trimLeft (String.length s) spaceRunes s.

Definition TrimRightSpace (s : string) : string :=
  String.rev (trimLeft (String.length s) (String.rev <$> spaceRunes)
                (String.rev s)).

Definition TrimSpace (s : string) : string :=
  TrimRightSpace (TrimLeftSpace s).

(** [strings.HasPrefix(s, prefix)] *)
Definition HasPrefix (s prefix : string) : bool :=
  match strip_prefix prefix s with
  | Some _ => true
  | None => false
  end.

(** [strings.Contains(s, substr)] *)
Definition Contains (s substr : string) : bool :=
  match Index s substr with
  | Some _ => true
  | None => false
  end.

(** [strings.Split(s, sep)] for a separator [sep] of one byte. *)
Fixpoint SplitBy (sep : ascii) (s : string) : list string :=
  match s with
  | "" => [""]
  | String c s' =>
      if Ascii.eqb c sep then "" :: SplitBy sep s'
      else match SplitBy sep s' with
           | h :: t => String c h :: t
           | [] => [String c ""]
           end
  end.

(** [strings.Join(parts, sep)] *)
Fixpoint JoinWith (sep : string) (parts : list string) : string :=
  match parts with
  | [] => ""
  | [p] => p
  | p :: ps => p +:+ sep +:+ JoinWith sep ps
  end.

(** ** [bufio.Scanner] with [bufio.ScanLines]

    The lines of a text: the byte sequences its line feeds end, and the
    rest after the last line feed when it is not empty. *)
Fixpoint rawLines (s : string) : list string :=
  match s with
  | "" => []
  | String c s' =>
      if is_newline c then "" :: rawLines s'
      else match rawLines s' with
           | l :: ls => String c l :: ls
           | [] => [String c ""]
           end
  end.

Definition CR : ascii := "013"%char.

(** [dropCR]: a line without the carriage return it ends with. *)
Definition dropCR (l : string) : string :=
  match String.rev l with
  | String c r => if Ascii.eqb c CR then String.rev r else l
  | "" => l
  end.

(** The scanner's buffer holds [bufio.MaxScanTokenSize] bytes; a line
    whose end is not found within them stops the scan with
    [bufio.ErrTooLong]. *)
Definition MaxScanTokenSize : N := 65536.

Definition tooLong (l : string) : bool :=
  (MaxScanTokenSize <=? N.of_nat (String.length l))%N.

Definition ErrTooLong : string := "bufio.Scanner: token too long".

(** The tokens [scanner.Scan] delivers for the lines [ls], and
    [scanner.Err()]. *)
Fixpoint scanTokens (ls : list string) : list string * option string :=
  match ls with
  | [] => ([], None)
  | l :: ls' =>
      if tooLong l then ([], Some ErrTooLong)
      else (dropCR l :: (scanTokens ls').1, (scanTokens ls').2)
  end.

Definition ScanLines (content : string) : list string * option string :=
  scanTokens (rawLines content).

(** ** [parseTemplate], [loadTemplates] *)

(** What the functions around the go tool return: a result, a
    [*MissingError] or another error. *)
Inductive listing (A : Type) : Type :=
| Listed (a : A)
| MissingError (err : string)
| OtherError (msg : string).
Arguments Listed {A} a.
Arguments MissingError {A} err.
Arguments OtherError {A} msg.

(** The variables of [parseTemplate]: [state], the title and the nickname
    of [t], and [text]. *)
Record Parsing : Type := mkParsing {
  p_state : nat;
  p_Title : string;
  p_Nickname : string;
  p_text : string
}.

(** The body of the loop, for the token [token]. *)
Definition parseLine (st : Parsing) (token : string) : Parsing :=
  let line := TrimSpace token in
  match p_state st with
  | 0%nat =>
      if String.eqb line "---"
      then mkParsing 1 (p_Title st) (p_Nickname st) (p_text st)
      else st
  | 1%nat =>
      if String.eqb line "---"
      then mkParsing 2 (p_Title st) (p_Nickname st) (p_text st)
      else match strip_prefix "title:" line with
           | Some r => mkParsing 1 (TrimSpace r) (p_Nickname st) (p_text st)
           | None =>
               match strip_prefix "nickname:" line with
               | Some r => mkParsing 1 (p_Title st) (TrimSpace r) (p_text st)
               | None => st
               end
           end
  | 2%nat =>
      mkParsing 2 (p_Title st) (p_Nickname st) (p_text st +:+ token +:+ LF)
  | _ => st
  end.

Definition parseLines (tokens : list string) : Parsing :=
  foldl parseLine (mkParsing 0 "" "" "") tokens.

(** [parseTemplate] returns its template together with the error of the
    scanner. *)
Definition parseTemplate (content : string) : Template * option string :=
  let st := parseLines (ScanLines content).1 in
  (mkTemplate (p_Title st) (p_Nickname st) (makeWordSet (p_text st)),
   (ScanLines content).2).

(** [assets] are the contents of [assets.Assets], in their order. *)
Definition loadTemplates (assets : list string) : listing (list Template) :=
  foldl (fun acc a =>
           match acc with
           | Listed templates =>
               match parseTemplate a with
               | (templ, None) => Listed (templates ++ [templ])
               | (_, Some err) => OtherError err
               end
           | _ => acc
           end)
        (Listed []) assets.

(** ** The go tool: [fixEnv], [expandPackages], [listPackagesAndDeps] *)

(** [environ] is [os.Environ()]; [None] is the nil slice, with which
    [exec.Cmd] runs in the environment of the process. *)
Definition fixEnv (environ : list string) (gopath : string)
  : option (list string) :=
  if String.eqb gopath "" then None
  else Some (foldl (fun keptEnv env =>
                      if negb (HasPrefix env "GOPATH=")
                      then keptEnv ++ [env] else keptEnv)
                   ["GOPATH=" +:+ gopath] environ).

(** What [cmd.CombinedOutput()] returns: the output, and whether the
    error is not nil. *)
Record CmdResult : Type := mkCmdResult {
  cmd_out : string;
  cmd_failed : bool
}.

(** The go command, as [exec.Command("go", args...)] with the
    environment [cmd.Env] shows it. *)
Definition GoTool : Type := option (list string) -> list string -> CmdResult.

(** The error the two callers of [go list] return when it fails. *)
Definition goListError {A : Type} (args : list string) (output : string)
  : listing A :=
  if Contains output "cannot find package"
     || Contains output "no buildable Go source files"
  then MissingError output
  else OtherError ("'go " +:+ JoinWith " " args +:+ "' failed with:" +:+ LF
                   +:+ output).

Definition expandPackages (go : GoTool) (environ : list string)
  (gopath : string) (pkgs : list string) : listing (list string) :=
  let args := "list" :: pkgs in
  let r := go (fixEnv environ gopath) args in
  if cmd_failed r then goListError args (cmd_out r)
  else Listed (foldl (fun names s =>
                        if negb (String.eqb (TrimSpace s) "")
                        then names ++ [TrimSpace s] else names)
                     [] (SplitBy "010"%char (cmd_out r))).

(** The first loop over the dependencies: the state is [deps] and the
    set of the keys of [seen]. *)
Definition addDep (st : list string * gset string) (s : string)
  : list string * gset string :=
  if negb (String.eqb (TrimSpace s) "")
     && negb (bool_decide (TrimSpace s ∈ st.2))
  then (st.1 ++ [TrimSpace s], {[TrimSpace s]} ∪ st.2)
  else st.

(** The second loop, over the packages. *)
Definition addPkg (st : list string * gset string) (pkg : string)
  : list string * gset string :=
  if negb (bool_decide (pkg ∈ st.2))
  then (st.1 ++ [pkg], {[pkg]} ∪ st.2)
  else st.

(** [sort.Strings] sorts by the order of the bytes; the sorted list of a
    list of strings is unique. *)
Definition sortStrings (l : list string) : list string :=
  merge_sort String.le l.

Definition depsTemplate : string := "{{range .Deps}}{{.}}|{{end}}".

Definition listPackagesAndDeps (go : GoTool) (environ : list string)
  (gopath : string) (pkgs : list string) : listing (list string) :=
  match expandPackages go environ gopath pkgs with
  | Listed pkgs' =>
      let args := ["list"; "-f"; depsTemplate] ++ pkgs' in
      let r := go (fixEnv environ gopath) args in
      if cmd_failed r then goListError args (cmd_out r)
      else
        let st := foldl addDep ([], ∅) (SplitBy "|"%char (cmd_out r)) in
        Listed (sortStrings (foldl addPkg st pkgs').1)
  | err => err
  end.

Definition listStandardPackages (go : GoTool) (environ : list string)
  (gopath : string) : listing (list string) :=
  expandPackages go environ gopath ["std"; "cmd"].

(** ** [getPackagesInfo] *)

(** A [PkgInfo] with its [Error] field: [None] is nil, [Some err] a
    [*PkgError] whose [Err] is [err]. *)
Record Pkg : Type := mkPkg {
  pkg_info : PkgInfo;
  pkg_Error : option string
}.

(** The JSON decoder on the output of the go tool, as the sequence of
    the results of [decoder.Decode]: [Some p] is a decoded value and
    [None] an error; after the last element of the list the decoder is at
    the end of its input, which is an error too. *)
Definition Decoder : Type := string -> list (option Pkg).

(** [info.Name = info.ImportPath] for a package with an error and
    without a name. *)
Definition nameBroken (p : Pkg) : Pkg :=
  match pkg_Error p with
  | Some _ =>
      if String.eqb (pi_Name (pkg_info p)) ""
      then mkPkg (mkPkgInfo (pi_ImportPath (pkg_info p)) (pi_Dir (pkg_info p))
                    (pi_Root (pkg_info p)) (pi_ImportPath (pkg_info p)))
                 (pkg_Error p)
      else p
  | None => p
  end.

(** The loop over [pkgs], with the results [decoded] the decoder has
    left. *)
Fixpoint decodeInfos (pkgs : list string) (decoded : list (option Pkg))
  (infos : list Pkg) : listing (list Pkg) :=
  match pkgs with
  | [] => Listed infos
  | pkg :: pkgs' =>
      match decoded with
      | Some p :: decoded' =>
          if negb (String.eqb pkg (pi_ImportPath (pkg_info p)))
          then OtherError ("package information mismatch: asked for " +:+ pkg
                           +:+ ", got " +:+ pi_ImportPath (pkg_info p))
          else decodeInfos pkgs' decoded' (infos ++ [nameBroken p])
      | _ =>
          OtherError ("could not retrieve package information for " +:+ pkg)
      end
  end.

Definition getPackagesInfo (go : GoTool) (decode : Decoder)
  (environ : list string) (gopath : string) (pkgs : list string)
  : listing (list Pkg) :=
  let args := ["list"; "-e"; "-json"] ++ pkgs in
  let r := go (fixEnv environ gopath) args in
  if cmd_failed r
  then OtherError ("go " +:+ JoinWith " " args +:+ " failed with:" +:+ LF
                   +:+ cmd_out r)
  else decodeInfos pkgs (decode (cmd_out r)) [].

(** ** [listLicenses] *)

(** What [ioutil.ReadFile] returns: the content of the file, or an
    error. *)
Inductive ReadFileResult : Type :=
| FileData (data : string)
| FileError (msg : string).

Definition FileReader : Type := string -> ReadFileResult.

(** [LicenseInfo{Path: ""}] *)
Definition noLicenseInfo : LicenseInfo := mkLicenseInfo "" (Fin 0) None [] [].

(** The body of the loop over [paths]: the state is the cache [matched]
    and [licenseInfos]. *)
Definition infoStep (readFile : FileReader) (templates : list Template)
  (root : string)
  (acc : listing (gmap string MatchResult * list LicenseInfo)) (path : string)
  : listing (gmap string MatchResult * list LicenseInfo) :=
  match acc with
  | Listed (matched, licenseInfos) =>
      if String.eqb path ""
      then Listed (matched, licenseInfos ++ [noLicenseInfo])
      else
        let fpath := filepath_Join [root; "src"; path] in
        match matched !! fpath with
        | Some m => Listed (matched, licenseInfos ++ [licenseInfoOf path m])
        | None =>
            match readFile fpath with
            | FileData data =>
                let m := matchTemplates data templates in
                Listed (<[fpath := m]> matched,
                        licenseInfos ++ [licenseInfoOf path m])
            | FileError msg => OtherError msg
            end
        end
  | _ => acc
  end.

(** The body of the loop over [infos]: the state is the cache [matched]
    and [licenses].  [None] is a call of [findLicenses] that has not
    ended within [fuel] iterations.  The assignment to
    [license.LicenseInfos] for an empty [paths] is overwritten after the
    loop over [paths], so that it has no effect. *)
Definition licenseStep (fuel : nat) (fs : FileSystem) (readFile : FileReader)
  (templates : list Template) (stdSet : gset string)
  (acc : option (listing (gmap string MatchResult * list License)))
  (p : Pkg)
  : option (listing (gmap string MatchResult * list License)) :=
  match acc with
  | Some (Listed (matched, licenses)) =>
      match pkg_Error p with
      | Some err =>
          Some (Listed (matched,
                        licenses ++ [mkLicense (pi_Name (pkg_info p))
                                       [noLicenseInfo] err]))
      | None =>
          if bool_decide (pi_ImportPath (pkg_info p) ∈ stdSet) then acc
          else
            match findLicenses fuel fs (pkg_info p) with
            | None => None
            | Some (_, Some err) => Some (OtherError err)
            | Some (paths, None) =>
                match foldl (infoStep readFile templates
                               (pi_Root (pkg_info p)))
                            (Listed (matched, [])) paths with
                | Listed (matched', licenseInfos) =>
                    Some (Listed (matched',
                                  licenses
                                  ++ [mkLicense (pi_ImportPath (pkg_info p))
                                        licenseInfos ""]))
                | MissingError err => Some (MissingError err)
                | OtherError msg => Some (OtherError msg)
                end
            end
      end
  | _ => acc
  end.

(** The loop of [listLicenses] over the package infos. *)
Definition licensesOf (fuel : nat) (fs : FileSystem) (readFile : FileReader)
  (templates : list Template) (stdSet : gset string) (infos : list Pkg)
  : option (listing (list License)) :=
  match foldl (licenseStep fuel fs readFile templates stdSet)
              (Some (Listed (∅, []))) infos with
  | Some (Listed (_, licenses)) => Some (Listed licenses)
  | Some (MissingError err) => Some (MissingError err)
  | Some (OtherError msg) => Some (OtherError msg)
  | None => None
  end.

(** The lines [listLicenses] prints before it returns. *)
Definition printedLines (licenses : list License) : list string :=
  licenses ≫= fun l => Package l :: (Path <$> LicenseInfos l).

(** What [listLicenses] works on: the license templates, the
    environment, the go tool with the JSON decoder, and the file
    system. *)
Record World : Type := mkWorld {
  w_assets : list string;
  w_environ : list string;
  w_go : GoTool;
  w_decode : Decoder;
  w_fs : FileSystem;
  w_readFile : FileReader
}.

(** [listLicenses]; [None] is a call that does not return within [fuel]
    iterations of each [findLicenses]. *)
Definition listLicenses (fuel : nat) (w : World) (gopath : string)
  (pkgs : list string) : option (listing (list License)) :=
  match loadTemplates (w_assets w) with
  | Listed templates =>
      match listPackagesAndDeps (w_go w) (w_environ w) gopath pkgs with
      | Listed deps =>
          match listStandardPackages (w_go w) (w_environ w) gopath with
          | Listed std =>
              match getPackagesInfo (w_go w) (w_decode w) (w_environ w)
                      gopath deps with
              | Listed infos =>
                  licensesOf fuel (w_fs w) (w_readFile w) templates
                    (list_to_set std) infos
              | MissingError err => Some (MissingError err)
              | OtherError msg => Some (OtherError msg)
              end
          | MissingError err =>
              Some (OtherError ("could not list standard packages: " +:+ err))
          | OtherError msg =>
              Some (OtherError ("could not list standard packages: " +:+ msg))
          end
      | MissingError err => Some (MissingError err)
      | OtherError msg =>
          Some (OtherError ("could not list " +:+ JoinWith " " pkgs
                            +:+ " dependencies: " +:+ msg))
      end
  | MissingError err => Some (MissingError err)
  | OtherError msg => Some (OtherError msg)
  end.

(** [pkgsToLicenses] on the packages [pkgs]: [listLicenses] with an
    empty [gopath], then the grouping, the projects and the overrides.
    [log.Fatal] on an error is a [Failure]. *)
Definition runPkgsToLicenses (fuel : nat) (w : World) (pkgs : list string)
  (overrides : list projectAndLicenses)
  : option (outcome (list projectAndLicenses * list projectAndLicenses)) :=
  match listLicenses fuel w "" pkgs with
  | Some (Listed licenses) => Some (pkgsToLicenses licenses overrides)
  | Some (MissingError err) => Some (Failure err)
  | Some (OtherError msg) => Some (Failure msg)
  | None => None
  end.

(** ** What the properties below speak of *)

(** The detected license infos of a license: those with a path. *)
Definition allNil (infos : list LicenseInfo) : bool :=
  forallb (fun li => match li_Template li with
                     | None => true
                     | Some _ => false
                     end) infos.

Definition allSome (infos : list LicenseInfo) : bool :=
  forallb (fun li => match li_Template li with
                     | None => false
                     | Some _ => true
                     end) infos.

(** A license without error some of whose license infos have a template
    and some have none. *)
Definition mixedTemplates (l : License) : bool :=
  String.eqb (Err l) ""
  && negb (allNil (LicenseInfos l)) && negb (allSome (LicenseInfos l)).

(** A byte of a word of a word set: a digit, a small letter, [_] or
    ['].  *)
Definition is_token_byte (c : ascii) : bool :=
  is_digit c || is_lower c || Ascii.eqb c "_" || Ascii.eqb c "'".

(** The text of the lines [body], each with its line feed. *)
Definition linesText (body : list string) : string :=
  foldr (fun token text => token +:+ LF +:+ text) "" body.

(** A line that opens or closes the front matter of a template. *)
Definition isDelimiter (token : string) : Prop := TrimSpace token = "---".

(** A line of the front matter that gives a value to the key [key]. *)
Definition fieldLine (key token : string) : option string :=
  TrimSpace <$> strip_prefix key (TrimSpace token).

(** [s] occurs in [t]. *)
Definition occursIn (s t : string) : Prop :=
  exists a b, t = a +:+ s +:+ b.

(** The names the override document [overrides] lists for [project], in
    their order. *)
Definition overrideNames (overrides : list projectAndLicenses)
  (project : string) : list string :=
  overrides ≫= fun pl =>
    if String.eqb (Project pl) project then Name <$> Licenses pl else [].

(** The license info [listLicenses] is to give for [path]: the match
    result of the file at this path, read without the cache. *)
Definition readInfo (readFile : FileReader) (templates : list Template)
  (root path : string) : LicenseInfo :=
  if String.eqb path "" then noLicenseInfo
  else match readFile (filepath_Join [root; "src"; path]) with
       | FileData data => licenseInfoOf path (matchTemplates data templates)
       | FileError _ => noLicenseInfo
       end.

(** The license [listLicenses] is to give for a package; none for a
    package of the standard library. *)
Definition licenseOfPkg (fuel : nat) (fs : FileSystem) (readFile : FileReader)
  (templates : list Template) (stdSet : gset string) (p : Pkg)
  : option License :=
  match pkg_Error p with
  | Some err => Some (mkLicense (pi_Name (pkg_info p)) [noLicenseInfo] err)
  | None =>
      if bool_decide (pi_ImportPath (pkg_info p) ∈ stdSet) then None
      else match findLicenses fuel fs (pkg_info p) with
           | Some (paths, _) =>
               Some (mkLicense (pi_ImportPath (pkg_info p))
                       (readInfo readFile templates (pi_Root (pkg_info p))
                          <$> paths) "")
           | None => None
           end
  end.

(** What the cache of [listLicenses] holds: match results of files that
    have been read. *)
Definition cacheOf (readFile : FileReader) (templates : list Template)
  (matched : gmap string MatchResult) : Prop :=
  forall fpath m, matched !! fpath = Some m ->
    exists data, readFile fpath = FileData data
                 /\ m = matchTemplates data templates.

(** A corpus of templates with which a license file has a template or
    no license file has one: the empty corpus, or one that has a word. *)
Definition usableCorpus (templates : list Template) : Prop :=
  templates = [] \/ Exists (fun t => Words t <> ∅) templates.

(** ** An example world

    One license template; the package [colors/cmd/paint] of
    [exampleTree], which depends on the broken package [colors/red] and
    on two packages of the standard library. *)

Definition exampleAsset : string :=
  "---" +:+ LF +:+ "title: MIT License" +:+ LF +:+ "nickname: MIT" +:+ LF
  +:+ "---" +:+ LF +:+ "Permission is granted" +:+ LF.

Definition exampleGo : GoTool := fun _ args =>
  if bool_decide (args = ["list"; "colors/cmd/paint"])
  then mkCmdResult ("colors/cmd/paint" +:+ LF) false
  else if bool_decide (args = ["list"; "std"; "cmd"])
  then mkCmdResult ("fmt" +:+ LF +:+ "os" +:+ LF) false
  else if bool_decide (args = ["list"; "-f"; depsTemplate; "colors/cmd/paint"])
  then mkCmdResult "os|colors/red|fmt| os|" false
  else if bool_decide (take 3 args = ["list"; "-e"; "-json"])
  then mkCmdResult "{}" false
  else mkCmdResult "cannot find package" true.

Definition exampleDecode : Decoder := fun _ =>
  [Some (mkPkg examplePackage None);
   Some (mkPkg (mkPkgInfo "" "" "" "colors/red") (Some "cannot find package"));
   Some (mkPkg (mkPkgInfo "fmt" "/usr/go/src/fmt" "/usr/go" "fmt") None);
   Some (mkPkg (mkPkgInfo "os" "/usr/go/src/os" "/usr/go" "os") None)].

Definition exampleReader : FileReader := fun fpath =>
  if String.eqb fpath "/go/src/colors/COPYING"
  then FileData "Permission is granted"
  else if String.eqb fpath "/go/src/colors/License.md"
  then FileData "All rights reserved"
  else FileError "no such file".

Definition exampleWorld : World :=
  mkWorld [exampleAsset] [] exampleGo exampleDecode exampleTree exampleReader.

(** * Properties *)

(** ** Strings *)

#[local] Arguments String.append !_ _ / : simpl nomatch.

Lemma append_nil_r (s : string) : s +:+ "" = s.
Proof. induction s as [|c s IH]; simpl; [done | by rewrite IH]. Qed.

Lemma append_assoc (a b c : string) : (a +:+ b) +:+ c = a +:+ (b +:+ c).
Proof. induction a as [|x a IH]; simpl; [done | by rewrite IH]. Qed.

Lemma length_append (a b : string) :
  String.length (a +:+ b) = (String.length a + String.length b)%nat.
Proof. induction a as [|x a IH]; simpl; [done | by rewrite IH]. Qed.

Lemma strip_prefix_Some (p s r : string) :
  strip_prefix p s = Some r <-> s = p +:+ r.
Proof.
  revert s. induction p as [|a p IH]; intros s; simpl.
  - split; [by intros [= ->] | by intros ->].
  - destruct s as [|b s]; [split; discriminate |].
    destruct (Ascii.eqb_spec a b) as [->|Hne].
    + rewrite IH. split; [by intros -> | by intros [= ->]].
    + split; [discriminate | intros [= -> _]; congruence].
Qed.

Lemma strip_prefix_append (p r : string) : strip_prefix p (p +:+ r) = Some r.
Proof. by apply strip_prefix_Some. Qed.

Lemma string_drop_append (a b : string) :
  string_drop (String.length a) (a +:+ b) = b.
Proof. induction a as [|x a IH]; simpl; [by destruct b | done]. Qed.

Lemma Index_Some (s sub : string) (i : nat) :
  Index s sub = Some i ->
  exists a b, s = a +:+ sub +:+ b /\ String.length a = i /\
    forall a' b', s = a' +:+ sub +:+ b' -> (i <= String.length a')%nat.
Proof.
  revert i. induction s as [|c s IH]; intros i; simpl.
  - destruct (strip_prefix sub "") as [r|] eqn:E; [|discriminate].
    intros [= <-]. apply strip_prefix_Some in E.
    exists "", r. split; [done|]. split; [done|]. intros; lia.
  - destruct (strip_prefix sub (String c s)) as [r|] eqn:E.
    + intros [= <-]. apply strip_prefix_Some in E.
      exists "", r. split; [done|]. split; [done|]. intros; lia.
    + destruct (Index s sub) as [j|] eqn:Ej; [|discriminate].
      intros [= <-]. destruct (IH j eq_refl) as (a & b & -> & <- & Hmin).
      exists (String c a), b. split; [done|]. split; [done|].
      intros [|c' a'] b' Heq; simpl in Heq.
      * rewrite (proj2 (strip_prefix_Some _ _ _) Heq) in E. discriminate.
      * injection Heq as -> Heq. simpl. apply Hmin in Heq. lia.
Qed.

Lemma Index_None (s sub : string) :
  Index s sub = None -> forall a b, s <> a +:+ sub +:+ b.
Proof.
  induction s as [|c s IH]; simpl.
  - destruct (strip_prefix sub "") eqn:E; [discriminate|].
    intros _ [|] b Heq; simpl in Heq; [|discriminate].
    rewrite (proj2 (strip_prefix_Some _ _ _) Heq) in E. discriminate.
  - destruct (strip_prefix sub (String c s)) eqn:E; [discriminate|].
    destruct (Index s sub) eqn:Ej; [discriminate|].
    intros _ [|c' a] b Heq; simpl in Heq.
    + rewrite (proj2 (strip_prefix_Some _ _ _) Heq) in E. discriminate.
    + injection Heq as -> Heq. by apply (IH eq_refl a b).
Qed.

Lemma Index_first (a sub b : string) :
  (forall a' b', a +:+ sub +:+ b = a' +:+ sub +:+ b' ->
                 (String.length a <= String.length a')%nat) ->
  Index (a +:+ sub +:+ b) sub = Some (String.length a).
Proof.
  intros Hmin. destruct (Index (a +:+ sub +:+ b) sub) as [i|] eqn:E.
  - destruct (Index_Some _ _ _ E) as (a0 & b0 & Heq & <- & Hmin0).
    f_equal. apply Nat.le_antisymm; [by apply (Hmin0 a b) | by apply (Hmin a0 b0)].
  - by destruct (Index_None _ _ E a b).
Qed.

(** The first occurrence of [/vendor/] and all before it is removed. *)
Lemma removeVendor_first (a b : string) :
  (forall a' b', a +:+ vendor +:+ b = a' +:+ vendor +:+ b' ->
                 (String.length a <= String.length a')%nat) ->
  removeVendor (a +:+ vendor +:+ b) = b.
Proof.
  intros Hmin. unfold removeVendor. rewrite (Index_first _ _ _ Hmin).
  rewrite <- length_append, <- append_assoc. apply string_drop_append.
Qed.

Lemma removeVendor_none (s : string) :
  (forall a b, s <> a +:+ vendor +:+ b) -> removeVendor s = s.
Proof.
  intros Hno. unfold removeVendor.
  destruct (Index s vendor) as [i|] eqn:E; [|done].
  destruct (Index_Some _ _ _ E) as (a & b & Heq & _). by destruct (Hno a b).
Qed.

(** ** [licensesToProjectAndLicenses] *)

Lemma projectStep_stuck_Panic (ls : list License) :
  foldl projectStep Panic ls = Panic.
Proof. by induction ls. Qed.

Lemma projectStep_stuck_Failure (msg : string) (ls : list License) :
  foldl projectStep (Failure msg) ls = Failure msg.
Proof. by induction ls. Qed.

Lemma licensesToProjectAndLicenses_snoc (ls : list License) (l : License) :
  licensesToProjectAndLicenses (ls ++ [l])
  = projectStep (licensesToProjectAndLicenses ls) l.
Proof. unfold licensesToProjectAndLicenses. by rewrite foldl_app. Qed.

Lemma countNil_from (n : nat) (infos : list LicenseInfo) :
  foldl (fun nt li => match li_Template li with
                      | None => S nt
                      | Some _ => nt
                      end) n infos
  = (n + countNil infos)%nat.
Proof.
  unfold countNil. revert n. induction infos as [|li infos IH]; intros n; simpl.
  - lia.
  - rewrite IH, (IH (match li_Template li with None => 1%nat | Some _ => 0%nat end)).
    destruct (li_Template li); lia.
Qed.

Lemma countNil_cons (li : LicenseInfo) (infos : list LicenseInfo) :
  countNil (li :: infos)
  = ((match li_Template li with None => 1 | Some _ => 0 end) + countNil infos)%nat.
Proof.
  unfold countNil at 1. simpl. rewrite countNil_from.
  by destruct (li_Template li).
Qed.

Lemma countNil_le (infos : list LicenseInfo) :
  (countNil infos <= length infos)%nat.
Proof.
  induction infos as [|li infos IH]; [done|].
  rewrite countNil_cons. simpl. destruct (li_Template li); lia.
Qed.

Lemma countNil_all (infos : list LicenseInfo) :
  countNil infos = length infos <->
  Forall (fun li => li_Template li = None) infos.
Proof.
  induction infos as [|li infos IH]; [by split|].
  rewrite countNil_cons, Forall_cons. simpl.
  pose proof (countNil_le infos).
  destruct (li_Template li); split.
  - lia.
  - by intros [? _].
  - intros H'. split; [done|]. apply IH. lia.
  - intros [_ H']. apply IH in H'. lia.
Qed.

Lemma namedLicenses_cons (li : LicenseInfo) (infos : list LicenseInfo) :
  namedLicenses (li :: infos)
  = match li_Template li with
    | Some t =>
        if String.eqb (Title t) "" then namedLicenses infos
        else mkTruncLicense (Title t) (Score li) :: namedLicenses infos
    | None => namedLicenses infos
    end.
Proof.
  unfold namedLicenses. simpl. destruct (li_Template li) as [t|]; [|done].
  by destruct (String.eqb (Title t) "").
Qed.

Lemma addTruncLicense_matched (infos : list LicenseInfo) (acc : list truncLicense) :
  Forall (fun li => li_Template li <> None) infos ->
  foldl addTruncLicense (Return acc) infos = Return (acc ++ namedLicenses infos).
Proof.
  revert acc. induction infos as [|li infos IH]; intros acc Hall.
  - simpl. by rewrite app_nil_r.
  - apply Forall_cons in Hall as [Hli Hall].
    rewrite namedLicenses_cons. simpl.
    destruct (li_Template li) as [t|]; [|done].
    destruct (String.eqb (Title t) ""); rewrite (IH _ Hall); [done|].
    by rewrite <- app_assoc.
Qed.

(** C10: a matched license whose template has no title is left out of the
    license list of its project; a package without error whose license
    infos all have a nil template is reported as [No license detected];
    a package whose templates all have an empty title is reported as a
    detected project with an empty license list, and the error list
    is left as it was. *)
Theorem C10_untitled_templates
  (ls : list License) (c e : list projectAndLicenses) (l : License) :
  licensesToProjectAndLicenses ls = Return (c, e) ->
  Err l = "" ->
  (Forall (fun li => li_Template li = None) (LicenseInfos l) ->
   licensesToProjectAndLicenses (ls ++ [l])
   = Return (c, e ++ [mkProjectAndLicenses (removeVendor (Package l)) []
                        "No license detected"]))
  /\ (LicenseInfos l <> [] ->
      Forall (fun li => li_Template li <> None) (LicenseInfos l) ->
      licensesToProjectAndLicenses (ls ++ [l])
      = Return (c ++ [mkProjectAndLicenses (removeVendor (Package l))
                        (namedLicenses (LicenseInfos l)) ""], e)
      /\ (forall tl, tl ∈ namedLicenses (LicenseInfos l) <->
            exists li t, li ∈ LicenseInfos l /\ li_Template li = Some t /\
                         Title t <> "" /\
                         tl = mkTruncLicense (Title t) (Score li)))
  /\ (LicenseInfos l <> [] ->
      Forall (fun li => exists t, li_Template li = Some t /\ Title t = "")
             (LicenseInfos l) ->
      licensesToProjectAndLicenses (ls ++ [l])
      = Return (c ++ [mkProjectAndLicenses (removeVendor (Package l)) [] ""], e)).
Proof.
  intros Hls Herr.
  assert (Hstep : licensesToProjectAndLicenses (ls ++ [l])
                  = projectStep (Return (c, e)) l).
  { by rewrite licensesToProjectAndLicenses_snoc, Hls. }
  assert (Hmatched : LicenseInfos l <> [] ->
            Forall (fun li => li_Template li <> None) (LicenseInfos l) ->
            projectStep (Return (c, e)) l
            = Return (c ++ [mkProjectAndLicenses (removeVendor (Package l))
                              (namedLicenses (LicenseInfos l)) ""], e)).
  { intros Hne Hall. unfold projectStep. rewrite Herr. simpl.
    destruct (Nat.eqb_spec (length (LicenseInfos l)) (countNil (LicenseInfos l)))
      as [Heq|_].
    - symmetry in Heq. apply countNil_all in Heq.
      destruct (LicenseInfos l) as [|li infos]; [done|].
      apply Forall_cons in Heq as [Hnil _], Hall as [Hsome _]. done.
    - by rewrite (addTruncLicense_matched _ [] Hall). }
  rewrite Hstep. split; [|split].
  - intros Hall. unfold projectStep. rewrite Herr. simpl.
    apply countNil_all in Hall. rewrite Hall, Nat.eqb_refl. done.
  - intros Hne Hall. split; [by apply Hmatched|].
    intros tl. unfold namedLicenses. rewrite list_elem_of_omap. split.
    + intros (li & Hin & Hli). exists li.
      destruct (li_Template li) as [t|]; [|done]. exists t.
      destruct (String.eqb_spec (Title t) ""); [done|].
      injection Hli as <-. done.
    + intros (li & t & Hin & Ht & Htitle & ->). exists li. split; [done|].
      rewrite Ht. by destruct (String.eqb_spec (Title t) "").
  - intros Hne Hall.
    assert (namedLicenses (LicenseInfos l) = []) as Hnone.
    { clear -Hall. induction Hall as [|li infos (t & Ht & Htitle) _ IH]; [done|].
      by rewrite namedLicenses_cons, Ht, Htitle, IH. }
    rewrite <- Hnone. apply Hmatched; [done|].
    eapply Forall_impl; [exact Hall|]. intros li (t & -> & _). done.
Qed.

Lemma C10_untitled_templates_witness :
  let t := mkTemplate "" "x" ∅ in
  let l := mkLicense "a/vendor/b" [mkLicenseInfo "b/LICENSE" (Fin 1) (Some t) [] []] "" in
  licensesToProjectAndLicenses ([] ++ [l])
  = Return ([] ++ [mkProjectAndLicenses "b" [] ""], []).
Proof.
  intros t l.
  refine (proj2 (proj2 (C10_untitled_templates [] [] [] l eq_refl eq_refl)) _ _).
  - discriminate.
  - repeat constructor. exists t. split; reflexivity.
Defined.

Lemma projectStep_cases (c e : list projectAndLicenses) (l : License) :
  (exists pl, Project pl = removeVendor (Package l) /\
     if reportsError l
     then projectStep (Return (c, e)) l = Return (c, e ++ [pl])
     else projectStep (Return (c, e)) l = Return (c ++ [pl], e))
  \/ projectStep (Return (c, e)) l = Panic
  \/ exists msg, projectStep (Return (c, e)) l = Failure msg.
Proof.
  unfold projectStep, reportsError.
  destruct (negb (String.eqb (Err l) "")); simpl.
  { left. by eexists (mkProjectAndLicenses _ _ _). }
  destruct (length (LicenseInfos l) =? countNil (LicenseInfos l))%nat.
  { left. by eexists (mkProjectAndLicenses _ _ _). }
  destruct (foldl addTruncLicense (Return []) (LicenseInfos l)) as [tls|msg|].
  - left. by eexists (mkProjectAndLicenses _ _ _).
  - right. right. by exists msg.
  - right. by left.
Qed.

Lemma projectStep_returns
  (ls : list License) (c0 e0 c e : list projectAndLicenses) :
  foldl projectStep (Return (c0, e0)) ls = Return (c, e) ->
  Project <$> c
  = (Project <$> c0)
    ++ ((fun l => removeVendor (Package l))
          <$> List.filter (fun l => negb (reportsError l)) ls)
  /\ Project <$> e
     = (Project <$> e0)
       ++ ((fun l => removeVendor (Package l))
             <$> List.filter reportsError ls).
Proof.
  revert c0 e0. induction ls as [|l ls IH]; intros c0 e0.
  - simpl. intros [= <- <-]. by rewrite !app_nil_r.
  - change (foldl projectStep (Return (c0, e0)) (l :: ls))
      with (foldl projectStep (projectStep (Return (c0, e0)) l) ls).
    destruct (projectStep_cases c0 e0 l) as [(pl & Hpl & Hstep)|[->|[msg ->]]].
    + destruct (reportsError l) eqn:Er; rewrite Hstep;
        intros H; apply IH in H as [-> ->]; simpl; rewrite Er; simpl;
        rewrite !fmap_app; simpl; rewrite Hpl, <- !app_assoc; done.
    + by rewrite projectStep_stuck_Panic.
    + by rewrite projectStep_stuck_Failure.
Qed.

(** C9: the project names of the two lists [licensesToProjectAndLicenses]
    returns are the import paths of the grouped packages, in their order,
    without the first [/vendor/] and all that is before it; an import path
    without [/vendor/] is the project name as it is. *)
Theorem C9_project_names
  (ls : list License) (c e : list projectAndLicenses) :
  licensesToProjectAndLicenses ls = Return (c, e) ->
  Project <$> c
  = (fun l => removeVendor (Package l))
      <$> List.filter (fun l => negb (reportsError l)) ls
  /\ Project <$> e
     = (fun l => removeVendor (Package l))
         <$> List.filter reportsError ls
  /\ (forall a b : string,
        (forall a' b', a +:+ "/vendor/" +:+ b = a' +:+ "/vendor/" +:+ b' ->
                       (String.length a <= String.length a')%nat) ->
        removeVendor (a +:+ "/vendor/" +:+ b) = b)
  /\ (forall s : string,
        (forall a b, s <> a +:+ "/vendor/" +:+ b) -> removeVendor s = s).
Proof.
  intros H. apply projectStep_returns in H as [Hc He].
  split; [exact Hc|]. split; [exact He|].
  split; [apply removeVendor_first | apply removeVendor_none].
Qed.

Lemma C9_project_names_witness :
  Project <$> [mkProjectAndLicenses "b/c/vendor/d/e" [] "No license detected"]
  = (fun l => removeVendor (Package l))
      <$> List.filter reportsError
            [mkLicense "a/vendor/b/c/vendor/d/e" [] ""].
Proof.
  exact (proj1 (proj2 (C9_project_names
                  [mkLicense "a/vendor/b/c/vendor/d/e" [] ""] []
                  [mkProjectAndLicenses "b/c/vendor/d/e" [] "No license detected"]
                  eq_refl))).
Defined.

(** ** Override merging and the confidence that is printed *)

(** C1: with the overrides [p1 -> A] and [p2 -> B] and the detected
    projects [p1] and [p2], the slice [tls] is not emptied between the two
    projects: [p2] gets the names [A] and [B].  And the project [q], which
    is both detected and reported as an error, is deleted from the
    override map when its detected entry is replaced, so that its error
    is kept. *)
Theorem C1_override_names_accumulate :
  mergeOverrides
    [mkProjectAndLicenses "p1" [mkTruncLicense "A" (Fin 0)] "";
     mkProjectAndLicenses "p2" [mkTruncLicense "B" (Fin 0)] ""]
    [mkProjectAndLicenses "p1" [mkTruncLicense "X" (Fin (9 # 10))] "";
     mkProjectAndLicenses "p2" [mkTruncLicense "Y" (Fin (4 # 5))] ""]
    []
  = ([mkProjectAndLicenses "p1" [mkTruncLicense "A" (Fin 1)] "";
      mkProjectAndLicenses "p2"
        [mkTruncLicense "A" (Fin 1); mkTruncLicense "B" (Fin 1)] ""],
     [])
  /\ mergeOverrides
       [mkProjectAndLicenses "q" [mkTruncLicense "A" (Fin 0)] ""]
       [mkProjectAndLicenses "q" [mkTruncLicense "X" (Fin (9 # 10))] ""]
       [mkProjectAndLicenses "q" [] "No license detected"]
     = ([mkProjectAndLicenses "q" [mkTruncLicense "A" (Fin 1)] ""],
        [mkProjectAndLicenses "q" [] "No license detected"]).
Proof. split; vm_compute; reflexivity. Qed.

(** C2: a file with the words [a b], matched against the template
    [a b c d], has the score 2/3; the confidence [pkgsToLicenses] returns
    for it is 2/3 itself, not the 0.667 that [truncateFloat] makes of it:
    [truncateFloat] is never called. *)
Theorem C2_confidence_is_raw_score :
  let m := matchTemplates "a b" [templateOf "T" "" "a b c d"] in
  mr_Score m = Fin (2 # 3)
  /\ truncateFloat (mr_Score m) = Fin (667 # 1000)
  /\ pkgsToLicenses
       [mkLicense "p" [licenseInfoOf "p/LICENSE" m] ""] []
     = Return ([mkProjectAndLicenses "p" [mkTruncLicense "T" (Fin (2 # 3))] ""],
               []).
Proof. vm_compute. repeat split. Qed.

(** ** float64 *)

Lemma Qred_inject_Z (n : Z) : Qred (inject_Z n) = inject_Z n.
Proof.
  unfold Qred, inject_Z. simpl.
  pose proof (Z.ggcd_gcd n 1) as Hg. pose proof (Z.ggcd_correct_divisors n 1) as Hd.
  destruct (Z.ggcd n 1) as [g [a b]]. simpl in *.
  rewrite Z.gcd_1_r in Hg. subst g. destruct Hd as [Ha Hb].
  assert (a = n) as -> by lia. assert (b = 1%Z) as -> by lia. done.
Qed.

Lemma float64_of_int_eq (n : Z) : float64_of_int n = Fin (inject_Z n).
Proof. unfold float64_of_int. by rewrite Qred_inject_Z. Qed.

Lemma dice_Fin (common n m : nat) :
  (0 < n + m)%nat ->
  dice common n m
  = Fin (Qred (inject_Z (2 * Z.of_nat common) / inject_Z (Z.of_nat (n + m)))).
Proof.
  intros Hpos. unfold dice. rewrite !float64_of_int_eq. simpl.
  assert (Hsum : Qred (inject_Z (Z.of_nat n) + inject_Z (Z.of_nat m))
                 = inject_Z (Z.of_nat (n + m))).
  { etransitivity; [|apply Qred_inject_Z]. apply Qred_complete.
    rewrite Nat2Z.inj_add, inject_Z_plus. reflexivity. }
  assert (Hnum : Qred (inject_Z 2 * inject_Z (Z.of_nat common))
                 = inject_Z (2 * Z.of_nat common)).
  { etransitivity; [|apply Qred_inject_Z]. apply Qred_complete.
    rewrite inject_Z_mult. reflexivity. }
  rewrite Hsum, Hnum.
  destruct (Qeq_bool (inject_Z (Z.of_nat (n + m))) 0) eqn:E; [|done].
  apply Qeq_bool_iff in E. unfold Qeq, inject_Z in E. simpl in E. lia.
Qed.

Lemma dice_NaN : dice 0 0 0 = NaN.
Proof. reflexivity. Qed.

Lemma dice_same (n : nat) : (0 < n)%nat -> dice n n n = Fin 1.
Proof.
  intros Hpos. rewrite dice_Fin by lia.
  change 1%Q with (Qred 1). f_equal. apply Qred_complete.
  unfold Qeq, Qdiv, Qmult, Qinv, inject_Z. simpl.
  destruct (Z.of_nat (n + n)) as [|p|p] eqn:E; simpl; lia.
Qed.

Lemma fgt_Fin (a b : Q) : fgt (Fin a) (Fin b) = true <-> (b < a)%Q.
Proof.
  simpl. rewrite negb_true_iff. split.
  - intros H. apply Qnot_le_lt. intros Hle.
    apply Qle_bool_iff in Hle. congruence.
  - intros H. destruct (Qle_bool a b) eqn:E; [|done].
    apply Qle_bool_iff in E. by apply Qlt_not_le in H.
Qed.

Lemma fgt_Fin_false (a b : Q) : fgt (Fin a) (Fin b) = false <-> (a <= b)%Q.
Proof.
  simpl. rewrite negb_false_iff. apply Qle_bool_iff.
Qed.

(** ** The loops of [matchTemplates] *)

Lemma sampleLoop_fold (t : Template) (l : list (string * nat))
  (extra : list Word) (common : nat) :
  foldl (fun '(extra, common) '(w, pos) =>
           match Words t !! w with
           | Some _ => (extra, S common)
           | None => (extra ++ [mkWord w pos], common)
           end) (extra, common) l
  = (extra ++ (wordOf <$> filter (fun kv => Words t !! kv.1 = None) l),
     (common + length (filter (fun kv => is_Some (Words t !! kv.1)) l))%nat).
Proof.
  revert extra common. induction l as [|[w pos] l IH]; intros extra common.
  - simpl. by rewrite app_nil_r, Nat.add_0_r.
  - simpl. rewrite !filter_cons. simpl.
    destruct (Words t !! w) as [p|] eqn:E; rewrite IH.
    + rewrite decide_False by done.
      rewrite decide_True by (by eexists). simpl. f_equal. lia.
    + rewrite decide_True by done.
      rewrite decide_False by (by intros [? ?]). simpl.
      by rewrite <- app_assoc.
Qed.

Lemma sampleLoop_eq (words : gmap string nat) (t : Template) :
  sampleLoop words t
  = (wordOf <$> filter (fun kv => Words t !! kv.1 = None) (map_to_list words),
     length (filter (fun kv => is_Some (Words t !! kv.1)) (map_to_list words))).
Proof. unfold sampleLoop. by rewrite sampleLoop_fold. Qed.

Lemma templateLoop_fold (words : gmap string nat) (l : list (string * nat))
  (missing : list Word) :
  foldl (fun missing '(w, pos) =>
           match words !! w with
           | Some _ => missing
           | None => missing ++ [mkWord w pos]
           end) missing l
  = missing ++ (wordOf <$> filter (fun kv => words !! kv.1 = None) l).
Proof.
  revert missing. induction l as [|[w pos] l IH]; intros missing.
  - simpl. by rewrite app_nil_r.
  - simpl. rewrite !filter_cons. simpl.
    destruct (words !! w) as [p|] eqn:E; rewrite IH.
    + by rewrite decide_False.
    + rewrite decide_True by done. simpl. by rewrite <- app_assoc.
Qed.

Lemma templateLoop_eq (words : gmap string nat) (t : Template) :
  templateLoop words t
  = wordOf <$> filter (fun kv => words !! kv.1 = None) (map_to_list (Words t)).
Proof. unfold templateLoop. by rewrite templateLoop_fold. Qed.

(** The words of [a] that [b] has, counted on the list of [a], are the
    common keys of the two maps. *)
Lemma common_size (a b : gmap string nat) :
  length (filter (fun kv => is_Some (b !! kv.1)) (map_to_list a))
  = size (dom a ∩ dom b).
Proof.
  rewrite <- (length_fmap fst).
  unfold size, set_size. simpl. apply Permutation_length.
  apply NoDup_Permutation.
  - apply (NoDup_fmap_2_strong fst).
    + intros [w1 p1] [w2 p2] [_ H1]%list_elem_of_filter [_ H2]%list_elem_of_filter Heq.
      simpl in Heq. subst w2.
      apply elem_of_map_to_list in H1, H2. congruence.
    + apply NoDup_filter, NoDup_map_to_list.
  - apply NoDup_elements.
  - intros w. rewrite elem_of_elements, elem_of_intersection, !elem_of_dom.
    rewrite list_elem_of_fmap. split.
    + intros ([w' p] & -> & [Hb Ha]%list_elem_of_filter). simpl in *.
      apply elem_of_map_to_list in Ha. split; [by eexists | done].
    + intros [[p Ha] Hb]. exists (w, p). split; [done|].
      apply list_elem_of_filter. split; [done|]. by apply elem_of_map_to_list.
Qed.

Lemma common_eq (words : gmap string nat) (t : Template) :
  snd (sampleLoop words t) = size (dom words ∩ dom (Words t)).
Proof. rewrite sampleLoop_eq. simpl. apply common_size. Qed.

Lemma common_le_sample (words : gmap string nat) (t : Template) :
  (snd (sampleLoop words t) <= size words)%nat.
Proof.
  rewrite common_eq, <- (size_dom (D := gset string) words).
  apply subseteq_size, intersection_subseteq_l.
Qed.

Lemma common_le_template (words : gmap string nat) (t : Template) :
  (snd (sampleLoop words t) <= size (Words t))%nat.
Proof.
  rewrite common_eq, <- (size_dom (D := gset string) (Words t)).
  apply subseteq_size, intersection_subseteq_r.
Qed.

(** The score of a template, when one of the two word sets has a word. *)
Lemma templateScore_Fin (words : gmap string nat) (t : Template) :
  (0 < size words + size (Words t))%nat ->
  exists q, templateScore words t = Fin q /\ (0 <= q)%Q /\ (q <= 1)%Q.
Proof.
  intros Hpos. unfold templateScore. rewrite dice_Fin by done.
  eexists. split; [done|].
  pose proof (common_le_sample words t). pose proof (common_le_template words t).
  rewrite Qred_correct.
  set (c := snd (sampleLoop words t)) in *.
  unfold Qle, Qdiv, Qmult, Qinv, inject_Z. simpl.
  destruct (Z.of_nat (size words + size (Words t))) as [|p|p] eqn:E; simpl; lia.
Qed.

Lemma templateScore_NaN (t : Template) :
  Words t = ∅ -> templateScore ∅ t = NaN.
Proof.
  intros Ht. unfold templateScore. rewrite sampleLoop_eq, Ht. simpl.
  rewrite map_to_list_empty. reflexivity.
Qed.

(** ** The best template *)

Lemma matchStep_best (words : gmap string nat) (templates : list Template) :
  templates <> [] ->
  Forall (fun t => (0 < size words + size (Words t))%nat) templates ->
  exists i t,
    templates !! i = Some t
    /\ foldl (matchStep words) bestInit templates = bestOf words t
    /\ (forall t', t' ∈ templates ->
          fgt (templateScore words t') (templateScore words t) = false)
    /\ (forall j t', (j < i)%nat -> templates !! j = Some t' ->
          fgt (templateScore words t) (templateScore words t') = true).
Proof.
  induction templates as [|x l IH] using rev_ind; [done|].
  intros _ Hall. apply Forall_app in Hall as [Hl Hx].
  apply Forall_inv in Hx.
  destruct (templateScore_Fin words x Hx) as (qx & Hqx & Hx0 & Hx1).
  rewrite foldl_app. simpl.
  destruct l as [|y l'].
  - exists 0%nat, x. simpl. split; [done|]. split; [|split].
    + unfold matchStep. simpl. rewrite Hqx.
      assert (fgt (Fin qx) (Fin (-1)) = true) as -> by (apply fgt_Fin; lra).
      unfold bestOf. by rewrite Hqx.
    + intros t' ->%list_elem_of_singleton. rewrite Hqx.
      apply fgt_Fin_false. lra.
    + intros j t' Hj. lia.
  - destruct (IH ltac:(done) Hl) as (i & t & Hi & -> & Hmax & Hfirst).
    assert (Ht : t ∈ y :: l') by (by eapply list_elem_of_lookup_2).
    pose proof (proj1 (Forall_forall _ _) Hl t Ht) as Htpos.
    destruct (templateScore_Fin words t Htpos) as (qt & Hqt & _ & _).
    unfold matchStep. simpl bestScore.
    destruct (fgt (templateScore words x) (templateScore words t)) eqn:Hgt.
    + exists (length (y :: l')), x. split; [|split; [|split]].
      * by rewrite lookup_app_r, Nat.sub_diag.
      * done.
      * intros t' [Ht'| ->%list_elem_of_singleton]%elem_of_app.
        -- pose proof (proj1 (Forall_forall _ _) Hl t' Ht') as Hpos'.
           destruct (templateScore_Fin words t' Hpos') as (q' & Hq' & _ & _).
           specialize (Hmax t' Ht'). rewrite Hq', Hqt in Hmax.
           rewrite Hqx, Hqt in Hgt. rewrite Hq', Hqx.
           apply fgt_Fin in Hgt. apply fgt_Fin_false in Hmax.
           apply fgt_Fin_false. lra.
        -- rewrite Hqx. apply fgt_Fin_false. lra.
      * intros j t' Hj Hlook. rewrite lookup_app_l in Hlook by done.
        assert (Ht' : t' ∈ y :: l') by (by eapply list_elem_of_lookup_2).
        pose proof (proj1 (Forall_forall _ _) Hl t' Ht') as Hpos'.
        destruct (templateScore_Fin words t' Hpos') as (q' & Hq' & _ & _).
        specialize (Hmax t' Ht'). rewrite Hq', Hqt in Hmax.
        rewrite Hqx, Hqt in Hgt. rewrite Hq', Hqx.
        apply fgt_Fin in Hgt. apply fgt_Fin_false in Hmax.
        apply fgt_Fin. lra.
    + exists i, t. split; [|split; [|split]].
      * by apply lookup_app_l_Some.
      * done.
      * intros t' [Ht'| ->%list_elem_of_singleton]%elem_of_app; [by apply Hmax | done].
      * intros j t' Hj Hlook. apply (Hfirst j t' Hj).
        apply lookup_lt_Some in Hi.
        rewrite lookup_app_l in Hlook by lia. done.
Qed.

Lemma positive_sizes (words : gmap string nat) (templates : list Template) :
  words <> ∅ \/ Forall (fun t => Words t <> ∅) templates ->
  Forall (fun t => (0 < size words + size (Words t))%nat) templates.
Proof.
  intros [Hw|Ht].
  - apply Forall_forall. intros t _.
    apply map_size_non_empty_iff in Hw. lia.
  - eapply Forall_impl; [exact Ht|]. intros t Hne. simpl in Hne.
    apply map_size_non_empty_iff in Hne. lia.
Qed.

(** C3, amended: when the sample has a word or every template has one, the
    score of each template is [2*common/(n+m)] for the number [common] of
    words the two word sets share, the returned template has a score no
    other template exceeds, and every template before it in the corpus has
    a smaller score. *)
Theorem C3_best_template (license : string) (templates : list Template) :
  templates <> [] ->
  makeWordSet license <> ∅ \/ Forall (fun t => Words t <> ∅) templates ->
  (forall t, t ∈ templates ->
     templateScore (makeWordSet license) t
     = Fin (Qred (inject_Z (2 * Z.of_nat (size (dom (makeWordSet license)
                                                  ∩ dom (Words t))))
                  / inject_Z (Z.of_nat (size (makeWordSet license)
                                        + size (Words t))))))
  /\ exists i t,
       templates !! i = Some t
       /\ mr_Template (matchTemplates license templates) = Some t
       /\ mr_Score (matchTemplates license templates)
          = templateScore (makeWordSet license) t
       /\ (forall t', t' ∈ templates ->
             fgt (templateScore (makeWordSet license) t')
                 (templateScore (makeWordSet license) t) = false)
       /\ (forall j t', (j < i)%nat -> templates !! j = Some t' ->
             fgt (templateScore (makeWordSet license) t)
                 (templateScore (makeWordSet license) t') = true).
Proof.
  intros Hne Hpos. apply positive_sizes in Hpos. split.
  - intros t Ht. unfold templateScore. rewrite common_eq.
    apply dice_Fin. by apply (proj1 (Forall_forall _ _) Hpos).
  - destruct (matchStep_best _ _ Hne Hpos) as (i & t & Hi & Hbest & Hmax & Hfirst).
    exists i, t. unfold matchTemplates, matchWords. rewrite Hbest. done.
Qed.

Lemma C3_best_template_witness :
  exists i t,
    [templateOf "A" "" "x y"; templateOf "B" "" "x"; templateOf "C" "" "x"] !! i
    = Some t
    /\ mr_Template (matchTemplates "x"
         [templateOf "A" "" "x y"; templateOf "B" "" "x"; templateOf "C" "" "x"])
       = Some t.
Proof.
  destruct (C3_best_template "x"
              [templateOf "A" "" "x y"; templateOf "B" "" "x"; templateOf "C" "" "x"])
    as [_ (i & t & Hi & Ht & _)].
  - discriminate.
  - left. vm_compute. discriminate.
  - exists i, t. split; assumption.
Defined.

(** C3 as stated fails: the corpus has a template, its word set and that
    of the sample are empty, the score is [0/0] and no template is
    returned. *)
Lemma C3_counterexample :
  [templateOf "E" "" ""] <> []
  /\ templateScore (makeWordSet "") (templateOf "E" "" "") = NaN
  /\ mr_Template (matchTemplates "" [templateOf "E" "" ""]) = None
  /\ mr_Score (matchTemplates "" [templateOf "E" "" ""]) = Fin (-1).
Proof. split; [discriminate|]. vm_compute. repeat split. Qed.

Lemma Qred_canonical (q r : Q) : q = Qred r -> Qred q = q.
Proof. intros ->. apply Qred_complete, Qred_correct. Qed.

(** C8, amended: a text with at least one word has the score 1 against the
    template made of its own body, and 1 is the score [matchTemplates]
    returns for a corpus that has this template. *)
Theorem C8_self_similarity
  (T title nickname : string) (templates : list Template) :
  makeWordSet T <> ∅ ->
  templateOf title nickname T ∈ templates ->
  templateScore (makeWordSet T) (templateOf title nickname T) = Fin 1
  /\ mr_Score (matchTemplates T templates) = Fin 1.
Proof.
  intros Hne Hin.
  assert (Hown : templateScore (makeWordSet T) (templateOf title nickname T) = Fin 1).
  { unfold templateScore. rewrite common_eq. simpl.
    replace (dom (makeWordSet T) ∩ dom (makeWordSet T)) with (dom (makeWordSet T))
      by (symmetry; apply (intersection_idemp_L (dom (makeWordSet T)))).
    rewrite size_dom. apply dice_same.
    apply map_size_non_empty_iff in Hne. lia. }
  split; [exact Hown|].
  assert (Hpos : Forall (fun t => (0 < size (makeWordSet T) + size (Words t))%nat)
                   templates) by (apply positive_sizes; by left).
  assert (Hnil : templates <> []) by (intros ->; by apply not_elem_of_nil in Hin).
  destruct (matchStep_best _ _ Hnil Hpos) as (i & t & Hi & Hbest & Hmax & _).
  unfold matchTemplates, matchWords. rewrite Hbest. simpl.
  specialize (Hmax _ Hin). rewrite Hown in Hmax.
  assert (Ht : t ∈ templates) by (by eapply list_elem_of_lookup_2).
  unfold templateScore in *.
  rewrite dice_Fin in * by (by apply (proj1 (Forall_forall _ _) Hpos)).
  destruct (templateScore_Fin (makeWordSet T) t
              (proj1 (Forall_forall _ _) Hpos t Ht)) as (q & Hq & _ & Hq1).
  unfold templateScore in Hq. rewrite dice_Fin in Hq
    by (by apply (proj1 (Forall_forall _ _) Hpos)).
  injection Hq as Hq. rewrite Hq in *.
  apply fgt_Fin_false in Hmax.
  rewrite <- (Qred_canonical q _ (eq_sym Hq)). change 1%Q with (Qred 1).
  f_equal. apply Qred_complete. lra.
Qed.

Lemma C8_self_similarity_witness :
  mr_Score (matchTemplates "Permission is granted"
              [templateOf "A" "" "x y";
               templateOf "MIT" "" "Permission is granted"]) = Fin 1.
Proof.
  refine (proj2 (C8_self_similarity "Permission is granted" "MIT" ""
                   [templateOf "A" "" "x y";
                    templateOf "MIT" "" "Permission is granted"] _ _)).
  - vm_compute. discriminate.
  - apply list_elem_of_further, list_elem_of_here.
Defined.

(** C8 as stated fails: a text that is only a copyright notice has no
    word left, its score against its own template is [0/0], and
    [matchTemplates] returns the score [-1] and no template. *)
Lemma C8_counterexample :
  templateScore (makeWordSet "Copyright 2013 Bob")
    (templateOf "T" "" "Copyright 2013 Bob") = NaN
  /\ mr_Score (matchTemplates "Copyright 2013 Bob"
                 [templateOf "T" "" "Copyright 2013 Bob"]) = Fin (-1)
  /\ mr_Template (matchTemplates "Copyright 2013 Bob"
                    [templateOf "T" "" "Copyright 2013 Bob"]) = None.
Proof. vm_compute. repeat split. Qed.

(** ** Word sets *)

Lemma firstAt_cons (s : string) (ms : list string) (w : string) (k : nat) :
  firstAt (s :: ms) w k <->
  (w = s /\ k = 0%nat) \/ (w <> s /\ exists k', k = S k' /\ firstAt ms w k').
Proof.
  unfold firstAt. split.
  - intros [Hk Hfirst]. destruct k as [|k'].
    + left. simpl in Hk. by injection Hk as ->.
    + right. split.
      * intros ->. by apply (Hfirst 0%nat); [lia|].
      * exists k'. split; [done|]. split; [done|].
        intros j Hj. apply (Hfirst (S j)). lia.
  - intros [[-> ->]|(Hne & k' & -> & Hk & Hfirst)].
    + split; [done|]. intros j Hj. lia.
    + split; [done|]. intros [|j] Hj; simpl.
      * congruence.
      * apply Hfirst. lia.
Qed.

Lemma firstAt_nil (w : string) (k : nat) : ~ firstAt [] w k.
Proof. intros [Hk _]. by rewrite lookup_nil in Hk. Qed.

Lemma addWords_lookup (i : nat) (ms : list string) (m : gmap string nat)
  (w : string) (p : nat) :
  addWords i ms m !! w = Some p <->
  m !! w = Some p
  \/ (m !! w = None /\ exists k, p = (i + k)%nat /\ firstAt ms w k).
Proof.
  revert i m. induction ms as [|s ms IH]; intros i m; simpl.
  - split; [by left|]. intros [H|(_ & k & _ & Hk)]; [done|].
    by apply firstAt_nil in Hk.
  - rewrite IH. setoid_rewrite firstAt_cons.
    destruct (m !! s) as [q|] eqn:Es.
    + split.
      * intros [H|(Hw & k & -> & Hk)]; [by left|]. right. split; [done|].
        exists (S k). split; [lia|]. right. split; [congruence|]. by exists k.
      * intros [H|(Hw & k & -> & [[-> _]|(Hne & k' & -> & Hk)])];
          [by left | congruence |].
        right. split; [done|]. exists k'. split; [lia | done].
    + destruct (decide (w = s)) as [->|Hne].
      * rewrite lookup_insert_eq, Es. split.
        -- intros [[= <-]|(? & _)]; [|done]. right. split; [done|].
           exists 0%nat. split; [lia|]. by left.
        -- intros [?|(_ & k & -> & [[_ ->]|(Hne & _)])]; [done | | done].
           left. f_equal. lia.
      * rewrite lookup_insert_ne by done. split.
        -- intros [H|(Hw & k & -> & Hk)]; [by left|]. right. split; [done|].
           exists (S k). split; [lia|]. right. split; [done|]. by exists k.
        -- intros [H|(Hw & k & -> & [[-> _]|(_ & k' & -> & Hk)])];
             [by left | done |].
           right. split; [done|]. exists k'. split; [lia | done].
Qed.

(** The position a word has in a word set is the index of its first
    occurrence among the tokens of the text. *)
Lemma makeWordSet_lookup (data w : string) (p : nat) :
  makeWordSet data !! w = Some p <->
  firstAt (reWords_FindAll (cleanLicenseData data)) w p.
Proof.
  unfold makeWordSet. rewrite addWords_lookup, lookup_empty. split.
  - intros [?|(_ & k & -> & Hk)]; [done | done].
  - intros Hp. right. split; [done|]. by exists p.
Qed.

Lemma makeWordSet_positions (data w1 w2 : string) (p : nat) :
  makeWordSet data !! w1 = Some p -> makeWordSet data !! w2 = Some p -> w1 = w2.
Proof.
  rewrite !makeWordSet_lookup. intros [H1 _] [H2 _]. congruence.
Qed.

(** ** Sorting by position *)

#[local] Instance word_le_total : Total word_le.
Proof. intros a b. unfold word_le. lia. Qed.

#[local] Instance word_le_trans : Transitive word_le.
Proof. intros a b c. unfold word_le. lia. Qed.

Lemma sorted_distinct_positions (l : list Word) :
  StronglySorted word_le l -> NoDup (Pos <$> l) ->
  StronglySorted lt (Pos <$> l).
Proof.
  induction 1 as [|x l Hl IH Hx]; intros Hnd; simpl; [constructor|].
  apply NoDup_cons in Hnd as [Hnot Hnd]. constructor; [by apply IH|].
  apply Forall_fmap, Forall_forall. intros y Hy. simpl.
  pose proof (proj1 (Forall_forall _ _) Hx y Hy) as Hle. unfold word_le in Hle.
  assert (Pos x <> Pos y).
  { intros Heq. apply Hnot. rewrite Heq. by apply list_elem_of_fmap_2. }
  lia.
Qed.

(** A list of words with distinct positions has one sorted arrangement:
    the order in which a map was iterated, and which sort was used, do not
    show in the result. *)
Lemma sortAndReturnWords_order_independent (l1 l2 : list Word) :
  l1 ≡ₚ l2 -> NoDup (Pos <$> l1) ->
  forall l2', l2' ≡ₚ l2 -> Sorted word_le l2' ->
  Text <$> l2' = sortAndReturnWords l1.
Proof.
  intros Hperm Hnd l2' Hperm' Hsorted. unfold sortAndReturnWords. f_equal.
  apply (Sorted_unique_strong word_le).
  - intros x y Hx Hy Hxy Hyx. unfold word_le in Hxy, Hyx.
    assert (Hpos : Pos x = Pos y) by lia.
    assert (Hx1 : x ∈ l1) by (rewrite Hperm, <- Hperm'; exact Hx).
    assert (Hy1 : y ∈ l1) by (rewrite <- (merge_sort_Permutation word_le); exact Hy).
    clear -Hnd Hpos Hx1 Hy1.
    induction l1 as [|z l1 IH]; [by apply not_elem_of_nil in Hx1|].
    simpl in Hnd. apply NoDup_cons in Hnd as [Hnot Hnd].
    apply elem_of_cons in Hx1, Hy1.
    destruct Hx1 as [->|Hx1], Hy1 as [->|Hy1]; [done | | | by apply IH].
    + destruct Hnot. rewrite Hpos. by apply list_elem_of_fmap_2.
    + destruct Hnot. rewrite <- Hpos. by apply list_elem_of_fmap_2.
  - done.
  - apply Sorted_merge_sort. apply _.
  - by rewrite merge_sort_Permutation, Hperm'.
Qed.

Lemma difference_positions (a b : gmap string nat) :
  (forall w1 w2 p, a !! w1 = Some p -> a !! w2 = Some p -> w1 = w2) ->
  NoDup (Pos <$> (wordOf <$> filter (fun kv => b !! kv.1 = None) (map_to_list a))).
Proof.
  intros Hinj. rewrite <- list_fmap_compose.
  apply NoDup_fmap_2_strong; [|apply NoDup_filter, NoDup_map_to_list].
  intros [w1 p1] [w2 p2] [_ H1]%list_elem_of_filter [_ H2]%list_elem_of_filter Heq.
  simpl in Heq. subst p2. apply elem_of_map_to_list in H1, H2.
  by rewrite (Hinj w1 w2 p1 H1 H2).
Qed.

Lemma sorted_difference (a b : gmap string nat) :
  (forall w1 w2 p, a !! w1 = Some p -> a !! w2 = Some p -> w1 = w2) ->
  orderedDifference a b
    (sortAndReturnWords
       (wordOf <$> filter (fun kv => b !! kv.1 = None) (map_to_list a))).
Proof.
  intros Hinj. unfold sortAndReturnWords.
  set (E := wordOf <$> filter (fun kv => b !! kv.1 = None) (map_to_list a)).
  assert (HE : forall x, x ∈ merge_sort word_le E <->
                 a !! Text x = Some (Pos x) /\ b !! Text x = None).
  { intros x. rewrite merge_sort_Permutation. unfold E.
    rewrite list_elem_of_fmap. split.
    - intros ([w p] & -> & [Hb Ha]%list_elem_of_filter).
      apply elem_of_map_to_list in Ha. done.
    - intros [Ha Hb]. exists (Text x, Pos x). split; [by destruct x|].
      apply list_elem_of_filter. split; [done|]. by apply elem_of_map_to_list. }
  split.
  - intros w. rewrite list_elem_of_fmap. split.
    + intros (x & -> & [Ha Hb]%HE). split; [by eexists | done].
    + intros [[p Ha] Hb]. exists (mkWord w p). split; [done|]. by apply HE.
  - exists (Pos <$> merge_sort word_le E). split.
    + apply Forall2_fmap, Forall_Forall2_diag, Forall_forall.
      intros x Hx. by apply HE in Hx as [Ha _].
    + apply sorted_distinct_positions.
      * apply StronglySorted_merge_sort; apply _.
      * rewrite merge_sort_Permutation. by apply difference_positions.
Qed.

Lemma matchStep_state (words : gmap string nat) (templates : list Template) :
  foldl (matchStep words) bestInit templates = bestInit
  \/ exists t, t ∈ templates
               /\ foldl (matchStep words) bestInit templates = bestOf words t.
Proof.
  induction templates as [|x l IH] using rev_ind; [by left|].
  rewrite foldl_app.
  change (foldl (matchStep words) (foldl (matchStep words) bestInit l) [x])
    with (matchStep words (foldl (matchStep words) bestInit l) x).
  set (b := foldl (matchStep words) bestInit l) in *.
  unfold matchStep.
  destruct (fgt (templateScore words x) (bestScore b)).
  - right. exists x. split; [|reflexivity]. apply elem_of_app. right.
    apply list_elem_of_here.
  - destruct IH as [->|(t & Ht & ->)]; [by left|].
    right. exists t. split; [|done]. apply elem_of_app. by left.
Qed.



(** ** The license file locator *)

Lemma viableNames_fold (path : string) (fis : list FileInfo) (acc : list string) :
  foldl (fun allViableNames fi =>
           if negb (fi_IsRegular fi) then allViableNames
           else if (scoreLicenseName (fi_Name fi) =? 1)%Z
                then allViableNames ++ [filepath_Join [path; fi_Name fi]]
                else allViableNames) acc fis
  = acc ++ ((fun name => filepath_Join [path; name]) <$> licenseFiles fis).
Proof.
  revert acc. induction fis as [|fi fis IH]; intros acc.
  - simpl. by rewrite app_nil_r.
  - simpl. rewrite IH. unfold licenseFiles. simpl.
    destruct (fi_IsRegular fi); simpl; [|done].
    destruct (scoreLicenseName (fi_Name fi) =? 1)%Z; simpl; [|done].
    by rewrite <- app_assoc.
Qed.

Lemma viableNames_eq (path : string) (fis : list FileInfo) :
  viableNames path fis
  = (fun name => filepath_Join [path; name]) <$> licenseFiles fis.
Proof. unfold viableNames. by rewrite viableNames_fold. Qed.

Lemma match_extension_end_spec (s : string) :
  match_extension_end s = true <->
  s = "" \/ exists e, s = "." +:+ e /\ e <> ""
                      /\ all_bytes (fun b => negb (is_dot b)) e = true.
Proof.
  destruct s as [|c r]; simpl.
  - split; [by left | done].
  - destruct r as [|c' r'].
    + split; [done|]. intros [?|(e & He & Hne & _)]; [done|].
      injection He as -> <-. done.
    + rewrite andb_true_iff. unfold is_dot at 1. rewrite Ascii.eqb_eq. split.
      * intros [-> Hall]. right. by exists (String c' r').
      * intros [?|(e & He & _ & Hall)]; [done|].
        injection He as -> <-. done.
Qed.

Lemma match_licence_spec (s r : string) :
  match_licence s = Some r <-> s = "license" +:+ r \/ s = "licence" +:+ r.
Proof.
  unfold match_licence.
  destruct (strip_prefix "license" s) as [r'|] eqn:E.
  - apply strip_prefix_Some in E. subst s. split.
    + intros [= ->]. by left.
    + intros [H|H]; [|done]. by injection H as ->.
  - rewrite strip_prefix_Some. split; [by right|].
    intros [->|H]; [|done]. by rewrite strip_prefix_append in E.
Qed.

Lemma scoreLicenseName_spec (name : string) :
  scoreLicenseName name = 1%Z <-> isLicenseName name.
Proof.
  unfold scoreLicenseName, isLicenseName.
  set (s := ToLower name). clearbody s. split.
  - destruct (match_group1 s) eqn:E1; simpl.
    + intros _. unfold match_group1 in E1. apply orb_true_iff in E1 as [E|E].
      * destruct (strip_prefix "un" s) as [r|] eqn:Eun; [|done].
        apply strip_prefix_Some in Eun. subst s.
        destruct (match_licence r) as [r'|] eqn:El; [|done].
        apply match_extension_end_spec in E.
        apply match_licence_spec in El as [->| ->].
        -- exists "unlicense", r'. split; [done|]. split; [|done].
           repeat first [apply list_elem_of_here | apply list_elem_of_further].
        -- exists "unlicence", r'. split; [done|]. split; [|done].
           repeat first [apply list_elem_of_here | apply list_elem_of_further].
      * destruct (match_licence s) as [r'|] eqn:El; [|done].
        apply match_extension_end_spec in E.
        apply match_licence_spec in El as [->| ->].
        -- exists "license", r'. split; [done|]. split; [|done].
           repeat first [apply list_elem_of_here | apply list_elem_of_further].
        -- exists "licence", r'. split; [done|]. split; [|done].
           repeat first [apply list_elem_of_here | apply list_elem_of_further].
    + destruct (match_group2 s) eqn:E2; [|done]. intros _.
      unfold match_group2 in E2.
      destruct (strip_prefix "copy" s) as [r|] eqn:Ec; [|done].
      apply strip_prefix_Some in Ec. subst s.
      destruct (strip_prefix "ing" r) as [r'|] eqn:Ei.
      * apply strip_prefix_Some in Ei. subst r.
        apply match_extension_end_spec in E2.
        exists "copying", r'. split; [done|]. split; [|done].
        repeat first [apply list_elem_of_here | apply list_elem_of_further].
      * destruct (strip_prefix "right" r) as [r'|] eqn:Er; [|done].
        apply strip_prefix_Some in Er. subst r.
        apply match_extension_end_spec in E2.
        exists "copyright", r'. split; [done|]. split; [|done].
        repeat first [apply list_elem_of_here | apply list_elem_of_further].
  - intros (base & ext & -> & Hbase & Hext).
    apply match_extension_end_spec in Hext.
    repeat (apply elem_of_cons in Hbase as [->|Hbase]);
      [..|by apply elem_of_nil in Hbase];
      unfold match_group1, match_group2, match_licence; simpl; rewrite Hext; done.
Qed.

(** The loop of [findLicenses] does what [located] says, for the
    directories it visits. *)
Lemma findLicensesFrom_located (fuel : nat) (fs : FileSystem)
  (root path : string) (r : list string * option string) :
  findLicensesFrom fuel fs root path = Some r ->
  located fs root (ancestors fuel path) r.
Proof.
  revert path. induction fuel as [|fuel IH]; intros path; simpl.
  - destruct (String.eqb path "."); [|done]. intros [= <-]. constructor.
  - destruct (String.eqb path "."); [intros [= <-]; constructor|].
    destruct (fs (dirOf root path)) as [fis|msg] eqn:Efs.
    + rewrite viableNames_eq.
      destruct (decide (licenseFiles fis = [])) as [Hnil|Hne].
      * rewrite Hnil. simpl. intros H.
        eapply located_above; [done | done | by apply IH].
      * destruct ((fun name => filepath_Join [path; name]) <$> licenseFiles fis)
          as [|n ns] eqn:Elf; [by apply fmap_nil_inv in Elf|].
        intros [= <-]. rewrite <- Elf. by apply located_here.
    + intros [= <-]. by apply located_unreadable.
Qed.

(** *** Lexical paths *)

Lemma total_length_cons (e : string) (l : list string) :
  total_length (e :: l) = (String.length e + total_length l)%nat.
Proof. reflexivity. Qed.

Lemma Split_nonempty (s : string) : Split s <> [].
Proof.
  induction s as [|c s IH]; simpl; [done|].
  destruct (Ascii.eqb c slash); [done|]. by destruct (Split s).
Qed.

Lemma Join_cons (p : string) (ps : list string) :
  ps <> [] -> Join (p :: ps) = p +:+ "/" +:+ Join ps.
Proof. by destruct ps. Qed.

Lemma Join_Split (s : string) : Join (Split s) = s.
Proof.
  induction s as [|c s IH]; simpl; [done|].
  pose proof (Split_nonempty s) as Hne.
  destruct (Ascii.eqb_spec c slash) as [->|_].
  - rewrite Join_cons by done. simpl. by rewrite IH.
  - destruct (Split s) as [|h t]; [done|].
    destruct t as [|h' t'].
    + simpl in *. by rewrite IH.
    + rewrite Join_cons by done. rewrite Join_cons in IH by done.
      rewrite <- IH. reflexivity.
Qed.

Lemma Join_length (l : list string) :
  l <> [] ->
  String.length (Join l) = (total_length l + length l - 1)%nat.
Proof.
  induction l as [|p ps IH]; [done|]. intros _.
  destruct ps as [|p' ps'].
  - rewrite total_length_cons. simpl. unfold total_length. simpl. lia.
  - rewrite Join_cons by done. rewrite !length_append, IH by done.
    rewrite !total_length_cons. simpl. lia.
Qed.

Lemma Split_no_slash (s : string) :
  Forall (fun e => all_bytes (fun c => negb (Ascii.eqb c slash)) e = true)
         (Split s).
Proof.
  induction s as [|c s IH]; simpl; [by repeat constructor|].
  destruct (Ascii.eqb c slash) eqn:E; [by constructor|].
  destruct (Split s) as [|h t]; [by repeat constructor; simpl; rewrite E|].
  apply Forall_cons in IH as [Hh Ht]. constructor; [|done].
  simpl. by rewrite E, Hh.
Qed.

Lemma cleanElems_sublist (rooted : bool) (out elems : list string) :
  cleanElems rooted out elems `sublist_of` rev out ++ List.filter nonempty elems.
Proof.
  revert out. induction elems as [|e es IH]; intros out; simpl.
  - by rewrite app_nil_r.
  - unfold nonempty at 1. destruct (String.eqb e "") eqn:E0; simpl; [apply IH|].
    destruct (String.eqb e ".") eqn:E1; simpl.
    { etrans; [apply IH|]. apply sublist_app; [done|]. by apply sublist_cons. }
    assert (Hpush : cleanElems rooted (e :: out) es
                    `sublist_of` rev out ++ e :: List.filter nonempty es).
    { etrans; [apply IH|]. simpl. by rewrite <- app_assoc. }
    destruct (String.eqb e "..") eqn:E2; [|exact Hpush].
    destruct out as [|top out'].
    + destruct rooted.
      * etrans; [apply IH|]. simpl. by apply sublist_cons.
      * exact Hpush.
    + destruct (String.eqb top ".."); [exact Hpush|].
      etrans; [apply IH|]. simpl. rewrite <- app_assoc.
      apply sublist_app; [done|]. simpl. by do 2 apply sublist_cons.
Qed.

Lemma sublist_total_length (k l : list string) :
  k `sublist_of` l ->
  (total_length k <= total_length l)%nat /\ (length k <= length l)%nat.
Proof.
  induction 1 as [|x k l _ [IH1 IH2]|x k l _ [IH1 IH2]];
    rewrite ?total_length_cons; simpl; lia.
Qed.

Lemma filter_nonempty_total (l : list string) :
  total_length (List.filter nonempty l) = total_length l.
Proof.
  induction l as [|e l IH]; [done|]. simpl. unfold nonempty at 1.
  destruct (String.eqb_spec e "") as [->|_];
    simpl; rewrite ?total_length_cons; simpl; lia.
Qed.

Lemma filter_nonempty_length (l : list string) :
  (length (List.filter nonempty (l ++ [""])) <= length l)%nat.
Proof.
  rewrite List.filter_app. simpl. rewrite app_nil_r.
  induction l as [|e l IH]; [done|]. simpl. destruct (nonempty e); simpl; lia.
Qed.

Lemma upToLastSlash_cases (path : string) :
  upToLastSlash path = ""
  \/ (exists l, l <> [] /\ Split (upToLastSlash path) = l ++ [""])
     /\ (String.length (upToLastSlash path) <= String.length path)%nat
     /\ is_rooted (upToLastSlash path) = is_rooted path.
Proof.
  induction path as [|c r IH]; simpl; [by left|].
  destruct (upToLastSlash r) as [|c' d] eqn:E.
  - destruct (Ascii.eqb_spec c slash) as [->|Hne]; [|by left].
    right. split; [by exists [""]|]. simpl. split; [lia | done].
  - right. destruct IH as [?|((l & Hl & HS) & Hlen & _)]; [done|].
    split; [|simpl in *; split; [lia | done]].
    change (Split (String c (String c' d)))
      with (if Ascii.eqb c slash then "" :: Split (String c' d)
            else match Split (String c' d) with
                 | h :: t => String c h :: t
                 | [] => [String c ""]
                 end).
    rewrite HS. destruct (Ascii.eqb c slash).
    + by exists ("" :: l).
    + destruct l as [|h t]; [done|]. by exists (String c h :: t).
Qed.

(** [Dir] of a path that is not rooted is ["."] or a shorter path that is
    not rooted: the loop of [findLicenses] ends. *)
Lemma Dir_shrinks (path : string) :
  is_rooted path = false ->
  path <> "" ->
  Dir path = "."
  \/ ((String.length (Dir path) < String.length path)%nat
      /\ is_rooted (Dir path) = false).
Proof.
  intros Hroot Hne. unfold Dir.
  destruct (upToLastSlash_cases path) as [->|((l & Hl & HS) & Hlen & Hr)];
    [by left|].
  set (x := upToLastSlash path) in *. unfold Clean. rewrite Hr, Hroot.
  set (kept := cleanElems false [] (Split x)).
  destruct (String.eqb_spec (Join kept) "") as [_|Hout]; [by left|]. right.
  pose proof (cleanElems_sublist false [] (Split x)) as Hsub.
  fold kept in Hsub. simpl in Hsub.
  assert (Hkept : kept <> []) by (intros Hk; by rewrite Hk in Hout).
  split.
  - rewrite Join_length by done.
    apply sublist_total_length in Hsub as [Ht Hn].
    rewrite filter_nonempty_total in Ht.
    pose proof (Join_length (Split x) (Split_nonempty x)) as HJ.
    rewrite Join_Split in HJ. rewrite HS in Hn, HJ, Ht.
    pose proof (filter_nonempty_length l). rewrite length_app in HJ. simpl in HJ.
    destruct kept; [done|]. simpl in *. lia.
  - destruct kept as [|e kept']; [done|].
    assert (He : e ∈ List.filter nonempty (Split x)).
    { apply (sublist_subseteq _ _ Hsub). apply list_elem_of_here. }
    apply list_elem_of_In, List.filter_In in He as [He Hnonempty].
    apply list_elem_of_In in He.
    pose proof (proj1 (Forall_forall _ _) (Split_no_slash x) e He) as Hslash.
    destruct e as [|c e']; [done|]. simpl in Hslash.
    apply andb_true_iff in Hslash as [Hc _].
    destruct kept'; simpl; by apply negb_true_iff in Hc.
Qed.

Lemma findLicensesFrom_returns (fuel : nat) (fs : FileSystem)
  (root path : string) :
  is_rooted path = false ->
  (String.length path < fuel)%nat ->
  exists r, findLicensesFrom fuel fs root path = Some r.
Proof.
  revert path. induction fuel as [|fuel IH]; intros path Hroot Hlen; [lia|].
  simpl. destruct (String.eqb_spec path ".") as [_|Hdot]; [by eexists|].
  destruct (fs (dirOf root path)) as [fis|msg]; [|by eexists].
  destruct (viableNames path fis); [|by eexists].
  destruct (String.eqb_spec path "") as [->|Hne].
  { destruct fuel; simpl; by eexists. }
  destruct (Dir_shrinks path Hroot Hne) as [->|[Hshort Hroot']].
  - destruct fuel; simpl; by eexists.
  - apply IH; [done | lia].
Qed.

(** *** The directories of an import path *)

Lemma upToLastSlash_no_slash (s : string) :
  all_bytes (fun c => negb (Ascii.eqb c slash)) s = true ->
  upToLastSlash s = "".
Proof.
  induction s as [|c s IH]; simpl; [done|].
  intros [Hc Hs]%andb_true_iff. rewrite (IH Hs).
  by apply negb_true_iff in Hc as ->.
Qed.

Lemma upToLastSlash_append (a b : string) :
  all_bytes (fun c => negb (Ascii.eqb c slash)) b = true ->
  upToLastSlash (a +:+ "/" +:+ b) = a +:+ "/".
Proof.
  intros Hb. induction a as [|c a IH]; simpl in *.
  - by rewrite (upToLastSlash_no_slash b Hb).
  - rewrite IH. by destruct a.
Qed.

Lemma Join_snoc (l : list string) (s : string) :
  l <> [] -> Join (l ++ [s]) = Join l +:+ "/" +:+ s.
Proof.
  induction l as [|p ps IH]; [done|]. intros _.
  destruct ps as [|p' ps']; [done|].
  change ((p :: p' :: ps') ++ [s]) with (p :: ((p' :: ps') ++ [s])).
  rewrite !Join_cons by done. rewrite IH by done.
  by rewrite !append_assoc.
Qed.

Lemma Split_no_slash_id (s : string) :
  all_bytes (fun c => negb (Ascii.eqb c slash)) s = true -> Split s = [s].
Proof.
  induction s as [|c s IH]; simpl; [done|].
  intros [Hc Hs]%andb_true_iff. apply negb_true_iff in Hc. by rewrite Hc, IH.
Qed.

Lemma Split_append (a b : string) :
  all_bytes (fun c => negb (Ascii.eqb c slash)) a = true ->
  Split (a +:+ "/" +:+ b) = a :: Split b.
Proof.
  induction a as [|c a IH]; simpl in *; [done|].
  intros [Hc Hs]%andb_true_iff. apply negb_true_iff in Hc.
  by rewrite Hc, IH.
Qed.

Lemma Split_snoc_slash (x : string) : Split (x +:+ "/") = Split x ++ [""].
Proof.
  induction x as [|c x IH]; simpl in *; [done|].
  rewrite IH. destruct (Ascii.eqb c slash); [done|].
  pose proof (Split_nonempty x). by destruct (Split x).
Qed.

Lemma Split_Join (l : list string) :
  l <> [] ->
  Forall (fun e => all_bytes (fun c => negb (Ascii.eqb c slash)) e = true) l ->
  Split (Join l) = l.
Proof.
  induction l as [|p ps IH]; [done|]. intros _ [Hp Hps]%Forall_cons.
  destruct ps as [|p' ps'].
  - by apply Split_no_slash_id.
  - rewrite Join_cons by done. rewrite Split_append by done.
    by rewrite IH.
Qed.

Lemma normalElem_no_slash (l : list string) :
  Forall normalElem l ->
  Forall (fun e => all_bytes (fun c => negb (Ascii.eqb c slash)) e = true) l.
Proof. intros H. eapply Forall_impl; [exact H|]. by intros e (_ & _ & _ & He). Qed.

Lemma cleanElems_normal (out l : list string) :
  Forall normalElem l ->
  cleanElems false out (l ++ [""]) = rev out ++ l.
Proof.
  revert out. induction l as [|e es IH]; intros out Hall; simpl.
  - by rewrite app_nil_r.
  - apply Forall_cons in Hall as [(H0 & H1 & H2 & _) Hall].
    apply String.eqb_neq in H0, H1, H2. rewrite H0, H1, H2. simpl.
    rewrite IH by done. simpl. by rewrite <- app_assoc.
Qed.

Lemma Join_normal_not_dot (l : list string) :
  l <> [] -> Forall normalElem l ->
  Join l <> "" /\ Join l <> "." /\ is_rooted (Join l) = false.
Proof.
  destruct l as [|e es]; [done|]. intros _ [(H0 & H1 & _ & Hs) _]%Forall_cons.
  destruct e as [|c e']; [done|]. simpl in Hs.
  apply andb_true_iff in Hs as [Hc _]. apply negb_true_iff in Hc.
  destruct es as [|e2 es].
  - simpl. done.
  - rewrite Join_cons by done. simpl. split; [done|]. split; [|done].
    by destruct e'.
Qed.

Lemma Dir_normal (l : list string) (s : string) :
  Forall normalElem (l ++ [s]) ->
  Dir (Join (l ++ [s])) = match l with [] => "." | _ => Join l end.
Proof.
  intros [Hl Hs]%Forall_app. apply Forall_inv in Hs.
  unfold Dir. destruct (decide (l = [])) as [->|Hne].
  - simpl. destruct Hs as (_ & _ & _ & Hs).
    by rewrite (upToLastSlash_no_slash s Hs).
  - rewrite Join_snoc by done.
    rewrite upToLastSlash_append by (by destruct Hs as (_ & _ & _ & Hs)).
    destruct (Join_normal_not_dot l Hne Hl) as (Hne' & _ & Hroot).
    unfold Clean.
    assert (Hr : is_rooted (Join l +:+ "/") = false).
    { destruct (Join l); [done|]. exact Hroot. }
    rewrite Hr.
    assert (HS : Split (Join l +:+ "/") = l ++ [""]).
    { rewrite Split_snoc_slash, Split_Join; [done | done |].
      by apply normalElem_no_slash. }
    rewrite HS, cleanElems_normal by done. simpl.
    apply String.eqb_neq in Hne'. rewrite Hne'. by destruct l.
Qed.

Lemma ancestorPaths_snoc (l : list string) (s : string) :
  ancestorPaths (l ++ [s]) = Join (l ++ [s]) :: ancestorPaths l.
Proof.
  unfold ancestorPaths. rewrite length_app. simpl.
  rewrite Nat.add_1_r, seq_S, reverse_snoc. simpl.
  rewrite firstn_all2 by (rewrite length_app; simpl; lia).
  f_equal. apply list_fmap_ext. intros i k Hk.
  apply list_elem_of_lookup_2, elem_of_reverse, elem_of_seq in Hk.
  by rewrite take_app_le by lia.
Qed.

Lemma ancestors_normal (fuel : nat) (l : list string) :
  Forall normalElem l ->
  (length l <= fuel)%nat ->
  ancestors fuel (match l with [] => "." | _ => Join l end) = ancestorPaths l.
Proof.
  revert fuel. induction l as [|s l IH] using rev_ind; intros fuel Hall Hlen.
  - by destruct fuel.
  - assert (Hne : l ++ [s] <> []) by (by destruct l).
    destruct (Join_normal_not_dot _ Hne Hall) as (_ & Hdot & _).
    rewrite length_app in Hlen. simpl in Hlen.
    destruct fuel as [|fuel]; [lia|].
    replace (match l ++ [s] with [] => "." | _ => Join (l ++ [s]) end)
      with (Join (l ++ [s])) by (by destruct l).
    simpl. apply String.eqb_neq in Hdot. rewrite Hdot.
    rewrite Dir_normal, ancestorPaths_snoc by done. f_equal.
    apply IH; [by apply Forall_app in Hall as [? _] | lia].
Qed.

Lemma normal_length (l : list string) :
  Forall normalElem l -> l <> [] ->
  (length l <= String.length (Join l))%nat.
Proof.
  intros Hall Hne. rewrite Join_length by done.
  assert (length l <= total_length l)%nat; [|lia].
  clear Hne. induction Hall as [|e l (H0 & _) _ IH]; [done|].
  rewrite total_length_cons. simpl. destruct e; [done|]. simpl. lia.
Qed.



Example findLicenses_exampleTree :
  findLicenses 20 exampleTree examplePackage
  = Some (["colors/COPYING"; "colors/License.md"], None).
Proof. vm_compute. reflexivity. Qed.

(** A rooted import path is outside of the theorem: [Dir "/"] is ["/"],
    and the loop never ends when no license file is found. *)
Example Dir_root : Dir "/" = "/".
Proof. reflexivity. Qed.

(** ** The prefix tree *)

Lemma getChild_setChild (k e : string) (c : Node) (ch : list (string * Node)) :
  getChild k (setChild e c ch)
  = if String.eqb e k then Some c else getChild k ch.
Proof.
  induction ch as [|[k0 c0] ch IH]; simpl.
  - done.
  - destruct (String.eqb_spec k0 e) as [->|Hne]; simpl.
    + by destruct (String.eqb e k).
    + rewrite IH. destruct (String.eqb_spec k0 k) as [->|_]; [|done].
      by destruct (String.eqb_spec e k) as [->|_].
Qed.

Lemma setChild_keys (e : string) (c : Node) (ch : list (string * Node)) :
  NoDup ch.*1 -> NoDup (setChild e c ch).*1
  /\ forall k, k ∈ (setChild e c ch).*1 <-> k = e \/ k ∈ ch.*1.
Proof.
  induction ch as [|[k0 c0] ch IH]; simpl.
  - intros _. split; [apply NoDup_singleton|].
    intros k. rewrite list_elem_of_singleton, elem_of_nil. tauto.
  - intros [Hnot Hnd]%NoDup_cons. destruct (IH Hnd) as [IH1 IH2].
    destruct (String.eqb_spec k0 e) as [->|Hne]; simpl.
    + split; [by apply NoDup_cons|]. intros k. rewrite elem_of_cons. tauto.
    + split.
      * apply NoDup_cons. split; [|done]. rewrite IH2. tauto.
      * intros k. rewrite !elem_of_cons, IH2. tauto.
Qed.

(** [addPath] leaves the name and the counter of the node it starts from
    as they are, and what it does to the children depends on the
    children only. *)
Lemma addPath_root (p : list string) (name : string)
  (ch : list (string * Node)) (shared : nat) :
  addPath p (mkNode name ch shared)
  = mkNode name (node_Children (addPath p (mkNode "" ch 0))) shared.
Proof. by destruct p. Qed.

Lemma foldl_addPath_root (pss : list (list string)) (name : string)
  (ch : list (string * Node)) (shared : nat) :
  foldl (fun n p => addPath p n) (mkNode name ch shared) pss
  = mkNode name
      (node_Children (foldl (fun n p => addPath p n) (mkNode "" ch 0) pss))
      shared.
Proof.
  revert ch. induction pss as [|p pss IH]; intros ch; simpl; [done|].
  rewrite (addPath_root p name ch shared), IH.
  by rewrite <- (addPath_root p "" ch 0).
Qed.

Lemma builtChildren_snoc (pss : list (list string)) (p : list string) :
  builtChildren (pss ++ [p])
  = node_Children (addPath p (mkNode "" (builtChildren pss) 0)).
Proof.
  unfold builtChildren. rewrite foldl_app. simpl.
  by rewrite (foldl_addPath_root pss "" [] 0).
Qed.

Lemma addPath_built (t : list string) (name : string)
  (ts : list (list string)) (shared : nat) :
  addPath t (mkNode name (builtChildren ts) shared)
  = mkNode name (builtChildren (ts ++ [t])) shared.
Proof. by rewrite addPath_root, builtChildren_snoc. Qed.

Lemma tailsOf_snoc (k : string) (pss : list (list string)) (p : list string) :
  tailsOf k (pss ++ [p])
  = tailsOf k pss ++ match p with
                     | e :: t => if String.eqb e k then [t] else []
                     | [] => []
                     end.
Proof.
  unfold tailsOf. rewrite omap_app. f_equal.
  destruct p as [|e t]; [done|]. simpl. by destruct (String.eqb e k).
Qed.

(** The child of the key [k] is the tree of the tails of the lists that
    start with [k], and its counter is their number. *)
Lemma builtChildren_lookup (pss : list (list string)) (k : string) :
  getChild k (builtChildren pss)
  = match tailsOf k pss with
    | [] => None
    | ts => Some (mkNode k (builtChildren ts) (length ts))
    end.
Proof.
  induction pss as [|p pss IH] using rev_ind; [done|].
  rewrite builtChildren_snoc, tailsOf_snoc.
  destruct p as [|e t].
  - simpl. by rewrite app_nil_r.
  - simpl. rewrite getChild_setChild.
    destruct (String.eqb_spec e k) as [->|Hne].
    + rewrite IH.
      assert (Hchild : match match tailsOf k pss with
                             | [] => None
                             | ts => Some (mkNode k (builtChildren ts) (length ts))
                             end with
                       | Some c => c
                       | None => mkNode k [] 0
                       end
                       = mkNode k (builtChildren (tailsOf k pss))
                           (length (tailsOf k pss))).
      { by destruct (tailsOf k pss). }
      rewrite Hchild. simpl. rewrite addPath_built.
      destruct (tailsOf k pss) as [|t0 ts0]; simpl; [done|].
      by rewrite length_app, Nat.add_1_r.
    + by rewrite app_nil_r.
Qed.

Lemma builtChildren_keys (pss : list (list string)) :
  NoDup (builtChildren pss).*1.
Proof.
  induction pss as [|p pss IH] using rev_ind; [constructor|].
  rewrite builtChildren_snoc. destruct p as [|e t]; [done|].
  simpl. by apply setChild_keys.
Qed.

Lemma getChild_None (k : string) (ch : list (string * Node)) :
  getChild k ch = None <-> k ∉ ch.*1.
Proof.
  induction ch as [|[k0 c0] ch IH]; simpl.
  - split; [intros _; apply not_elem_of_nil | done].
  - rewrite not_elem_of_cons.
    destruct (String.eqb_spec k0 k) as [->|Hne]; [split; [done | tauto]|].
    rewrite IH. split; [done | tauto].
Qed.

Lemma tailsOf_elem (k : string) (pss : list (list string)) (t : list string) :
  t ∈ tailsOf k pss <-> (k :: t) ∈ pss.
Proof.
  unfold tailsOf. rewrite list_elem_of_omap. split.
  - intros (p & Hp & Hf). destruct p as [|e t']; [done|].
    destruct (String.eqb_spec e k) as [->|_]; [|done]. by injection Hf as ->.
  - intros Hp. exists (k :: t). split; [done|]. by rewrite String.eqb_refl.
Qed.

Lemma tailsOf_cons (k : string) (p : list string) (pss : list (list string)) :
  tailsOf k (p :: pss)
  = match p with
    | e :: t => if String.eqb e k then t :: tailsOf k pss else tailsOf k pss
    | [] => tailsOf k pss
    end.
Proof.
  unfold tailsOf. simpl. destruct p as [|e t]; [done|].
  by destruct (String.eqb e k).
Qed.

Lemma pathsSize_cons (p : list string) (pss : list (list string)) :
  pathsSize (p :: pss) = (length p + pathsSize pss)%nat.
Proof. reflexivity. Qed.

Lemma tailsOf_size (k : string) (pss : list (list string)) :
  (pathsSize (tailsOf k pss) + length (tailsOf k pss) <= pathsSize pss)%nat
  /\ (length (tailsOf k pss) <= length pss)%nat.
Proof.
  induction pss as [|p pss [IH1 IH2]]; [done|].
  rewrite tailsOf_cons, pathsSize_cons. destruct p as [|e t]; simpl; [lia|].
  destruct (String.eqb e k); simpl; rewrite ?pathsSize_cons; lia.
Qed.

Lemma tailsOf_all (k : string) (pss : list (list string)) :
  length (tailsOf k pss) = length pss ->
  pss = (fun t => k :: t) <$> tailsOf k pss.
Proof.
  induction pss as [|p pss IH]; [done|].
  rewrite tailsOf_cons. pose proof (tailsOf_size k pss) as [_ Hle].
  destruct p as [|e t]; simpl; [lia|].
  destruct (String.eqb_spec e k) as [->|_]; simpl; [|lia].
  intros [= Hlen]. f_equal. by apply IH.
Qed.

Lemma tailsOf_short (k : string) (pss : list (list string)) :
  length (tailsOf k pss) <> length pss ->
  [] ∈ pss \/ exists k' t, k' <> k /\ (k' :: t) ∈ pss.
Proof.
  induction pss as [|p pss IH]; [done|].
  rewrite tailsOf_cons. destruct p as [|e t]; [left; apply list_elem_of_here|].
  destruct (String.eqb_spec e k) as [->|Hne]; simpl.
  - intros Hlen. destruct IH as [H|(k' & t' & Hk & H)]; [lia | |].
    + left. by apply list_elem_of_further.
    + right. exists k', t'. split; [done|]. by apply list_elem_of_further.
  - intros _. right. exists e, t. split; [done|]. apply list_elem_of_here.
Qed.

Lemma isLCP_nil_of_empty (pss : list (list string)) :
  [] ∈ pss -> isLongestCommonPrefix [] pss.
Proof.
  intros Hin. split; [intros; apply prefix_nil|].
  intros q' Hq'. by apply Hq'.
Qed.

Lemma isLCP_nil_of_two (pss : list (list string))
  (k1 k2 : string) (t1 t2 : list string) :
  (k1 :: t1) ∈ pss -> (k2 :: t2) ∈ pss -> k1 <> k2 ->
  isLongestCommonPrefix [] pss.
Proof.
  intros H1 H2 Hne. split; [intros; apply prefix_nil|].
  intros q' Hq'. destruct q' as [|e q']; [done|].
  apply Hq' in H1, H2. apply prefix_cons_inv_1 in H1, H2. congruence.
Qed.

Lemma isLCP_cons (k : string) (q : list string) (ts : list (list string)) :
  ts <> [] ->
  isLongestCommonPrefix q ts ->
  isLongestCommonPrefix (k :: q) ((fun t => k :: t) <$> ts).
Proof.
  intros Hne [Hpre Hmax]. split.
  - intros p (t & -> & Ht)%list_elem_of_fmap. by apply prefix_cons, Hpre.
  - intros q' Hq'. destruct q' as [|e q']; [apply prefix_nil|].
    destruct ts as [|t0 ts']; [done|].
    assert (e = k) as ->.
    { eapply prefix_cons_inv_1, (Hq' (k :: t0)). apply list_elem_of_here. }
    apply prefix_cons, Hmax. intros t Ht.
    eapply prefix_cons_inv_2, (Hq' (k :: t)). by apply list_elem_of_fmap_2.
Qed.

Lemma walkPrefix_unfold (total : nat) (name : string)
  (ch : list (string * Node)) (shared : nat) :
  walkPrefix total (mkNode name ch shared)
  = match ch with
    | [(_, c)] =>
        (if (node_Shared c =? total)%nat then [node_Name c] else [])
        ++ walkPrefix total c
    | _ => []
    end.
Proof. reflexivity. Qed.

(** The sole child of a node. *)
Lemma builtChildren_single (pss : list (list string)) (k : string) (c : Node) :
  builtChildren pss = [(k, c)] ->
  tailsOf k pss <> []
  /\ c = mkNode k (builtChildren (tailsOf k pss)) (length (tailsOf k pss))
  /\ forall k', k' <> k -> tailsOf k' pss = [].
Proof.
  intros HB. pose proof (builtChildren_lookup pss k) as Hk.
  rewrite HB in Hk. simpl in Hk. rewrite String.eqb_refl in Hk.
  destruct (tailsOf k pss) as [|t ts] eqn:E; [done|].
  injection Hk as ->. split; [done|]. split; [done|].
  intros k' Hne. pose proof (builtChildren_lookup pss k') as Hk'.
  rewrite HB in Hk'. simpl in Hk'.
  destruct (String.eqb_spec k k') as [->|_]; [done|].
  by destruct (tailsOf k' pss).
Qed.

(** Below a node that not every list goes through, nothing is collected. *)
Lemma walkPrefix_below (total : nat) (pss : list (list string))
  (name : string) (shared : nat) :
  (length pss < total)%nat ->
  walkPrefix total (mkNode name (builtChildren pss) shared) = [].
Proof.
  remember (pathsSize pss) as n eqn:Hn. revert pss name shared Hn.
  induction n as [n IH] using lt_wf_ind. intros pss name shared Hn Hlen.
  rewrite walkPrefix_unfold.
  destruct (builtChildren pss) as [|[k c] [|kc2 ch]] eqn:HB; [done| |done].
  destruct (builtChildren_single pss k c HB) as (Hne & -> & _).
  pose proof (tailsOf_size k pss) as [Hs Hl].
  assert (Hdec : (pathsSize (tailsOf k pss) < n)%nat).
  { subst n. destruct (tailsOf k pss); [done|]. cbn [length] in Hs. lia. }
  set (ts := tailsOf k pss) in *. cbn [node_Shared node_Name].
  destruct (Nat.eqb_spec (length ts) total) as [Heq|_]; [lia|].
  cbn [app]. apply (IH (pathsSize ts)); [done|done|lia].
Qed.

(** The walk collects the longest common prefix of the lists under the
    root. *)
Lemma walkPrefix_common (pss : list (list string))
  (name : string) (shared : nat) :
  pss <> [] ->
  isLongestCommonPrefix
    (walkPrefix (length pss) (mkNode name (builtChildren pss) shared)) pss.
Proof.
  remember (pathsSize pss) as n eqn:Hn. revert pss name shared Hn.
  induction n as [n IH] using lt_wf_ind. intros pss name shared Hn Hne.
  rewrite walkPrefix_unfold.
  destruct (builtChildren pss) as [|[k c] [|[k2 c2] ch]] eqn:HB.
  - (* no child: every list is empty *)
    apply isLCP_nil_of_empty.
    destruct pss as [|[|e t] pss']; [done | apply list_elem_of_here |].
    pose proof (builtChildren_lookup ((e :: t) :: pss') e) as He.
    rewrite HB, tailsOf_cons, String.eqb_refl in He. done.
  - (* one child *)
    destruct (builtChildren_single pss k c HB) as (Hts & -> & Hother).
    pose proof (tailsOf_size k pss) as [Hs Hl].
    assert (Hdec : (pathsSize (tailsOf k pss) < n)%nat).
    { subst n. destruct (tailsOf k pss); [done|]. cbn [length] in Hs. lia. }
    cbn [node_Shared node_Name].
    destruct (Nat.eqb_spec (length (tailsOf k pss)) (length pss)) as [Heq|Hlt].
    + (* every list starts with [k] *)
      pose proof (tailsOf_all k pss Heq) as Hall.
      rewrite <- Heq. set (ts := tailsOf k pss) in *. clearbody ts. subst pss.
      cbn [app]. apply isLCP_cons; [done|].
      by apply (IH (pathsSize ts)).
    + (* a list ends here *)
      cbn [app]. rewrite walkPrefix_below by lia.
      apply isLCP_nil_of_empty.
      destruct (tailsOf_short k pss Hlt) as [H|(k' & t & Hk' & H)]; [done|].
      apply tailsOf_elem in H. rewrite (Hother k' Hk') in H.
      by apply elem_of_nil in H.
  - (* two children: two lists differ in their first element *)
    pose proof (builtChildren_keys pss) as Hnd. rewrite HB in Hnd.
    simpl in Hnd. apply NoDup_cons in Hnd as [Hk _].
    apply not_elem_of_cons in Hk as [Hk _].
    pose proof (builtChildren_lookup pss k) as H1.
    pose proof (builtChildren_lookup pss k2) as H2.
    rewrite HB in H1, H2. simpl in H1, H2.
    rewrite String.eqb_refl in H1.
    apply String.eqb_neq in Hk as Hk'. rewrite Hk', String.eqb_refl in H2.
    destruct (tailsOf k pss) as [|t1 ts1] eqn:E1; [done|].
    destruct (tailsOf k2 pss) as [|t2 ts2] eqn:E2; [done|].
    apply (isLCP_nil_of_two pss k k2 t1 t2); [| |done];
      apply tailsOf_elem; [rewrite E1 | rewrite E2]; apply list_elem_of_here.
Qed.

(** [longestCommonPrefix] joins the longest common prefix of the import
    paths of the licenses, taken element by element. *)
Lemma longestCommonPrefix_spec (licenses : list License) :
  licenses <> [] ->
  exists q, longestCommonPrefix licenses = Join q
            /\ isLongestCommonPrefix q (importPaths licenses).
Proof.
  intros Hne. unfold longestCommonPrefix, buildTree.
  exists (walkPrefix (length licenses)
            (foldl (fun root l => addPath (Split (Package l)) root)
               (mkNode "" [] (length licenses)) licenses)).
  split; [done|].
  assert (Hfold : forall n0,
            foldl (fun root l => addPath (Split (Package l)) root) n0 licenses
            = foldl (fun n p => addPath p n) n0 (importPaths licenses)).
  { unfold importPaths. clear. induction licenses as [|l ls IH]; intros n0; [done|].
    simpl. by rewrite IH. }
  rewrite Hfold, foldl_addPath_root.
  fold (builtChildren (importPaths licenses)).
  replace (length licenses) with (length (importPaths licenses))
    by (unfold importPaths; apply length_fmap).
  apply walkPrefix_common. unfold importPaths. by destruct licenses.
Qed.

(** ** Grouping *)

Lemma claimants_cons (l : License) (ls : list License) (k : string) :
  claimants (l :: ls) k
  = ((fun _ => l) <$> List.filter (fun li => String.eqb (Path li) k)
                        (LicenseInfos l))
    ++ claimants ls k.
Proof. reflexivity. Qed.

Lemma claimants_elem (licenses : list License) (k : string) (l : License) :
  l ∈ claimants licenses k <->
  l ∈ licenses /\ exists li, li ∈ LicenseInfos l /\ Path li = k.
Proof.
  unfold claimants. rewrite list_elem_of_bind. split.
  - intros (l' & (li & -> & Hli)%list_elem_of_fmap & Hl').
    apply list_elem_of_In, List.filter_In in Hli as [Hin Hk].
    apply String.eqb_eq in Hk. split; [done|]. exists li.
    split; [by apply list_elem_of_In | done].
  - intros (Hl & li & Hli & Hk). exists l. split; [|done].
    apply list_elem_of_fmap. exists li. split; [done|].
    apply list_elem_of_In, List.filter_In. split; [by apply list_elem_of_In|].
    by apply String.eqb_eq.
Qed.

Lemma claimPath_fold (l : License) (infos : list LicenseInfo)
  (m : gmap string (list License)) (k : string) :
  k <> "" ->
  default [] (foldl (claimPath l) m infos !! k)
  = default [] (m !! k)
    ++ ((fun _ => l) <$> List.filter (fun li => String.eqb (Path li) k) infos).
Proof.
  intros Hk. revert m. induction infos as [|li infos IH]; intros m; simpl.
  - by rewrite app_nil_r.
  - rewrite IH. unfold claimPath.
    destruct (String.eqb_spec (Path li) "") as [Hempty|Hpath].
    + destruct (String.eqb_spec (Path li) k) as [<-|_]; [done|]. done.
    + destruct (String.eqb_spec (Path li) k) as [->|Hne].
      * rewrite lookup_insert_eq. simpl. by rewrite <- app_assoc.
      * by rewrite lookup_insert_ne.
Qed.

Lemma claimPath_fold_values (l : License) (infos : list LicenseInfo)
  (m : gmap string (list License)) :
  m !! "" = None ->
  (forall k v, m !! k = Some v -> v <> []) ->
  foldl (claimPath l) m infos !! "" = None
  /\ forall k v, foldl (claimPath l) m infos !! k = Some v -> v <> [].
Proof.
  revert m. induction infos as [|li infos IH]; intros m H0 Hv; simpl; [done|].
  apply IH; unfold claimPath.
  - destruct (String.eqb_spec (Path li) "") as [_|Hne]; [done|].
    by rewrite lookup_insert_ne.
  - intros k v. destruct (String.eqb_spec (Path li) ""); [apply Hv|].
    destruct (decide (Path li = k)) as [->|Hne].
    + rewrite lookup_insert_eq. intros [= <-]. by destruct (default [] (m !! k)).
    + rewrite lookup_insert_ne by done. apply Hv.
Qed.

Lemma collectPaths_fold (licenses : list License)
  (m : gmap string (list License)) :
  (forall k, k <> "" ->
     default [] (foldl (fun paths l => foldl (claimPath l) paths (LicenseInfos l))
                   m licenses !! k)
     = default [] (m !! k) ++ claimants licenses k)
  /\ (m !! "" = None ->
      (forall k v, m !! k = Some v -> v <> []) ->
      foldl (fun paths l => foldl (claimPath l) paths (LicenseInfos l))
        m licenses !! "" = None
      /\ forall k v,
           foldl (fun paths l => foldl (claimPath l) paths (LicenseInfos l))
             m licenses !! k = Some v -> v <> []).
Proof.
  revert m. induction licenses as [|l ls IH]; intros m; cbn [foldl].
  - split; [intros; by rewrite app_nil_r | done].
  - destruct (IH (foldl (claimPath l) m (LicenseInfos l))) as [IH1 IH2]. split.
    + intros k Hk. rewrite IH1, claimPath_fold, claimants_cons by done.
      by rewrite app_assoc.
    + intros H0 Hv. apply IH2; by apply claimPath_fold_values.
Qed.

(** The groups: the licenses that claim a path, for every non-empty path
    that is claimed. *)
Lemma collectPaths_lookup (licenses : list License) (k : string)
  (v : list License) :
  collectPaths licenses !! k = Some v <->
  k <> "" /\ v <> [] /\ claimants licenses k = v.
Proof.
  unfold collectPaths.
  destruct (collectPaths_fold licenses ∅) as [H1 H2].
  destruct H2 as [H0 Hv]; [done | by intros ? ?; rewrite lookup_empty|].
  split.
  - intros Hlook. destruct (decide (k = "")) as [->|Hk]; [congruence|].
    split; [done|]. split; [by eapply Hv|].
    specialize (H1 k Hk). rewrite Hlook, lookup_empty in H1. simpl in H1. done.
  - intros (Hk & Hne & Hcl). specialize (H1 k Hk).
    rewrite lookup_empty in H1. simpl in H1. rewrite Hcl in H1.
    destruct (foldl _ _ _ !! k) as [v'|] eqn:E; simpl in H1; [by subst|].
    by subst.
Qed.

Lemma mergeGroup_Failure (msg : string) (l : list (string * list License)) :
  foldl mergeGroup (Failure msg) l = Failure msg.
Proof. by induction l. Qed.

Lemma mergeGroup_Panic (l : list (string * list License)) :
  foldl mergeGroup Panic l = Panic.
Proof. by induction l. Qed.

Lemma mergeGroup_fails (l : list (string * list License))
  (acc : gmap string (list License)) (kv : string * list License) :
  kv ∈ l -> (2 <= length kv.2)%nat -> longestCommonPrefix kv.2 = "" ->
  exists msg, foldl mergeGroup (Return acc) l = Failure msg.
Proof.
  intros Hin Hlen Hlcp. revert acc.
  induction l as [|kv' l IH]; intros acc; [by apply elem_of_nil in Hin|].
  simpl. apply elem_of_cons in Hin as [<-|Hin].
  - destruct kv as [k [|l0 [|l1 rest]]]; simpl in *; [lia | lia |].
    rewrite Hlcp. simpl. eexists. apply mergeGroup_Failure.
  - destruct kv' as [k' [|l0 [|l1 rest]]]; simpl; [by apply IH | by apply IH |].
    destruct (String.eqb _ ""); [|by apply IH].
    eexists. apply mergeGroup_Failure.
Qed.

Lemma mergeGroup_returns (paths : gmap string (list License))
  (l : list (string * list License))
  (acc acc' : gmap string (list License)) :
  (forall kv, kv ∈ l -> paths !! kv.1 = Some kv.2) ->
  (forall k v', acc !! k = Some v' -> groupValue paths k v') ->
  foldl mergeGroup (Return acc) l = Return acc' ->
  forall k v', acc' !! k = Some v' -> groupValue paths k v'.
Proof.
  revert acc. induction l as [|[k0 v0] l IH]; intros acc Hl Hacc; simpl.
  - by intros [= <-].
  - assert (Hk0 : paths !! k0 = Some v0) by (apply (Hl (k0, v0)), list_elem_of_here).
    assert (Hl' : forall kv, kv ∈ l -> paths !! kv.1 = Some kv.2)
      by (intros kv Hkv; by apply Hl, list_elem_of_further).
    destruct v0 as [|l0 [|l1 rest]]; [by apply IH | by apply IH |].
    destruct (String.eqb_spec (longestCommonPrefix (l0 :: l1 :: rest)) "")
      as [_|Hlcp]; [by rewrite mergeGroup_Failure|].
    apply IH; [done|]. intros k v'.
    destruct (decide (k0 = k)) as [->|Hne].
    + rewrite lookup_insert_eq. intros [= <-]. right.
      by exists l0, (l1 :: rest).
    + rewrite lookup_insert_ne by done. apply Hacc.
Qed.

Lemma isLongestCommonPrefix_unique (q q' : list string)
  (pss : list (list string)) :
  isLongestCommonPrefix q pss -> isLongestCommonPrefix q' pss -> q = q'.
Proof.
  intros [Hpre Hmax] [Hpre' Hmax'].
  pose proof (Hmax q' Hpre') as H1. pose proof (Hmax' q Hpre) as H2.
  apply prefix_length_eq; [done|]. by apply prefix_length.
Qed.

Lemma groupValue_entries (licenses : list License) (k : string)
  (v' : list License) (l' : License) :
  groupValue (collectPaths licenses) k v' -> l' ∈ v' ->
  l' ∈ licenses \/ mergedEntry licenses l'.
Proof.
  intros [Hv|(l0 & rest & Hv & Hrest & Hlcp & ->)] Hin.
  - left. apply collectPaths_lookup in Hv as (_ & _ & <-).
    by apply claimants_elem in Hin as [? _].
  - right. apply list_elem_of_singleton in Hin as ->.
    apply collectPaths_lookup in Hv as (Hk & _ & Hcl).
    destruct (longestCommonPrefix_spec (l0 :: rest)) as (q & Hq & HL); [done|].
    exists k, l0, rest, q. rewrite Hq in *. done.
Qed.

Lemma keepInfo_Failure (l : License) (msg : string) (infos : list LicenseInfo) :
  foldl (keepInfo l) (Failure msg) infos = Failure msg.
Proof. by induction infos. Qed.

Lemma keepInfo_Panic (l : License) (infos : list LicenseInfo) :
  foldl (keepInfo l) Panic infos = Panic.
Proof. by induction infos. Qed.

Lemma keepLicense_Failure (msg : string) (ls : list License) :
  foldl keepLicense (Failure msg) ls = Failure msg.
Proof. by induction ls. Qed.

Lemma keepLicense_Panic (ls : list License) :
  foldl keepLicense Panic ls = Panic.
Proof. by induction ls. Qed.

Section keeping.
Variable Q : License -> Prop.

Lemma keepInfo_keeps (l : License) (infos : list LicenseInfo)
  (st st' : Keeping) :
  Q l -> keepingIn Q st ->
  foldl (keepInfo l) (Return st) infos = Return st' ->
  keepingIn Q st'.
Proof.
  intros Hl. revert st. induction infos as [|li infos IH]; intros st Hst; simpl.
  - by intros [= <-].
  - destruct Hst as [Hkept Hpaths].
    destruct (String.eqb (Path li) "").
    { apply IH. split; [|done]. simpl. apply Forall_app. by split; [|constructor]. }
    destruct (k_paths st !! Path li) as [[|v0 v]|] eqn:E.
    + by rewrite keepInfo_Panic.
    + destruct (decide (Package v0 ∈ seen st)); [by apply IH|].
      apply IH. split; simpl.
      * apply Forall_app. split; [done|]. constructor; [|done].
        by eapply Forall_inv, Hpaths.
      * intros k v'. destruct (decide (Path li = k)) as [->|Hne].
        -- by rewrite lookup_delete_eq.
        -- rewrite lookup_delete_ne by done. apply Hpaths.
    + by apply IH.
Qed.

Lemma keepLicense_keeps (ls : list License) (st st' : Keeping) :
  Forall Q ls -> keepingIn Q st ->
  foldl keepLicense (Return st) ls = Return st' ->
  keepingIn Q st'.
Proof.
  revert st. induction ls as [|l ls IH]; intros st Hls Hst; simpl.
  - by intros [= <-].
  - apply Forall_cons in Hls as [Hl Hls].
    destruct (LicenseInfos l) as [|li infos] eqn:E.
    + apply IH; [done|]. destruct Hst as [Hkept Hpaths]. split; [|done].
      simpl. apply Forall_app. by split; [|constructor].
    + destruct (foldl (keepInfo l) (Return st) (li :: infos))
        as [st1|msg|] eqn:E1.
      * pose proof (keepInfo_keeps l _ _ _ Hl Hst E1). simpl in E1.
        rewrite E1. by apply IH.
      * simpl in E1. rewrite E1. by rewrite keepLicense_Failure.
      * simpl in E1. rewrite E1. by rewrite keepLicense_Panic.
Qed.
End keeping.

Lemma mergeGroup_succeeds (l : list (string * list License))
  (acc : gmap string (list License)) :
  (forall kv, kv ∈ l -> (2 <= length kv.2)%nat ->
              longestCommonPrefix kv.2 <> "") ->
  (forall k v, acc !! k = Some v -> v <> []) ->
  exists acc', foldl mergeGroup (Return acc) l = Return acc'
               /\ forall k v, acc' !! k = Some v -> v <> [].
Proof.
  revert acc. induction l as [|[k0 v0] l IH]; intros acc Hl Hacc.
  - by exists acc.
  - assert (Hl' : forall kv, kv ∈ l -> (2 <= length kv.2)%nat ->
                    longestCommonPrefix kv.2 <> "")
      by (intros kv Hkv; by apply Hl, list_elem_of_further).
    simpl. destruct v0 as [|l0 [|l1 rest]]; [by apply IH | by apply IH |].
    pose proof (Hl (k0, l0 :: l1 :: rest) (list_elem_of_here _ _)) as Hlcp.
    simpl in Hlcp.
    destruct (String.eqb_spec (longestCommonPrefix (l0 :: l1 :: rest)) "")
      as [Hbad|_]; [destruct Hlcp; [lia | done]|].
    apply IH; [done|]. intros k v.
    destruct (decide (k0 = k)) as [->|Hne].
    + rewrite lookup_insert_eq. by intros [= <-].
    + rewrite lookup_insert_ne by done. apply Hacc.
Qed.

Lemma keepInfo_succeeds (l : License) (infos : list LicenseInfo) (st : Keeping) :
  (forall k v, k_paths st !! k = Some v -> v <> []) ->
  exists st', foldl (keepInfo l) (Return st) infos = Return st'
              /\ forall k v, k_paths st' !! k = Some v -> v <> [].
Proof.
  revert st. induction infos as [|li infos IH]; intros st Hst; simpl.
  - by exists st.
  - destruct (String.eqb (Path li) ""); [by apply IH|].
    destruct (k_paths st !! Path li) as [[|v0 v]|] eqn:E.
    + by destruct (Hst _ _ E).
    + destruct (decide (Package v0 ∈ seen st)); [by apply IH|].
      apply IH. simpl. intros k v'.
      destruct (decide (Path li = k)) as [->|Hne].
      * by rewrite lookup_delete_eq.
      * rewrite lookup_delete_ne by done. apply Hst.
    + by apply IH.
Qed.

Lemma keepLicense_succeeds (ls : list License) (st : Keeping) :
  (forall k v, k_paths st !! k = Some v -> v <> []) ->
  exists st', foldl keepLicense (Return st) ls = Return st'.
Proof.
  revert st. induction ls as [|l ls IH]; intros st Hst; simpl.
  - by exists st.
  - destruct (LicenseInfos l) as [|li infos] eqn:E; [by apply IH|].
    destruct (keepInfo_succeeds l (li :: infos) st Hst) as (st1 & Hst1 & Hv1).
    simpl in Hst1. rewrite Hst1. by apply IH.
Qed.

(** C5: an entry that [groupLicenses] returns is an entry of the input, or
    it stands for a group: two or more licenses that claim the same
    non-empty license path, whose import paths have a non-empty longest
    common prefix, element by element, which is the package name of the
    entry.  When a non-empty path is claimed by two or more licenses
    whose longest common prefix is empty, [groupLicenses] returns an
    error, and it returns a grouped list when there is no such path. *)
Theorem C5_grouping (licenses : list License) :
  (forall kept l',
     groupLicenses licenses = Return kept -> l' ∈ kept ->
     l' ∈ licenses \/ mergedEntry licenses l')
  /\ (forall k l0 rest q,
        k <> "" -> claimants licenses k = l0 :: rest -> rest <> [] ->
        isLongestCommonPrefix q (importPaths (l0 :: rest)) ->
        Join q = "" ->
        exists msg, groupLicenses licenses = Failure msg)
  /\ ((forall k l0 rest q,
         k <> "" -> claimants licenses k = l0 :: rest -> rest <> [] ->
         isLongestCommonPrefix q (importPaths (l0 :: rest)) ->
         Join q <> "") ->
      exists kept, groupLicenses licenses = Return kept)
  /\ (forall k l,
        l ∈ claimants licenses k <->
        l ∈ licenses /\ exists li, li ∈ LicenseInfos l /\ Path li = k).
Proof.
  split; [|split; [|split]].
  - intros kept0 l' Hret Hin. unfold groupLicenses in Hret.
    destruct (mergeGroups (collectPaths licenses)) as [paths| |] eqn:Hm;
      [|done|done].
    destruct (foldl keepLicense _ licenses) as [st| |] eqn:Hk; [|done|done].
    injection Hret as <-.
    assert (Hin' : keepingIn (fun l => l ∈ licenses \/ mergedEntry licenses l) st).
    { eapply keepLicense_keeps; [| |exact Hk].
      - apply Forall_forall. by left.
      - split; [constructor|]. simpl. intros k v Hv.
        apply Forall_forall. intros l Hl.
        eapply groupValue_entries; [|exact Hl].
        eapply (mergeGroup_returns (collectPaths licenses)); [| |exact Hm|exact Hv].
        + intros [k' v'] Hkv. by apply elem_of_map_to_list.
        + intros k' v' Hkv. by left. }
    destruct Hin' as [Hkept _].
    by apply (proj1 (Forall_forall _ _) Hkept).
  - intros k l0 rest q Hk Hcl Hrest HL Hq.
    assert (Hlook : collectPaths licenses !! k = Some (l0 :: rest))
      by (by apply collectPaths_lookup).
    destruct (longestCommonPrefix_spec (l0 :: rest)) as (q' & Hq' & HL'); [done|].
    rewrite (isLongestCommonPrefix_unique q' q _ HL' HL), Hq in Hq'.
    destruct (mergeGroup_fails (map_to_list (collectPaths licenses))
                (collectPaths licenses) (k, l0 :: rest)) as [msg Hmsg].
    + by apply elem_of_map_to_list.
    + destruct rest; [done|]. simpl. lia.
    + done.
    + exists msg. unfold groupLicenses, mergeGroups. by rewrite Hmsg.
  - intros Hgood.
    destruct (mergeGroup_succeeds (map_to_list (collectPaths licenses))
                (collectPaths licenses)) as (paths & Hpaths & Hv).
    + intros [k v] Hkv Hlen. simpl in *.
      apply elem_of_map_to_list in Hkv.
      apply collectPaths_lookup in Hkv as (Hk & Hne & Hcl).
      destruct v as [|l0 [|l1 rest]]; simpl in Hlen; [lia | lia |].
      destruct (longestCommonPrefix_spec (l0 :: l1 :: rest))
        as (q & -> & HL); [done|].
      by apply (Hgood k l0 (l1 :: rest) q).
    + intros k v Hkv. by apply collectPaths_lookup in Hkv as (_ & Hne & _).
    + destruct (keepLicense_succeeds licenses (mkKeeping [] paths ∅) Hv)
        as [st Hst].
      exists (kept st). unfold groupLicenses, mergeGroups.
      by rewrite Hpaths, Hst.
  - intros k l. apply claimants_elem.
Qed.

(** ** Copyright notices *)

Lemma drop_while_app (q : ascii -> bool) (p x : string) :
  drop_while q (p +:+ x)
  = match drop_while q p with
    | "" => drop_while q x
    | r => r +:+ x
    end.
Proof.
  induction p as [|c p IH]; simpl; [done|]. by destruct (q c).
Qed.

Lemma drop_while_length (q : ascii -> bool) (s : string) :
  (String.length (drop_while q s) <= String.length s)%nat.
Proof.
  induction s as [|c s IH]; simpl; [done|]. destruct (q c); simpl; lia.
Qed.

Lemma drop_while_all (q : ascii -> bool) (s x : string) :
  all_bytes q s = true -> drop_while q (s +:+ x) = drop_while q x.
Proof.
  induction s as [|c s IH]; simpl; [done|].
  intros [Hc Hs]%andb_true_iff. rewrite Hc. by apply IH.
Qed.

Lemma drop_while_idemp (q : ascii -> bool) (s : string) :
  drop_while q (drop_while q s) = drop_while q s.
Proof.
  induction s as [|c s IH]; simpl; [done|].
  destruct (q c) eqn:E; [done|]. simpl. by rewrite E.
Qed.

Lemma strip_prefix_app (lit p x : string) :
  strip_prefix lit (p +:+ x)
  = match strip_prefix lit p with
    | Some p' => Some (p' +:+ x)
    | None =>
        match strip_prefix p lit with
        | Some l2 => strip_prefix l2 x
        | None => None
        end
    end.
Proof.
  revert p. induction lit as [|a lit IH]; intros p; simpl.
  - by destruct p.
  - destruct p as [|b p]; simpl; [done|].
    destruct (Ascii.eqb_spec a b) as [->|Hne].
    + rewrite Ascii.eqb_refl. apply IH.
    + destruct (Ascii.eqb_spec b a) as [->|_]; done.
Qed.

Lemma strip_prefix_length (lit s r : string) :
  strip_prefix lit s = Some r ->
  String.length s = (String.length lit + String.length r)%nat.
Proof. intros ->%strip_prefix_Some. apply length_append. Qed.

Lemma strip_prefix_suffixes (p lit l2 : string) :
  strip_prefix p lit = Some l2 -> p <> "" ->
  exists c lit', lit = String c lit' /\ l2 ∈ suffixes lit'.
Proof.
  intros ->%strip_prefix_Some Hp. destruct p as [|c p]; [done|].
  exists c, (p +:+ l2). split; [done|]. clear Hp.
  induction p as [|c' p IH]; simpl.
  - destruct l2; apply list_elem_of_here.
  - by apply list_elem_of_further.
Qed.

(** A literal of the pattern that starts in [p] does not end in a text
    that starts with [copyright ]. *)
Lemma literal_app (lit p x' : string) :
  lit ∈ literals -> p <> "" ->
  strip_prefix lit (p +:+ "copyright " +:+ x')
  = match strip_prefix lit p with
    | Some p' => Some (p' +:+ "copyright " +:+ x')
    | None => None
    end.
Proof.
  intros Hlit Hp. rewrite strip_prefix_app.
  destruct (strip_prefix lit p) as [p'|] eqn:E1; [done|].
  destruct (strip_prefix p lit) as [l2|] eqn:E2; [|done].
  destruct (strip_prefix_suffixes p lit l2 E2 Hp) as (c & lit' & -> & Hl2).
  assert (l2 <> "").
  { intros ->. apply strip_prefix_Some in E2. rewrite append_nil_r in E2.
    subst p.
    assert (strip_prefix (String c lit') (String c lit') = Some "") as E
      by (apply strip_prefix_Some; by rewrite append_nil_r).
    congruence. }
  unfold literals in Hlit.
  repeat (apply elem_of_cons in Hlit as [Hlit|Hlit];
          [injection Hlit as -> ->; simpl in Hl2;
           repeat (apply elem_of_cons in Hl2 as [->|Hl2];
                   [first [reflexivity | done]|]);
           by apply elem_of_nil in Hl2|]).
  by apply elem_of_nil in Hlit.
Qed.

Lemma match_marker_app (p x' : string) :
  p <> "" ->
  match_marker (p +:+ "copyright " +:+ x')
  = match match_marker p with
    | Some p' => Some (p' +:+ "copyright " +:+ x')
    | None => None
    end.
Proof.
  intros Hp. unfold match_marker.
  rewrite !literal_app by
    (done || (unfold literals;
              repeat first [apply list_elem_of_here | apply list_elem_of_further])).
  destruct (strip_prefix copyright_sign p); [done|].
  destruct (strip_prefix "(c)" p); [done|].
  by destruct (strip_prefix (a_circumflex_upper +:+ copyright_sign) p).
Qed.

Lemma year_literal : "[year]" ∈ literals.
Proof.
  unfold literals.
  repeat first [apply list_elem_of_here | apply list_elem_of_further].
Qed.

Lemma match_year_app (p x' : string) :
  p <> "" ->
  match_year (p +:+ "copyright " +:+ x')
  = match match_year p with
    | Some p' => Some (p' +:+ "copyright " +:+ x')
    | None => None
    end.
Proof.
  intros Hp.
  pose proof (literal_app "[year]" p x' year_literal Hp) as Hlit.
  destruct p as [|a [|b [|c [|d p4]]]]; [done|..]; unfold match_year;
    simpl String.append in *; cbn [is_digit byte_in] in *.
  - replace (is_digit a && is_digit "c" && is_digit "o" && is_digit "p")
      with false by (by rewrite andb_false_r).
    exact Hlit.
  - replace (is_digit a && is_digit b && is_digit "c" && is_digit "o")
      with false by (by rewrite andb_false_r).
    exact Hlit.
  - replace (is_digit a && is_digit b && is_digit c && is_digit "c")
      with false by (by rewrite andb_false_r).
    exact Hlit.
  - destruct (is_digit a && is_digit b && is_digit c && is_digit d); [done|].
    exact Hlit.
Qed.

Lemma match_year_and_line_app (p : string) :
  (forall x', match_year_and_line (p +:+ "copyright " +:+ x') = None)
  \/ (forall x',
        match_year_and_line (p +:+ "copyright " +:+ x')
        = Some (drop_while not_newline ("copyright " +:+ x')))
  \/ (exists p', (String.length p' <= String.length p)%nat
        /\ forall x',
             match_year_and_line (p +:+ "copyright " +:+ x')
             = Some (p' +:+ "copyright " +:+ x')).
Proof.
  unfold match_year_and_line.
  pose proof (drop_while_length is_space p) as Hlen0.
  destruct (drop_while is_space p) as [|c0 p0] eqn:E0.
  - left. intros x'. rewrite drop_while_app, E0. reflexivity.
  - set (p1 := String c0 p0) in *.
    assert (Hy : forall x', match_year (drop_while is_space (p +:+ "copyright " +:+ x'))
                 = match match_year p1 with
                   | Some p' => Some (p' +:+ "copyright " +:+ x')
                   | None => None
                   end).
    { intros x'. rewrite drop_while_app, E0. by apply match_year_app. }
    destruct (match_year p1) as [p2|] eqn:E2.
    + pose proof (drop_while_length not_newline p2) as Hlen2.
      assert (Hlen1 : (String.length p2 <= String.length p1)%nat).
      { unfold match_year in E2.
        destruct p1 as [|a [|b [|c [|d p4]]]];
          try (apply strip_prefix_length in E2; simpl in *; lia).
        destruct (is_digit a && is_digit b && is_digit c && is_digit d).
        - injection E2 as <-. simpl. lia.
        - apply strip_prefix_length in E2. simpl in *. lia. }
      destruct (drop_while not_newline p2) as [|c3 p3] eqn:E3.
      * right. left. intros x'. rewrite Hy. lazy iota beta.
        by rewrite drop_while_app, E3.
      * right. right. exists (String c3 p3). split; [simpl in *; lia|].
        intros x'. rewrite Hy. lazy iota beta.
        by rewrite drop_while_app, E3.
    + left. intros x'. by rewrite Hy.
Qed.

Lemma reCopyright_match_drop (s : string) :
  reCopyright_match s = reCopyright_match (drop_while is_space s).
Proof. unfold reCopyright_match. by rewrite drop_while_idemp. Qed.

Lemma copyright_literal : "copyright " ∈ literals.
Proof. apply list_elem_of_here. Qed.

Lemma match_marker_length (p p2 : string) :
  match_marker p = Some p2 -> (String.length p2 <= String.length p)%nat.
Proof.
  unfold match_marker. intros E.
  repeat match type of E with
         | context [strip_prefix ?l p] =>
             let E' := fresh "E" in
             destruct (strip_prefix l p) eqn:E';
             [apply strip_prefix_length in E'; injection E as <-; lia|]
         end.
  done.
Qed.

Lemma match_year_and_line_notice (x' : string) :
  match_year_and_line ("copyright " +:+ x') = None.
Proof. reflexivity. Qed.

Lemma match_marker_notice (x' : string) :
  match_marker ("copyright " +:+ x') = None.
Proof. reflexivity. Qed.

(** A match that is tried from a byte of [p] on, in a text where [p] is
    followed by a notice: there is none, or it ends where the line of the
    notice ends, or it ends in [p]; which of the three depends on [p]
    alone. *)
Lemma reCopyright_match_app (p : string) :
  (forall x' post, noticeAhead ("copyright " +:+ x') post ->
     reCopyright_match (p +:+ "copyright " +:+ x') = None)
  \/ (forall x' post, noticeAhead ("copyright " +:+ x') post ->
        reCopyright_match (p +:+ "copyright " +:+ x') = Some post)
  \/ (exists p', (String.length p' < String.length p)%nat
        /\ forall x' post, noticeAhead ("copyright " +:+ x') post ->
             reCopyright_match (p +:+ "copyright " +:+ x')
             = Some (p' +:+ "copyright " +:+ x')).
Proof.
  pose proof (drop_while_length is_space p) as Hlen0.
  destruct (decide (drop_while is_space p = "")) as [E0|Hp0].
  { right. left. intros x' post (_ & _ & HM).
    by rewrite reCopyright_match_drop, drop_while_app, E0,
      <- reCopyright_match_drop. }
  remember (drop_while is_space p) as p0 eqn:E0.
  assert (Hstart : forall x',
            strip_prefix "copyright "
              (drop_while is_space (p +:+ "copyright " +:+ x'))
            = match strip_prefix "copyright " p0 with
              | Some p1 => Some (p1 +:+ "copyright " +:+ x')
              | None => None
              end).
  { intros x'. rewrite drop_while_app, <- E0.
    destruct p0 as [|c0 p0']; [done|].
    by apply literal_app; [apply copyright_literal|]. }
  unfold reCopyright_match.
  destruct (strip_prefix "copyright " p0) as [p1|] eqn:E1;
    [|left; intros x' post _; by rewrite Hstart].
  apply strip_prefix_length in E1 as Hlen1.
  change (String.length "copyright ") with 10%nat in Hlen1.
  assert (Hyl : forall q, (String.length q <= String.length p1)%nat ->
    (forall x' post, noticeAhead ("copyright " +:+ x') post ->
       match_year_and_line (q +:+ "copyright " +:+ x') = None)
    \/ (forall x' post, noticeAhead ("copyright " +:+ x') post ->
          match_year_and_line (q +:+ "copyright " +:+ x') = Some post)
    \/ (exists p', (String.length p' < String.length p)%nat
          /\ forall x' post, noticeAhead ("copyright " +:+ x') post ->
               match_year_and_line (q +:+ "copyright " +:+ x')
               = Some (p' +:+ "copyright " +:+ x'))).
  { intros q Hq.
    destruct (match_year_and_line_app q) as [H|[H|(p' & Hp' & H)]].
    - left. intros x' post _. apply H.
    - right. left. intros x' post (_ & <- & _). apply H.
    - right. right. exists p'. split; [lia|]. intros x' post _. apply H. }
  destruct (decide (p1 = "")) as [->|Hp1].
  { left. intros x' post HX. rewrite Hstart. lazy iota beta.
    change ("" +:+ "copyright " +:+ x') with ("copyright " +:+ x').
    by rewrite match_marker_notice, match_year_and_line_notice. }
  assert (Hmark : forall x', match_marker (p1 +:+ "copyright " +:+ x')
                  = match match_marker p1 with
                    | Some p2 => Some (p2 +:+ "copyright " +:+ x')
                    | None => None
                    end).
  { intros x'. by apply match_marker_app. }
  destruct (Hyl p1 ltac:(lia)) as [H1|[H1|(p' & Hp' & H1)]];
    (destruct (match_marker p1) as [p2|] eqn:E2;
     [destruct (Hyl p2 (match_marker_length _ _ E2))
        as [H2|[H2|(p'' & Hp'' & H2)]]|]).
  all: try (left; intros x' post HX;
            rewrite Hstart; lazy iota beta; rewrite Hmark; lazy iota beta;
            rewrite ?(H2 x' post HX); by apply (H1 x' post HX)).
  all: try (right; left; intros x' post HX;
            rewrite Hstart; lazy iota beta; rewrite Hmark; lazy iota beta;
            rewrite ?(H2 x' post HX); first [done | by apply (H1 x' post HX)]).
  all: try (right; right; exists p''; split; [done|]; intros x' post HX;
            rewrite Hstart; lazy iota beta; rewrite Hmark; lazy iota beta;
            by rewrite (H2 x' post HX)).
  all: right; right; exists p'; split; [done|]; intros x' post HX;
         rewrite Hstart; lazy iota beta; rewrite Hmark; lazy iota beta;
         rewrite ?(H2 x' post HX); by apply (H1 x' post HX).
Qed.

(** *** [ReplaceAll] *)

Ltac reassociate := repeat progress (rewrite ?append_assoc; simpl).

Lemma ReplaceAll_skip (n : nat) (s : string) :
  reCopyright_ReplaceAll_from n s
  = reCopyright_ReplaceAll_from 0 (string_drop n s).
Proof.
  revert n. induction s as [|c s IH]; intros n.
  - by destruct n.
  - destruct n as [|n]; [done|]. simpl. apply IH.
Qed.

Lemma drop_while_suffix (q : ascii -> bool) (s : string) :
  exists m, s = m +:+ drop_while q s.
Proof.
  induction s as [|c s [m IH]]; simpl; [by exists ""|].
  destruct (q c); [|by exists ""]. exists (String c m). simpl. by rewrite <- IH.
Qed.

Lemma match_year_suffix (s r : string) :
  match_year s = Some r -> exists m, s = m +:+ r.
Proof.
  unfold match_year. intros E.
  assert (Hlit : strip_prefix "[year]" s = Some r -> exists m, s = m +:+ r).
  { intros ->%strip_prefix_Some. by eexists. }
  destruct s as [|a [|b [|c [|d p4]]]]; try by apply Hlit.
  destruct (is_digit a && is_digit b && is_digit c && is_digit d);
    [|by apply Hlit].
  injection E as <-. by exists (String a (String b (String c (String d "")))).
Qed.

Lemma match_year_and_line_suffix (s r : string) :
  match_year_and_line s = Some r -> exists m, s = m +:+ r.
Proof.
  unfold match_year_and_line.
  destruct (match_year (drop_while is_space s)) as [r1|] eqn:E; [|done].
  intros [= <-]. apply match_year_suffix in E as [m1 E].
  destruct (drop_while_suffix is_space s) as [m0 E0].
  destruct (drop_while_suffix not_newline r1) as [m2 E2].
  exists (m0 +:+ m1 +:+ m2).
  rewrite E0 at 1. rewrite E. rewrite E2 at 1. by rewrite !append_assoc.
Qed.

Lemma match_marker_suffix (s r : string) :
  match_marker s = Some r -> exists m, s = m +:+ r.
Proof.
  unfold match_marker. intros E.
  repeat match type of E with
         | context [strip_prefix ?l s] =>
             let E' := fresh "E" in
             destruct (strip_prefix l s) eqn:E';
             [apply strip_prefix_Some in E'; injection E as <-; by eexists|]
         end.
  done.
Qed.

(** A match is not empty, and what is left after it is the end of the
    text. *)
Lemma reCopyright_match_suffix (s rest : string) :
  reCopyright_match s = Some rest ->
  exists c m, s = String c m +:+ rest.
Proof.
  unfold reCopyright_match.
  destruct (drop_while_suffix is_space s) as [m0 E0].
  destruct (strip_prefix "copyright " (drop_while is_space s)) as [r|] eqn:E1;
    [|done].
  apply strip_prefix_Some in E1.
  assert (Hyl : match_year_and_line r = Some rest -> exists c m, s = String c m +:+ rest).
  { intros [m2 E2]%match_year_and_line_suffix.
    rewrite E0, E1, E2. destruct m0 as [|c0 m0'].
    - by exists "c"%char, ("opyright " +:+ m2).
    - exists c0, (m0' +:+ "copyright " +:+ m2). by reassociate. }
  destruct (match_marker r) as [r'|] eqn:E3; [|exact Hyl].
  destruct (match_year_and_line r') as [rest'|] eqn:E4; [|exact Hyl].
  intros [= <-]. apply match_marker_suffix in E3 as [m3 E3].
  apply match_year_and_line_suffix in E4 as [m4 E4].
  rewrite E0, E1, E3, E4. destruct m0 as [|c0 m0'].
  - exists "c"%char, ("opyright " +:+ m3 +:+ m4). by reassociate.
  - exists c0, (m0' +:+ "copyright " +:+ m3 +:+ m4). by reassociate.
Qed.

Lemma ReplaceAll_unfold (c : ascii) (s : string) :
  reCopyright_ReplaceAll (String c s)
  = match reCopyright_match (String c s) with
    | Some rest => reCopyright_ReplaceAll rest
    | None => String c (reCopyright_ReplaceAll s)
    end.
Proof.
  unfold reCopyright_ReplaceAll. simpl.
  destruct (reCopyright_match (String c s)) as [rest|] eqn:E; [|done].
  rewrite ReplaceAll_skip. f_equal.
  apply reCopyright_match_suffix in E as (c' & m & E).
  simpl in E. injection E as -> ->.
  rewrite length_append.
  replace (S (String.length m + String.length rest) - String.length rest - 1)%nat
    with (String.length m) by lia.
  apply string_drop_append.
Qed.

(** What is kept of a text [p] that is followed by a notice depends on
    [p] alone, and the line of the notice is removed. *)
Lemma ReplaceAll_before_notice (p : string) :
  exists kept, forall x' post,
    noticeAhead ("copyright " +:+ x') post ->
    reCopyright_ReplaceAll (p +:+ "copyright " +:+ x')
    = kept +:+ reCopyright_ReplaceAll post.
Proof.
  remember (String.length p) as n eqn:Hn. revert p Hn.
  induction n as [n IH] using lt_wf_ind. intros p Hn.
  destruct p as [|c p'].
  - exists "". intros x' post HX.
    change ("" +:+ "copyright " +:+ x') with (String "c" ("opyright " +:+ x')).
    rewrite ReplaceAll_unfold.
    destruct HX as (_ & _ & HM).
    change (String "c" ("opyright " +:+ x')) with ("copyright " +:+ x').
    by rewrite HM.
  - destruct (reCopyright_match_app (String c p')) as [H|[H|(p'' & Hlen & H)]].
    + destruct (IH (String.length p') ltac:(subst n; simpl; lia) p' eq_refl)
        as [kept Hkept].
      exists (String c kept). intros x' post HX.
      change (String c p' +:+ "copyright " +:+ x')
        with (String c (p' +:+ "copyright " +:+ x')).
      rewrite ReplaceAll_unfold.
      change (String c (p' +:+ "copyright " +:+ x'))
        with (String c p' +:+ "copyright " +:+ x').
      rewrite (H x' post HX). lazy iota beta.
      by rewrite (Hkept x' post HX).
    + exists "". intros x' post HX.
      change (String c p' +:+ "copyright " +:+ x')
        with (String c (p' +:+ "copyright " +:+ x')).
      rewrite ReplaceAll_unfold.
      change (String c (p' +:+ "copyright " +:+ x'))
        with (String c p' +:+ "copyright " +:+ x').
      by rewrite (H x' post HX).
    + destruct (IH (String.length p'') ltac:(subst n; lia) p'' eq_refl)
        as [kept Hkept].
      exists kept. intros x' post HX.
      change (String c p' +:+ "copyright " +:+ x')
        with (String c (p' +:+ "copyright " +:+ x')).
      rewrite ReplaceAll_unfold.
      change (String c (p' +:+ "copyright " +:+ x'))
        with (String c p' +:+ "copyright " +:+ x').
      rewrite (H x' post HX). by apply Hkept.
Qed.

(** *** A notice at the start of a text *)

Lemma blank_props (a : ascii) :
  is_blank a = true ->
  is_space a = true /\ not_newline a = true
  /\ Ascii.eqb "194" a = false /\ Ascii.eqb "(" a = false
  /\ Ascii.eqb "195" a = false.
Proof.
  destruct a as [[] [] [] [] [] [] [] []]; intros H; try discriminate H;
    repeat split; reflexivity.
Qed.

Lemma digit_props (a : ascii) :
  is_digit a = true ->
  is_space a = false /\ not_newline a = true
  /\ Ascii.eqb "194" a = false /\ Ascii.eqb "(" a = false
  /\ Ascii.eqb "195" a = false.
Proof.
  destruct a as [[] [] [] [] [] [] [] []]; intros H; try discriminate H;
    repeat split; reflexivity.
Qed.

Lemma all_blank (ws : string) :
  all_bytes is_blank ws = true ->
  all_bytes is_space ws = true /\ all_bytes not_newline ws = true.
Proof.
  induction ws as [|c ws IH]; simpl; [done|].
  intros [Hc Hws]%andb_true_iff. destruct (IH Hws) as [-> ->].
  by destruct (blank_props c Hc) as (-> & -> & _).
Qed.

Lemma match_marker_head (c : ascii) (s : string) :
  Ascii.eqb "194" c = false -> Ascii.eqb "(" c = false ->
  Ascii.eqb "195" c = false ->
  match_marker (String c s) = None.
Proof.
  intros H1 H2 H3.
  unfold match_marker, copyright_sign, a_circumflex_upper, a_circumflex_lower.
  cbn [strip_prefix String.append]. by rewrite H1, H2, H3.
Qed.

Lemma lineEnd_drop (post : string) :
  lineEnd post -> drop_while not_newline post = post.
Proof. by intros [->|[r ->]]. Qed.

Lemma year_line (y rest post : string) :
  yearMarker y -> all_bytes not_newline rest = true -> lineEnd post ->
  drop_while is_space (y +:+ rest +:+ post) = y +:+ rest +:+ post
  /\ match_year (y +:+ rest +:+ post) = Some (rest +:+ post)
  /\ drop_while not_newline (y +:+ rest +:+ post) = post
  /\ match_marker (y +:+ rest +:+ post) = None.
Proof.
  intros Hy Hrest Hpost.
  assert (Hline : drop_while not_newline (rest +:+ post) = post)
    by (by rewrite drop_while_all, lineEnd_drop).
  destruct Hy as [->|(a & b & c & d & -> & Ha & Hb & Hc & Hd)].
  - repeat split; try reflexivity. exact Hline.
  - destruct (digit_props a Ha) as (Ha1 & Ha2 & Ha3 & Ha4 & Ha5).
    destruct (digit_props b Hb) as (_ & Hb2 & _).
    destruct (digit_props c Hc) as (_ & Hc2 & _).
    destruct (digit_props d Hd) as (_ & Hd2 & _).
    repeat split.
    + simpl. by rewrite Ha1.
    + unfold match_year. simpl. by rewrite Ha, Hb, Hc, Hd.
    + simpl. by rewrite Ha2, Hb2, Hc2, Hd2.
    + by apply match_marker_head.
Qed.

Lemma blanks_year_line (ws y rest post : string) :
  all_bytes is_blank ws = true -> yearMarker y ->
  all_bytes not_newline rest = true -> lineEnd post ->
  match_year_and_line (ws +:+ y +:+ rest +:+ post) = Some post
  /\ match_marker (ws +:+ y +:+ rest +:+ post) = None
  /\ drop_while not_newline (ws +:+ y +:+ rest +:+ post) = post.
Proof.
  intros Hws Hy Hrest Hpost.
  destruct (year_line y rest post Hy Hrest Hpost) as (Hy1 & Hy2 & Hy3 & Hy4).
  destruct (all_blank ws Hws) as [Hsp Hnl].
  split; [|split].
  - unfold match_year_and_line.
    rewrite drop_while_all, Hy1, Hy2 by done.
    by rewrite drop_while_all, lineEnd_drop.
  - destruct ws as [|c ws']; [exact Hy4|].
    simpl in Hws. apply andb_true_iff in Hws as [Hc _].
    destruct (blank_props c Hc) as (_ & _ & H1 & H2 & H3).
    by apply match_marker_head.
  - by rewrite drop_while_all.
Qed.

Lemma notice_ahead (n post : string) :
  noticeLine n -> lineEnd post ->
  exists x', n +:+ post = "copyright " +:+ x'
             /\ noticeAhead ("copyright " +:+ x') post.
Proof.
  intros (sym & ws & y & rest & -> & Hsym & Hws & Hy & Hrest) Hpost.
  exists (sym +:+ ws +:+ y +:+ rest +:+ post).
  split; [by rewrite !append_assoc|].
  destruct (blanks_year_line ws y rest post Hws Hy Hrest Hpost)
    as (Hyl & Hmark & Hdrop).
  split; [by eexists|].
  unfold symbolMarkers in Hsym.
  repeat (apply elem_of_cons in Hsym as [->|Hsym];
          [split;
           [exact Hdrop
           |unfold reCopyright_match; simpl;
            first [by rewrite Hmark, Hyl | by rewrite Hyl]]|]).
  by apply elem_of_nil in Hsym.
Qed.

Lemma ToLower_append (a b : string) :
  ToLower (a +:+ b) = ToLower a +:+ ToLower b.
Proof. induction a as [|c a IH]; simpl; [done | by rewrite IH]. Qed.

Lemma lineEnd_ToLower (post : string) : lineEnd post -> lineEnd (ToLower post).
Proof. intros [->|[r ->]]; [by left | right; by eexists]. Qed.

(** The notice and the rest of its line are removed; what is kept of the
    text before it depends on this text alone. *)
Lemma cleanLicenseData_notice (pre : string) :
  exists kept, forall n post,
    noticeLine (ToLower n) -> lineEnd post ->
    cleanLicenseData (pre +:+ n +:+ post) = kept +:+ cleanLicenseData post.
Proof.
  destruct (ReplaceAll_before_notice (ToLower pre)) as [kept Hkept].
  exists kept. intros n post Hn Hpost. unfold cleanLicenseData.
  rewrite !ToLower_append.
  destruct (notice_ahead _ _ Hn (lineEnd_ToLower _ Hpost)) as (x' & -> & HX).
  by apply Hkept.
Qed.




(** ** The tests of the repository *)

(** [TestCleanLicenseData] *)
Example cleanLicenseData_test :
  cleanLicenseData
    ("The MIT License (MIT)" +:+ LF +:+ LF +:+
     TAB +:+ "Copyright (c) 2013 Ben Johnson" +:+ LF +:+ LF +:+
     TAB +:+ "Some other lines." +:+ LF +:+
     TAB +:+ "And more." +:+ LF +:+ TAB)
  = "the mit license (mit)" +:+ LF +:+ LF +:+
    TAB +:+ "some other lines." +:+ LF +:+
    TAB +:+ "and more." +:+ LF +:+ TAB.
Proof. vm_compute. reflexivity. Qed.

(** [TestLongestPrefix] *)
Example longestCommonPrefix_test :
  longestCommonPrefix
    [mkLicense "a/b/c" [] ""; mkLicense "a/b/c/d" [] ""] = "a/b/c"
  /\ longestCommonPrefix
       [mkLicense "a/b/c" [] ""; mkLicense "a/b/c/d" [] "";
        mkLicense "a/b/c/d/e" [] ""] = "a/b/c"
  /\ longestCommonPrefix
       [mkLicense "a/b" [] ""; mkLicense "a/b/c/d/f" [] "";
        mkLicense "a/b/c/d/e" [] ""] = "a/b".
Proof. vm_compute. repeat split. Qed.

(** Two packages that share the license file [x/y/LICENSE] become the
    project [x/y]; two packages that share a license file and have no
    common prefix are an error. *)
Example groupLicenses_shared :
  groupLicenses
    [mkLicense "x/y" [mkLicenseInfo "x/y/LICENSE" (Fin 1) None [] []] "";
     mkLicense "x/y/sub" [mkLicenseInfo "x/y/LICENSE" (Fin 1) None [] []] ""]
  = Return [mkLicense "x/y" [mkLicenseInfo "x/y/LICENSE" (Fin 1) None [] []] ""]
  /\ groupLicenses
       [mkLicense "x/y" [mkLicenseInfo "LICENSE" (Fin 1) None [] []] "";
        mkLicense "z/w" [mkLicenseInfo "LICENSE" (Fin 1) None [] []] ""]
     = Failure "packages share the same license but not common prefix".
Proof. vm_compute. split; reflexivity. Qed.

(** [TestOverrides]: one override of a detected project and one of a
    project in the error list. *)
Example mergeOverrides_test :
  mergeOverrides
    [mkProjectAndLicenses "colors/missing"
       [mkTruncLicense "override missing" (Fin 0)] "";
     mkProjectAndLicenses "colors/red"
       [mkTruncLicense "override existing" (Fin 0)] ""]
    [mkProjectAndLicenses "colors/broken"
       [mkTruncLicense "GNU General Public License v3.0" (Fin 1)] "";
     mkProjectAndLicenses "colors/red"
       [mkTruncLicense "MIT License" (Fin (49 # 50))] ""]
    [mkProjectAndLicenses "colors/missing" [] "some error"]
  = ([mkProjectAndLicenses "colors/broken"
        [mkTruncLicense "GNU General Public License v3.0" (Fin 1)] "";
      mkProjectAndLicenses "colors/red"
        [mkTruncLicense "override existing" (Fin 1)] "";
      mkProjectAndLicenses "colors/missing"
        [mkTruncLicense "override missing" (Fin 1)] ""],
     []).
Proof. vm_compute. reflexivity. Qed.

(** The third loop of [groupLicenses] keeps one entry for each package
    name: a package with two license files is kept once, and so is each
    name that two groups come to share. *)
Example groupLicenses_once :
  groupLicenses
    [mkLicense "p" [mkLicenseInfo "p/LICENSE" (Fin 1) None [] [];
                    mkLicenseInfo "p/COPYING" (Fin 1) None [] []] ""]
  = Return
      [mkLicense "p" [mkLicenseInfo "p/LICENSE" (Fin 1) None [] [];
                      mkLicenseInfo "p/COPYING" (Fin 1) None [] []] ""]
  /\ (fun r => match r with
               | Return ls => Return (Package <$> ls)
               | Failure msg => Failure msg
               | Panic => Panic
               end)
       (groupLicenses
          [mkLicense "x/a" [mkLicenseInfo "L1" (Fin 1) None [] []] "";
           mkLicense "x/b" [mkLicenseInfo "L1" (Fin 1) None [] []] "";
           mkLicense "x/c" [mkLicenseInfo "L2" (Fin 1) None [] []] "";
           mkLicense "x/d" [mkLicenseInfo "L2" (Fin 1) None [] []] ""])
     = Return ["x"].
Proof. vm_compute. split; reflexivity. Qed.

(** ** More on the matcher: the result of [matchTemplates] *)

Lemma templateScore_empty (words : gmap string nat) (t : Template) :
  (size words + size (Words t) = 0)%nat -> templateScore words t = NaN.
Proof.
  intros H. unfold templateScore.
  pose proof (common_le_sample words t) as Hc.
  replace (snd (sampleLoop words t)) with 0%nat by lia.
  replace (size words) with 0%nat by lia.
  replace (size (Words t)) with 0%nat by lia.
  apply dice_NaN.
Qed.

(** The state of the loop over the templates: the initial one as long as
    no template and the sample have a word, the one of a template
    after. *)
Lemma matchStep_fold_cases (words : gmap string nat)
  (templates : list Template) :
  (foldl (matchStep words) bestInit templates = bestInit
   /\ forall t, t ∈ templates -> (size words + size (Words t) = 0)%nat)
  \/ exists t, t ∈ templates
               /\ foldl (matchStep words) bestInit templates = bestOf words t
               /\ (0 < size words + size (Words t))%nat.
Proof.
  induction templates as [|x l IH] using rev_ind.
  { left. split; [done|]. intros t Ht. by apply not_elem_of_nil in Ht. }
  rewrite foldl_app.
  change (foldl (matchStep words) (foldl (matchStep words) bestInit l) [x])
    with (matchStep words (foldl (matchStep words) bestInit l) x).
  set (b := foldl (matchStep words) bestInit l) in *.
  destruct (decide (size words + size (Words x) = 0)%nat) as [Hx|Hx].
  - unfold matchStep. rewrite (templateScore_empty _ _ Hx). simpl.
    destruct IH as [[Hb Hall]|(t & Ht & Hb & Hpos)].
    + left. split; [done|]. intros t [Ht|Ht%list_elem_of_singleton]%elem_of_app.
      * by apply Hall.
      * by subst t.
    + right. exists t. split; [apply elem_of_app; by left|done].
  - destruct (templateScore_Fin words x) as (q & Hq & Hq0 & Hq1); [lia|].
    unfold matchStep.
    destruct (fgt (templateScore words x) (bestScore b)) eqn:Hgt.
    + right. exists x. split; [|split; [reflexivity|lia]].
      apply elem_of_app. right. apply list_elem_of_here.
    + destruct IH as [[Hb Hall]|(t & Ht & Hb & Hpos)].
      * exfalso. rewrite Hb, Hq in Hgt. simpl in Hgt.
        apply fgt_Fin_false in Hgt. lra.
      * right. exists t. split; [apply elem_of_app; by left|done].
Qed.

Lemma sortAndReturnWords_nil (l : list Word) :
  sortAndReturnWords l = [] <-> l = [].
Proof.
  unfold sortAndReturnWords. split.
  - intros H. apply fmap_nil_inv in H.
    apply Permutation_nil_r. rewrite <- H.
    symmetry. apply merge_sort_Permutation.
  - intros ->. reflexivity.
Qed.

(** X1: [matchTemplates] returns no template exactly when the sample has
    no word and no template of the corpus has one, which is so for the
    empty corpus; the score is then -1 and the two word lists are
    empty. *)
Theorem matchTemplates_no_template (license : string)
  (templates : list Template) :
  (mr_Template (matchTemplates license templates) = None
   <-> forall t, t ∈ templates ->
         makeWordSet license = ∅ /\ Words t = ∅)
  /\ (mr_Template (matchTemplates license templates) = None ->
      matchTemplates license templates
      = mkMatchResult None (Fin (-1)) [] []).
Proof.
  unfold matchTemplates, matchWords.
  destruct (matchStep_fold_cases (makeWordSet license) templates)
    as [[Hb Hall]|(t & Ht & Hb & Hpos)]; rewrite Hb; simpl.
  - split; [|done]. split; [|done]. intros _ t Ht.
    specialize (Hall t Ht).
    split; apply map_size_empty_iff; lia.
  - split; [|done]. split; [done|]. intros Hall.
    destruct (Hall t Ht) as [H1 H2]. rewrite H1, H2 in Hpos.
    rewrite map_size_empty in Hpos. simpl in Hpos. lia.
Qed.

(** X2: a template [matchTemplates] returns is one of the corpus, and the
    score returned with it is its Dice coefficient, a number between 0
    and 1. *)
Theorem matchTemplates_score_range (license : string)
  (templates : list Template) (t : Template) :
  mr_Template (matchTemplates license templates) = Some t ->
  t ∈ templates
  /\ mr_Score (matchTemplates license templates)
     = templateScore (makeWordSet license) t
  /\ exists q, mr_Score (matchTemplates license templates) = Fin q
               /\ (0 <= q)%Q /\ (q <= 1)%Q.
Proof.
  unfold matchTemplates, matchWords.
  destruct (matchStep_fold_cases (makeWordSet license) templates)
    as [[Hb Hall]|(t' & Ht & Hb & Hpos)]; rewrite Hb; simpl; [done|].
  intros [= <-]. split; [done|]. split; [done|].
  by apply templateScore_Fin.
Qed.

Lemma matchTemplates_score_range_witness :
  templateOf "B" "" "x" ∈ [templateOf "A" "" "x y"; templateOf "B" "" "x"]
  /\ mr_Score (matchTemplates "X z"
                 [templateOf "A" "" "x y"; templateOf "B" "" "x"])
     = templateScore (makeWordSet "X z") (templateOf "B" "" "x")
  /\ exists q, mr_Score (matchTemplates "X z"
                 [templateOf "A" "" "x y"; templateOf "B" "" "x"]) = Fin q
               /\ (0 <= q)%Q /\ (q <= 1)%Q.
Proof.
  apply (matchTemplates_score_range "X z"
           [templateOf "A" "" "x y"; templateOf "B" "" "x"]
           (templateOf "B" "" "x")).
  vm_compute. reflexivity.
Defined.

Lemma filter_lookup_nil (a b : gmap string nat) :
  filter (fun kv : string * nat => b !! kv.1 = None) (map_to_list a) = []
  <-> dom a ⊆ dom b.
Proof.
  split.
  - intros H w [p Hp]%elem_of_dom. apply elem_of_dom.
    destruct (b !! w) as [q|] eqn:Hb; [by exists q|].
    exfalso. apply (not_elem_of_nil (w, p)). rewrite <- H.
    apply list_elem_of_filter. split; [done|]. by apply elem_of_map_to_list.
  - intros H.
    destruct (filter _ (map_to_list a)) as [|[w p] l] eqn:E; [done|].
    assert (Hin : (w, p) ∈ filter (fun kv : string * nat => b !! kv.1 = None)
                              (map_to_list a))
      by (rewrite E; apply list_elem_of_here).
    apply list_elem_of_filter in Hin as [Hb Hin]. simpl in Hb.
    apply elem_of_map_to_list in Hin.
    assert (Hw : w ∈ dom b) by (apply H, elem_of_dom; by exists p).
    apply elem_of_dom in Hw as [q Hq]. congruence.
Qed.

Lemma dice_one (common n m : nat) :
  (0 < n + m)%nat ->
  dice common n m = Fin 1 <-> (2 * common = n + m)%nat.
Proof.
  intros Hpos. rewrite dice_Fin by done.
  assert (Hd : ~ (inject_Z (Z.of_nat (n + m)) == 0)%Q).
  { unfold Qeq. simpl. lia. }
  split.
  - intros [= H].
    assert (Hq : (inject_Z (2 * Z.of_nat common)
                  / inject_Z (Z.of_nat (n + m)) == 1)%Q).
    { rewrite <- (Qred_correct (_ / _)). rewrite H. reflexivity. }
    apply (Qmult_inj_r _ _ _ Hd) in Hq.
    rewrite Qmult_1_l in Hq.
    unfold Qdiv in Hq. rewrite <- Qmult_assoc in Hq.
    rewrite (Qmult_comm (/ _)) in Hq. rewrite Qmult_inv_r in Hq by done.
    rewrite Qmult_1_r in Hq. unfold Qeq in Hq. simpl in Hq. lia.
  - intros H. f_equal.
    change 1%Q with (Qred 1). apply Qred_complete.
    replace (2 * Z.of_nat common)%Z with (Z.of_nat (n + m)) by lia.
    unfold Qdiv. by rewrite Qmult_inv_r.
Qed.

Lemma common_full (a b : gmap string nat) :
  size (dom a ∩ dom b) = size a <-> dom a ⊆ dom b.
Proof.
  rewrite <- (size_dom (D := gset string) a). split.
  - intros H.
    assert (Heq : dom a ∩ dom b ≡ dom a).
    { apply set_subseteq_size_equiv; [apply intersection_subseteq_l|].
      by rewrite H. }
    intros x Hx. apply Heq in Hx.
    by apply elem_of_intersection in Hx as [_ ?].
  - intros H. f_equal. apply leibniz_equiv. intros x.
    rewrite elem_of_intersection. split; [by intros [? _]|].
    intros Hx. split; [done|by apply H].
Qed.

Lemma wordOf_fmap_nil (l : list (string * nat)) :
  wordOf <$> l = [] <-> l = [].
Proof. split; [apply fmap_nil_inv|by intros ->]. Qed.

(** X3: the score returned with a template is 1 exactly when there is
    no extra and no missing word, that is when the sample and the template
    have the same words. *)
Theorem matchTemplates_perfect_score (license : string)
  (templates : list Template) (t : Template) :
  mr_Template (matchTemplates license templates) = Some t ->
  (mr_Score (matchTemplates license templates) = Fin 1
   <-> mr_ExtraWords (matchTemplates license templates) = []
       /\ mr_MissingWords (matchTemplates license templates) = [])
  /\ (mr_Score (matchTemplates license templates) = Fin 1
      <-> dom (makeWordSet license) = dom (Words t)).
Proof.
  unfold matchTemplates, matchWords.
  destruct (matchStep_fold_cases (makeWordSet license) templates)
    as [[Hb Hall]|(t' & Ht & Hb & Hpos)]; rewrite Hb; simpl; [done|].
  intros [= <-]. set (words := makeWordSet license) in *.
  rewrite !sortAndReturnWords_nil, sampleLoop_eq, templateLoop_eq. simpl.
  rewrite !wordOf_fmap_nil, !filter_lookup_nil.
  unfold templateScore. rewrite dice_one by done. rewrite common_eq.
  pose proof (common_le_sample words t') as H1.
  pose proof (common_le_template words t') as H2.
  rewrite common_eq in H1, H2.
  assert (H3 : size (dom (Words t') ∩ dom words) = size (dom words ∩ dom (Words t'))).
  { f_equal. apply leibniz_equiv. intros x.
    rewrite !elem_of_intersection. tauto. }
  pose proof (common_full words (Words t')) as Ha.
  pose proof (common_full (Words t') words) as Hb'.
  assert (Hcore : (2 * size (dom words ∩ dom (Words t'))
                   = size words + size (Words t'))%nat
                  <-> dom words ⊆ dom (Words t') /\ dom (Words t') ⊆ dom words).
  { split.
    - intros H. split; [apply Ha|apply Hb']; lia.
    - intros [Hx Hy]. apply Ha in Hx. apply Hb' in Hy. lia. }
  split; [done|]. rewrite Hcore. split.
  - intros [Hx Hy]. by apply (anti_symm (⊆)).
  - intros ->. done.
Qed.

Lemma matchTemplates_perfect_score_witness :
  (mr_Score (matchTemplates "b A" [templateOf "T" "" "a b"]) = Fin 1
   <-> mr_ExtraWords (matchTemplates "b A" [templateOf "T" "" "a b"]) = []
       /\ mr_MissingWords (matchTemplates "b A" [templateOf "T" "" "a b"]) = [])
  /\ (mr_Score (matchTemplates "b A" [templateOf "T" "" "a b"]) = Fin 1
      <-> dom (makeWordSet "b A") = dom (Words (templateOf "T" "" "a b"))).
Proof.
  apply (matchTemplates_perfect_score "b A" [templateOf "T" "" "a b"]
           (templateOf "T" "" "a b")).
  vm_compute. reflexivity.
Defined.

(** ** More on the word sets: [cleanLicenseData], [makeWordSet] *)

Lemma all_bytes_app (p : ascii -> bool) (a b : string) :
  all_bytes p (a +:+ b) = all_bytes p a && all_bytes p b.
Proof.
  induction a as [|c a IH]; [reflexivity|].
  simpl. rewrite IH. by rewrite andb_assoc.
Qed.

Lemma lower_byte_not_upper (c : ascii) : is_upper (lower_byte c) = false.
Proof. destruct c as [[] [] [] [] [] [] [] []]; reflexivity. Qed.

Lemma token_byte_spec (c : ascii) :
  is_word_or_quote c && negb (is_upper c) = is_token_byte c.
Proof. destruct c as [[] [] [] [] [] [] [] []]; reflexivity. Qed.

Lemma ToLower_no_upper (s : string) :
  all_bytes (fun c => negb (is_upper c)) (ToLower s) = true.
Proof.
  induction s as [|c s IH]; [reflexivity|].
  simpl. by rewrite lower_byte_not_upper, IH.
Qed.

(** [ReplaceAll] only removes bytes. *)
Lemma ReplaceAll_from_bytes (p : ascii -> bool) (s : string) (skip : nat) :
  all_bytes p s = true ->
  all_bytes p (reCopyright_ReplaceAll_from skip s) = true.
Proof.
  revert skip. induction s as [|c s IH]; intros skip H; [reflexivity|].
  simpl in H. apply andb_true_iff in H as [Hc Hs].
  cbn [reCopyright_ReplaceAll_from].
  destruct skip as [|k]; [|by apply IH].
  destruct (reCopyright_match (String c s)); [by apply IH|].
  simpl. by rewrite Hc, IH.
Qed.

Lemma FindAll_from_tokens (p : ascii -> bool) (s cur tok : string) :
  all_bytes p cur = true -> all_bytes is_word_or_quote cur = true ->
  all_bytes p s = true ->
  tok ∈ reWords_FindAll_from cur s ->
  tok <> "" /\ all_bytes p tok = true
  /\ all_bytes is_word_or_quote tok = true.
Proof.
  revert cur. induction s as [|c s IH]; intros cur Hp Hw Hs Hin.
  - simpl in Hin. destruct cur; [by apply not_elem_of_nil in Hin|].
    apply list_elem_of_singleton in Hin. by subst tok.
  - simpl in Hs. apply andb_true_iff in Hs as [Hc Hs].
    cbn [reWords_FindAll_from] in Hin.
    destruct (is_word_or_quote c) eqn:Hq.
    + apply (IH (cur +:+ String c "")); [| |done|done].
      * rewrite all_bytes_app, Hp. simpl. by rewrite Hc.
      * rewrite all_bytes_app, Hw. simpl. by rewrite Hq.
    + apply elem_of_app in Hin as [Hin|Hin].
      * destruct cur; [by apply not_elem_of_nil in Hin|].
        apply list_elem_of_singleton in Hin. by subst tok.
      * by apply (IH "").
Qed.

(** X4: the words of a word set are not empty and are made of digits,
    small letters, underscores and apostrophes: the word set does not
    tell the case of the letters apart. *)
Theorem makeWordSet_words (data w : string) (pos : nat) :
  makeWordSet data !! w = Some pos ->
  w <> "" /\ all_bytes is_token_byte w = true.
Proof.
  intros H. apply makeWordSet_lookup in H.
  destruct H as [Hw _].
  apply list_elem_of_lookup_2 in Hw.
  apply (FindAll_from_tokens (fun c => negb (is_upper c))) in Hw
    as (Hne & Hlow & Hword); [|done|done|].
  - split; [done|].
    clear -Hlow Hword. induction w as [|c w IH]; [reflexivity|].
    simpl in *. apply andb_true_iff in Hlow as [H1 H2].
    apply andb_true_iff in Hword as [H3 H4].
    rewrite <- token_byte_spec, H1, H3. simpl. by apply IH.
  - apply ReplaceAll_from_bytes, ToLower_no_upper.
Qed.

Lemma makeWordSet_words_witness :
  "don't" <> "" /\ all_bytes is_token_byte "don't" = true.
Proof.
  apply (makeWordSet_words "We DON'T warrant" "don't" 1).
  vm_compute. reflexivity.
Defined.

Lemma occursIn_tail (lit : string) (c : ascii) (s : string) :
  occursIn lit s -> occursIn lit (String c s).
Proof. intros (a & b & ->). by exists (String c a), b. Qed.

Lemma reCopyright_match_occurs (s rest : string) :
  reCopyright_match s = Some rest -> occursIn "copyright " s.
Proof.
  unfold reCopyright_match. intros H.
  destruct (strip_prefix "copyright " (drop_while is_space s)) as [r|] eqn:E;
    [|done].
  apply strip_prefix_Some in E.
  destruct (drop_while_suffix is_space s) as [m Hm].
  exists m, r. by rewrite <- E.
Qed.

Lemma ReplaceAll_plain (s : string) :
  ~ occursIn "copyright " s -> reCopyright_ReplaceAll s = s.
Proof.
  induction s as [|c s IH]; intros H; [reflexivity|].
  rewrite ReplaceAll_unfold.
  destruct (reCopyright_match (String c s)) as [rest|] eqn:E.
  - exfalso. by apply H, (reCopyright_match_occurs _ rest).
  - f_equal. apply IH. intros Ho. by apply H, occursIn_tail.
Qed.



Lemma ReplaceAll_from_length (s : string) (skip : nat) :
  (String.length (reCopyright_ReplaceAll_from skip s) <= String.length s)%nat.
Proof.
  revert skip. induction s as [|c s IH]; intros skip; [done|].
  cbn [reCopyright_ReplaceAll_from].
  assert (Hs : (String.length s <= String.length (String c s))%nat)
    by (simpl; lia).
  destruct skip as [|k]; [|by etrans; [apply IH|]].
  destruct (reCopyright_match (String c s)); [by etrans; [apply IH|]|].
  specialize (IH 0%nat). simpl. lia.
Qed.

Lemma ToLower_length (s : string) :
  String.length (ToLower s) = String.length s.
Proof. induction s as [|c s IH]; [reflexivity|]. simpl. by rewrite IH. Qed.


(** ** More on the locator and on the common prefix *)

Lemma Clean_nonempty (path : string) : Clean path <> "".
Proof.
  unfold Clean. destruct (is_rooted path); [done|].
  by destruct (String.eqb_spec (Join (cleanElems false [] (Split path))) "").
Qed.

Lemma filepath_Join_nonempty (path name : string) :
  name <> "" -> filepath_Join [path; name] <> "".
Proof.
  intros Hname. cbn [filepath_Join].
  destruct (String.eqb_spec path "") as [_|_]; [|apply Clean_nonempty].
  destruct (String.eqb_spec name "") as [|_]; [done|apply Clean_nonempty].
Qed.

Lemma licenseFiles_nonempty (fis : list FileInfo) :
  Forall (fun name => name <> "") (licenseFiles fis).
Proof.
  apply Forall_forall. intros name Hin. unfold licenseFiles in Hin.
  apply list_elem_of_fmap in Hin as (fi & -> & Hfi).
  apply list_elem_of_In, filter_In in Hfi as [_ Hfi].
  apply andb_true_iff in Hfi as [_ Hscore].
  intros Hn. rewrite Hn in Hscore. by vm_compute in Hscore.
Qed.

Lemma findLicensesFrom_paths (fuel : nat) (fs : FileSystem)
  (root path : string) (paths : list string) (err : option string) :
  findLicensesFrom fuel fs root path = Some (paths, err) ->
  paths = [""]
  \/ (err = None /\ paths <> [] /\ Forall (fun p => p <> "") paths).
Proof.
  revert path. induction fuel as [|fuel IH]; intros path; simpl.
  - destruct (String.eqb path "."); [|done]. intros [= <- <-]. by left.
  - destruct (String.eqb path "."); [intros [= <- <-]; by left|].
    destruct (fs (dirOf root path)) as [fis|msg];
      [|intros [= <- <-]; by left].
    destruct (viableNames path fis) as [|n ns] eqn:E; [apply IH|].
    intros [= <- <-]. right. split; [done|]. split; [done|].
    rewrite <- E, viableNames_eq. apply Forall_fmap.
    eapply Forall_impl; [apply licenseFiles_nonempty|].
    intros name Hname. by apply filepath_Join_nonempty.
Qed.

(** X7: [findLicenses] never returns an empty list: it returns the empty
    path alone, and this is all it returns with an error, or one or more
    paths none of which is empty, without error. *)
Theorem findLicenses_paths (fuel : nat) (fs : FileSystem) (info : PkgInfo)
  (paths : list string) (err : option string) :
  findLicenses fuel fs info = Some (paths, err) ->
  paths = [""]
  \/ (err = None /\ paths <> [] /\ Forall (fun p => p <> "") paths).
Proof. apply findLicensesFrom_paths. Qed.

Lemma findLicenses_paths_witness :
  ["colors/COPYING"; "colors/License.md"] = [""]
  \/ (@None string = None
      /\ ["colors/COPYING"; "colors/License.md"] <> []
      /\ Forall (fun p => p <> "") ["colors/COPYING"; "colors/License.md"]).
Proof.
  apply (findLicenses_paths 20 exampleTree examplePackage).
  vm_compute. reflexivity.
Defined.

Lemma isLongestCommonPrefix_elems (q : list string)
  (pss pss' : list (list string)) :
  (forall p, p ∈ pss <-> p ∈ pss') ->
  isLongestCommonPrefix q pss -> isLongestCommonPrefix q pss'.
Proof.
  intros Heq [Hpre Hmax]. split.
  - intros p Hp. by apply Hpre, Heq.
  - intros q' Hq'. apply Hmax. intros p Hp. by apply Hq', Heq.
Qed.

(** X8: the common prefix does not depend on the order of the
    licenses. *)
Theorem longestCommonPrefix_permutation (l1 l2 : list License) :
  l1 ≡ₚ l2 -> longestCommonPrefix l1 = longestCommonPrefix l2.
Proof.
  intros Hperm.
  destruct l1 as [|a l1].
  { apply Permutation_nil_l in Hperm. by subst l2. }
  assert (Hne2 : l2 <> []).
  { intros ->. by apply Permutation_nil_r in Hperm. }
  destruct (longestCommonPrefix_spec (a :: l1)) as (q1 & -> & H1); [done|].
  destruct (longestCommonPrefix_spec l2 Hne2) as (q2 & -> & H2).
  f_equal. apply (isLongestCommonPrefix_unique _ _ (importPaths l2)); [|done].
  apply (isLongestCommonPrefix_elems _ (importPaths (a :: l1))); [|done].
  intros p. unfold importPaths. by rewrite Hperm.
Qed.

Lemma longestCommonPrefix_permutation_witness :
  longestCommonPrefix [mkLicense "a/b/c" [] ""; mkLicense "a/b" [] "";
                       mkLicense "a/b/d" [] ""]
  = longestCommonPrefix [mkLicense "a/b" [] ""; mkLicense "a/b/d" [] "";
                         mkLicense "a/b/c" [] ""].
Proof.
  apply longestCommonPrefix_permutation.
  apply (Permutation_cons_append [_; _]).
Defined.

Lemma Join_app (q k : list string) :
  q <> [] -> k <> [] -> Join (q ++ k) = Join q +:+ "/" +:+ Join k.
Proof.
  intros Hq Hk. induction q as [|e q IH]; [done|].
  destruct q as [|e' q'].
  - cbn [app]. by rewrite Join_cons.
  - change ((e :: e' :: q') ++ k) with (e :: ((e' :: q') ++ k)).
    rewrite !Join_cons by done. rewrite IH by done.
    by rewrite !append_assoc.
Qed.

(** X9: a common prefix that is not empty is the import path of every
    license or an ancestor of it: the import path is the prefix, or the
    prefix followed by a slash and the rest of the path. *)
Theorem longestCommonPrefix_ancestor (licenses : list License) (l : License) :
  l ∈ licenses ->
  longestCommonPrefix licenses <> "" ->
  Package l = longestCommonPrefix licenses
  \/ exists rest,
       Package l = longestCommonPrefix licenses +:+ "/" +:+ rest.
Proof.
  intros Hin Hne.
  destruct (longestCommonPrefix_spec licenses) as (q & Hq & Hpre & _).
  { intros ->. by apply not_elem_of_nil in Hin. }
  rewrite Hq in *.
  destruct (Hpre (Split (Package l))) as [k Hk].
  { unfold importPaths. apply list_elem_of_fmap. by exists l. }
  rewrite <- (Join_Split (Package l)), Hk.
  destruct k as [|e k]; [left; by rewrite app_nil_r|].
  right. exists (Join (e :: k)). apply Join_app; [|done].
  intros ->. by apply Hne.
Qed.

Lemma longestCommonPrefix_ancestor_witness :
  "a/b/c/d" = longestCommonPrefix [mkLicense "a/b/c/d" [] "";
                                   mkLicense "a/b/x" [] ""]
  \/ exists rest,
       "a/b/c/d" = longestCommonPrefix [mkLicense "a/b/c/d" [] "";
                                        mkLicense "a/b/x" [] ""]
                   +:+ "/" +:+ rest.
Proof.
  apply (longestCommonPrefix_ancestor
           [mkLicense "a/b/c/d" [] ""; mkLicense "a/b/x" [] ""]
           (mkLicense "a/b/c/d" [] "")).
  - apply list_elem_of_here.
  - vm_compute. discriminate.
Defined.

(** X10: licenses that all have the same import path, and so a single
    license, have this import path as their common prefix. *)
Theorem longestCommonPrefix_same (licenses : list License) (p : string) :
  licenses <> [] ->
  Forall (fun l => Package l = p) licenses ->
  longestCommonPrefix licenses = p.
Proof.
  intros Hne Hall.
  destruct (longestCommonPrefix_spec licenses Hne) as (q & -> & Hq).
  rewrite <- (Join_Split p). f_equal.
  apply (isLongestCommonPrefix_unique _ _ (importPaths licenses)); [done|].
  assert (Hp : forall x, x ∈ importPaths licenses -> x = Split p).
  { intros x (l & -> & Hl)%list_elem_of_fmap.
    by rewrite (proj1 (Forall_forall _ _) Hall l Hl). }
  split.
  - intros x Hx. by rewrite (Hp x Hx).
  - intros q' Hq'. destruct licenses as [|l ls]; [done|].
    apply Hq'. unfold importPaths. rewrite fmap_cons.
    apply Forall_cons in Hall as [-> _]. apply list_elem_of_here.
Qed.

Lemma longestCommonPrefix_same_witness :
  longestCommonPrefix [mkLicense "a//b/" [] ""] = "a//b/".
Proof.
  apply longestCommonPrefix_same; [done|].
  apply List.Forall_cons; [reflexivity|apply Forall_nil_2].
Defined.

(** ** More on the grouping: [groupLicenses] *)

(** The second loop does not panic, and leaves no empty group. *)
Lemma mergeGroup_values (l : list (string * list License))
  (acc : gmap string (list License)) :
  (forall k v, acc !! k = Some v -> v <> []) ->
  (exists msg, foldl mergeGroup (Return acc) l = Failure msg)
  \/ exists acc', foldl mergeGroup (Return acc) l = Return acc'
                  /\ forall k v, acc' !! k = Some v -> v <> [].
Proof.
  revert acc. induction l as [|[k0 v0] l IH]; intros acc Hacc.
  - right. by exists acc.
  - simpl. destruct v0 as [|l0 [|l1 rest]]; [by apply IH | by apply IH |].
    destruct (String.eqb (longestCommonPrefix (l0 :: l1 :: rest)) "").
    + left. eexists. apply mergeGroup_Failure.
    + apply IH. intros k v.
      destruct (decide (k0 = k)) as [->|Hne].
      * rewrite lookup_insert_eq. by intros [= <-].
      * rewrite lookup_insert_ne by done. apply Hacc.
Qed.

Lemma groupLicenses_returns_or_fails (licenses : list License) :
  (exists kept, groupLicenses licenses = Return kept)
  \/ exists msg, groupLicenses licenses = Failure msg.
Proof.
  unfold groupLicenses, mergeGroups.
  destruct (mergeGroup_values (map_to_list (collectPaths licenses))
              (collectPaths licenses)) as [[msg ->]|(paths & -> & Hv)].
  - intros k v Hkv. by apply collectPaths_lookup in Hkv as (_ & Hne & _).
  - right. by exists msg.
  - destruct (keepLicense_succeeds licenses (mkKeeping [] paths ∅) Hv)
      as [st ->]. left. by eexists.
Qed.

(** X11: [groupLicenses] does not panic: the first element of a group is
    only taken of a group that has one. *)
Theorem groupLicenses_no_panic (licenses : list License) :
  groupLicenses licenses <> Panic.
Proof.
  by destruct (groupLicenses_returns_or_fails licenses)
    as [[kept ->]|[msg ->]].
Qed.

Lemma collectPaths_no_paths (licenses : list License)
  (m : gmap string (list License)) :
  Forall (fun l => Forall (fun li => Path li = "") (LicenseInfos l)) licenses ->
  foldl (fun paths l => foldl (claimPath l) paths (LicenseInfos l)) m licenses
  = m.
Proof.
  induction 1 as [|l ls Hl _ IH]; [done|]. simpl.
  replace (foldl (claimPath l) m (LicenseInfos l)) with m; [done|].
  clear IH. induction Hl as [|li infos Hli _ IH]; [done|]. simpl.
  unfold claimPath at 2. by rewrite Hli.
Qed.

Lemma keepInfo_no_paths (l : License) (infos : list LicenseInfo)
  (st : Keeping) :
  Forall (fun li => Path li = "") infos ->
  foldl (keepInfo l) (Return st) infos
  = Return (mkKeeping (kept st ++ replicate (length infos) l)
              (k_paths st) (seen st)).
Proof.
  intros H. revert st. induction H as [|li infos Hli _ IH]; intros st.
  - simpl. rewrite app_nil_r. by destruct st.
  - simpl. rewrite Hli. simpl. rewrite IH. simpl.
    by rewrite <- app_assoc.
Qed.

Lemma keepLicense_no_paths (licenses : list License) (st : Keeping) :
  Forall (fun l => Forall (fun li => Path li = "") (LicenseInfos l)) licenses ->
  foldl keepLicense (Return st) licenses
  = Return (mkKeeping
              (kept st ++ (licenses ≫= fun l =>
                 replicate (Nat.max 1 (length (LicenseInfos l))) l))
              (k_paths st) (seen st)).
Proof.
  intros H. revert st. induction H as [|l ls Hl _ IH]; intros st.
  - simpl. rewrite app_nil_r. by destruct st.
  - cbn [foldl]. unfold keepLicense at 2.
    rewrite bind_cons.
    destruct (LicenseInfos l) as [|li infos] eqn:E.
    + rewrite IH. simpl. by rewrite <- app_assoc.
    + rewrite (keepInfo_no_paths l (li :: infos) st Hl), IH. simpl.
      by rewrite <- app_assoc.
Qed.

(** X12: licenses that have no license path are left as they are: when
    every license info has an empty path, [groupLicenses] returns the
    licenses in their order, a license with no license info once and a
    license with license infos once for each of them. *)
Theorem groupLicenses_no_paths (licenses : list License) :
  Forall (fun l => Forall (fun li => Path li = "") (LicenseInfos l)) licenses ->
  groupLicenses licenses
  = Return (licenses ≫= fun l =>
              replicate (Nat.max 1 (length (LicenseInfos l))) l).
Proof.
  intros H. unfold groupLicenses, mergeGroups, collectPaths.
  rewrite (collectPaths_no_paths licenses ∅ H).
  rewrite map_to_list_empty. simpl.
  by rewrite (keepLicense_no_paths licenses _ H).
Qed.

Lemma groupLicenses_no_paths_witness :
  groupLicenses [mkLicense "a" [noLicenseInfo; noLicenseInfo] "";
                 mkLicense "b" [] "broken"; mkLicense "c" [noLicenseInfo] ""]
  = Return [mkLicense "a" [noLicenseInfo; noLicenseInfo] "";
            mkLicense "a" [noLicenseInfo; noLicenseInfo] "";
            mkLicense "b" [] "broken"; mkLicense "c" [noLicenseInfo] ""].
Proof.
  apply (groupLicenses_no_paths
           [mkLicense "a" [noLicenseInfo; noLicenseInfo] "";
            mkLicense "b" [] "broken"; mkLicense "c" [noLicenseInfo] ""]).
  repeat constructor.
Defined.

(** What the third loop keeps of licenses that all have a path: entries
    of distinct names, all of which are in [seen]. *)
Lemma keepInfo_distinct (l : License) (infos : list LicenseInfo)
  (st st' : Keeping) :
  Forall (fun li => Path li <> "") infos ->
  NoDup (Package <$> kept st) ->
  (forall x, x ∈ kept st -> Package x ∈ seen st) ->
  foldl (keepInfo l) (Return st) infos = Return st' ->
  NoDup (Package <$> kept st')
  /\ forall x, x ∈ kept st' -> Package x ∈ seen st'.
Proof.
  intros H. revert st. induction H as [|li infos Hli _ IH]; intros st Hnd Hseen.
  - simpl. by intros [= <-].
  - simpl. destruct (String.eqb_spec (Path li) "") as [|_]; [done|].
    destruct (k_paths st !! Path li) as [[|v0 v]|].
    + by rewrite keepInfo_Panic.
    + destruct (decide (Package v0 ∈ seen st)) as [|Hnew]; [by apply IH|].
      apply IH; simpl.
      * rewrite fmap_app. apply NoDup_app. split; [done|].
        split; [|apply NoDup_singleton].
        intros p (x & -> & Hx)%list_elem_of_fmap Hp.
        apply list_elem_of_singleton in Hp.
        apply Hnew. rewrite <- Hp. by apply Hseen.
      * intros x [Hx|Hx%list_elem_of_singleton]%elem_of_app.
        -- apply elem_of_union. right. by apply Hseen.
        -- subst x. apply elem_of_union. left. by apply elem_of_singleton.
    + by apply IH.
Qed.

Lemma keepLicense_distinct (licenses : list License) (st st' : Keeping) :
  Forall (fun l => LicenseInfos l <> []
                   /\ Forall (fun li => Path li <> "") (LicenseInfos l))
         licenses ->
  NoDup (Package <$> kept st) ->
  (forall x, x ∈ kept st -> Package x ∈ seen st) ->
  foldl keepLicense (Return st) licenses = Return st' ->
  NoDup (Package <$> kept st').
Proof.
  intros H. revert st. induction H as [|l ls [Hne Hl] _ IH]; intros st Hnd Hseen.
  - simpl. by intros [= <-].
  - simpl. destruct (LicenseInfos l) as [|li infos] eqn:E; [done|].
    destruct (foldl (keepInfo l) (Return st) (li :: infos))
      as [st1|msg|] eqn:E1; simpl in E1; rewrite E1.
    + destruct (keepInfo_distinct l (li :: infos) st st1 Hl Hnd Hseen E1)
        as [Hnd1 Hseen1].
      by apply IH.
    + by rewrite keepLicense_Failure.
    + by rewrite keepLicense_Panic.
Qed.

(** X13: when every license has a license info and every license info
    has a path, the entries [groupLicenses] returns have pairwise
    distinct package names. *)
Theorem groupLicenses_distinct_names (licenses kept : list License) :
  Forall (fun l => LicenseInfos l <> []
                   /\ Forall (fun li => Path li <> "") (LicenseInfos l))
         licenses ->
  groupLicenses licenses = Return kept ->
  NoDup (Package <$> kept).
Proof.
  intros H. unfold groupLicenses.
  destruct (mergeGroups (collectPaths licenses)) as [paths| |]; [|done|done].
  destruct (foldl keepLicense _ licenses) as [st| |] eqn:Hk; [|done|done].
  intros [= <-].
  apply (keepLicense_distinct licenses (mkKeeping [] paths ∅) st H);
    [apply NoDup_nil_2| |done].
  intros x Hx. by apply not_elem_of_nil in Hx.
Qed.

Lemma groupLicenses_distinct_names_witness :
  NoDup (Package <$>
           [mkLicense "a" [mkLicenseInfo "a/LICENSE" (Fin 1) None [] []] ""]).
Proof.
  apply (groupLicenses_distinct_names
           [mkLicense "a/x" [mkLicenseInfo "a/LICENSE" (Fin 1) None [] []] "";
            mkLicense "a/y" [mkLicenseInfo "a/LICENSE" (Fin 1) None [] []] "";
            mkLicense "a" [mkLicenseInfo "a/COPYING" (Fin 1) None [] []] ""]).
  - repeat constructor; done.
  - vm_compute. reflexivity.
Defined.

Lemma groupLicenses_entries (licenses kept : list License)
  (l' : License) :
  groupLicenses licenses = Return kept -> l' ∈ kept ->
  exists l, l ∈ licenses /\ LicenseInfos l' = LicenseInfos l
            /\ Err l' = Err l.
Proof.
  intros Hret Hin. unfold groupLicenses in Hret.
  destruct (mergeGroups (collectPaths licenses)) as [paths| |] eqn:Hm;
    [|done|done].
  destruct (foldl keepLicense _ licenses) as [st| |] eqn:Hk; [|done|done].
  injection Hret as <-.
  set (Q := fun x : License =>
              exists l, l ∈ licenses /\ LicenseInfos x = LicenseInfos l
                        /\ Err x = Err l).
  assert (Hin' : keepingIn Q st).
  { eapply keepLicense_keeps; [| |exact Hk].
    - apply Forall_forall. intros l Hl. by exists l.
    - split; [constructor|]. simpl. intros k v Hv.
      apply Forall_forall. intros x Hx.
      assert (Hg : groupValue (collectPaths licenses) k v).
      { eapply (mergeGroup_returns (collectPaths licenses));
          [| |exact Hm|exact Hv].
        + intros [k' v'] Hkv. by apply elem_of_map_to_list.
        + intros k' v' Hkv. by left. }
      destruct Hg as [Hg|(l0 & rest & Hg & _ & _ & ->)].
      + apply collectPaths_lookup in Hg as (_ & _ & <-).
        apply claimants_elem in Hx as [Hx _]. by exists x.
      + apply list_elem_of_singleton in Hx as ->.
        apply collectPaths_lookup in Hg as (_ & _ & Hcl).
        exists l0. split; [|done].
        assert (H0 : l0 ∈ claimants licenses k)
          by (rewrite Hcl; apply list_elem_of_here).
        by apply claimants_elem in H0 as [? _]. }
  destruct Hin' as [Hkept _].
  by apply (proj1 (Forall_forall _ _) Hkept).
Qed.

(** X14: [groupLicenses] changes nothing but package names: every entry
    it returns has the license infos and the error of a license of the
    input. *)
Theorem groupLicenses_keeps_infos (licenses kept : list License)
  (l' : License) :
  groupLicenses licenses = Return kept -> l' ∈ kept ->
  exists l, l ∈ licenses /\ LicenseInfos l' = LicenseInfos l
            /\ Err l' = Err l.
Proof. apply groupLicenses_entries. Qed.

Lemma groupLicenses_keeps_infos_witness :
  exists l,
    l ∈ [mkLicense "a/x" [mkLicenseInfo "a/LICENSE" (Fin 1) None [] []] "";
         mkLicense "a/y" [mkLicenseInfo "a/LICENSE" (Fin 1) None [] []] ""]
    /\ LicenseInfos (mkLicense "a" [mkLicenseInfo "a/LICENSE" (Fin 1) None [] []] "")
       = LicenseInfos l
    /\ Err (mkLicense "a" [mkLicenseInfo "a/LICENSE" (Fin 1) None [] []] "")
       = Err l.
Proof.
  apply (groupLicenses_keeps_infos
           [mkLicense "a/x" [mkLicenseInfo "a/LICENSE" (Fin 1) None [] []] "";
            mkLicense "a/y" [mkLicenseInfo "a/LICENSE" (Fin 1) None [] []] ""]
           [mkLicense "a" [mkLicenseInfo "a/LICENSE" (Fin 1) None [] []] ""]).
  - vm_compute. reflexivity.
  - apply list_elem_of_here.
Defined.

(** ** More on the projects: [licensesToProjectAndLicenses] *)

Lemma addTruncLicense_stuck (infos : list LicenseInfo) :
  foldl addTruncLicense Panic infos = Panic.
Proof. by induction infos. Qed.

Lemma addTruncLicense_nil (infos : list LicenseInfo)
  (acc : list truncLicense) :
  allSome infos = false -> foldl addTruncLicense (Return acc) infos = Panic.
Proof.
  revert acc. induction infos as [|li infos IH]; intros acc; [done|].
  simpl. destruct (li_Template li) as [t|].
  - simpl. intros H. destruct (String.eqb (Title t) ""); by apply IH.
  - intros _. apply addTruncLicense_stuck.
Qed.

Lemma allNil_spec (infos : list LicenseInfo) :
  allNil infos = true <-> Forall (fun li => li_Template li = None) infos.
Proof.
  unfold allNil. rewrite forallb_forall, Forall_forall.
  split; intros H li Hli.
  - apply list_elem_of_In, H in Hli. by destruct (li_Template li).
  - apply list_elem_of_In, H in Hli. by rewrite Hli.
Qed.

Lemma allSome_spec (infos : list LicenseInfo) :
  allSome infos = true <-> Forall (fun li => li_Template li <> None) infos.
Proof.
  unfold allSome. rewrite forallb_forall, Forall_forall.
  split; intros H li Hli.
  - apply list_elem_of_In, H in Hli. by destruct (li_Template li).
  - apply list_elem_of_In, H in Hli. by destruct (li_Template li).
Qed.

Lemma countNil_allNil (infos : list LicenseInfo) :
  (length infos =? countNil infos)%nat = allNil infos.
Proof.
  apply eq_true_iff_eq. rewrite Nat.eqb_eq, allNil_spec, <- countNil_all.
  split; by intros ->.
Qed.

Lemma projectStep_outcome (c e : list projectAndLicenses) (l : License) :
  if mixedTemplates l
  then projectStep (Return (c, e)) l = Panic
  else exists c' e',
         projectStep (Return (c, e)) l = Return (c', e')
         /\ (length c' + length e' = S (length c + length e))%nat.
Proof.
  unfold mixedTemplates, projectStep. rewrite countNil_allNil.
  destruct (String.eqb (Err l) ""); simpl.
  2:{ eexists _, _. split; [done|]. rewrite length_app. simpl. lia. }
  destruct (allNil (LicenseInfos l)); simpl.
  { eexists _, _. split; [done|]. rewrite length_app. simpl. lia. }
  destruct (allSome (LicenseInfos l)) eqn:E; simpl.
  - apply allSome_spec in E.
    rewrite (addTruncLicense_matched _ [] E).
    eexists _, _. split; [done|]. rewrite length_app. simpl. lia.
  - by rewrite (addTruncLicense_nil _ [] E).
Qed.

Lemma projectStep_fold (licenses : list License)
  (c e : list projectAndLicenses) :
  (Exists (fun l => mixedTemplates l = true) licenses
   /\ foldl projectStep (Return (c, e)) licenses = Panic)
  \/ (Forall (fun l => mixedTemplates l = false) licenses
      /\ exists c' e',
           foldl projectStep (Return (c, e)) licenses = Return (c', e')
           /\ (length c' + length e'
               = length c + length e + length licenses)%nat).
Proof.
  revert c e. induction licenses as [|l ls IH]; intros c e.
  - right. split; [done|]. exists c, e. split; [done|]. simpl. lia.
  - change (foldl projectStep (Return (c, e)) (l :: ls))
      with (foldl projectStep (projectStep (Return (c, e)) l) ls).
    pose proof (projectStep_outcome c e l) as Hl.
    destruct (mixedTemplates l) eqn:El.
    + left. split; [by apply Exists_cons_hd|].
      rewrite Hl. apply projectStep_stuck_Panic.
    + destruct Hl as (c' & e' & -> & Hlen).
      destruct (IH c' e') as [[Hex Hp]|(Hall & c2 & e2 & Hr & Hlen2)].
      * left. split; [by apply Exists_cons_tl|done].
      * right. split; [by constructor|]. exists c2, e2.
        split; [done|]. simpl. lia.
Qed.

(** X15: [licensesToProjectAndLicenses] panics exactly when a license
    without error has license infos with a template and license infos
    without; otherwise it returns, and each license is in one of the two
    lists it returns. *)
Theorem licensesToProjectAndLicenses_outcome (licenses : list License) :
  (licensesToProjectAndLicenses licenses = Panic
   <-> Exists (fun l => mixedTemplates l = true) licenses)
  /\ (Forall (fun l => mixedTemplates l = false) licenses
      <-> exists c e,
            licensesToProjectAndLicenses licenses = Return (c, e)
            /\ (length c + length e = length licenses)%nat).
Proof.
  unfold licensesToProjectAndLicenses.
  destruct (projectStep_fold licenses [] [])
    as [[Hex ->]|(Hall & c & e & -> & Hlen)].
  - split; [done|]. split; [|by intros (c & e & H & _)].
    intros Hall. exfalso. apply Exists_exists in Hex as (l & Hl & Hm).
    rewrite Forall_forall in Hall. rewrite (Hall l Hl) in Hm. done.
  - split.
    + split; [done|]. intros Hex. exfalso.
      apply Exists_exists in Hex as (l & Hl & Hm).
      rewrite Forall_forall in Hall. rewrite (Hall l Hl) in Hm. done.
    + split; [|done]. intros _. exists c, e. split; [done|].
      simpl in Hlen. lia.
Qed.

(** ** More on the overrides: [pkgsToLicenses] *)

Lemma addOverrideName_fold (project : string) (tls : list truncLicense)
  (m : gmap string (list string)) :
  (forall p v, m !! p = Some v -> v <> []) ->
  (forall p v, foldl (addOverrideName project) m tls !! p = Some v -> v <> [])
  /\ forall p,
       default [] (foldl (addOverrideName project) m tls !! p)
       = default [] (m !! p)
         ++ (if String.eqb project p then Name <$> tls else []).
Proof.
  revert m. induction tls as [|tl tls IH]; intros m Hm.
  - split; [done|]. intros p. simpl.
    destruct (String.eqb project p); by rewrite app_nil_r.
  - simpl.
    destruct (IH (addOverrideName project m tl)) as [H1 H2].
    { unfold addOverrideName. intros p v.
      destruct (decide (project = p)) as [->|Hne].
      - rewrite lookup_insert_eq. intros [= <-]. by destruct (default [] _).
      - rewrite lookup_insert_ne by done. apply Hm. }
    split; [done|]. intros p. rewrite H2. unfold addOverrideName.
    destruct (String.eqb_spec project p) as [->|Hne].
    + rewrite lookup_insert_eq. simpl. by rewrite <- app_assoc.
    + rewrite lookup_insert_ne by done. done.
Qed.

Lemma overrideNames_cons (pl : projectAndLicenses)
  (overrides : list projectAndLicenses) (p : string) :
  overrideNames (pl :: overrides) p
  = (if String.eqb (Project pl) p then Name <$> Licenses pl else [])
    ++ overrideNames overrides p.
Proof. reflexivity. Qed.

Lemma overrideMap_fold (overrides : list projectAndLicenses)
  (m : gmap string (list string)) :
  (forall p v, m !! p = Some v -> v <> []) ->
  (forall p v,
     foldl (fun fplm pl =>
              foldl (addOverrideName (Project pl)) fplm (Licenses pl))
           m overrides !! p = Some v -> v <> [])
  /\ forall p,
       default [] (foldl (fun fplm pl =>
                            foldl (addOverrideName (Project pl)) fplm
                                  (Licenses pl))
                         m overrides !! p)
       = default [] (m !! p) ++ overrideNames overrides p.
Proof.
  revert m. induction overrides as [|pl pls IH]; intros m Hm.
  - split; [done|]. intros p. simpl. by rewrite app_nil_r.
  - cbn [foldl].
    destruct (addOverrideName_fold (Project pl) (Licenses pl) m Hm)
      as [H1 H2].
    destruct (IH _ H1) as [H3 H4].
    split; [done|]. intros p. rewrite H4, H2.
    rewrite overrideNames_cons. by rewrite <- app_assoc.
Qed.

Lemma overrideMap_lookup (overrides : list projectAndLicenses)
  (project : string) :
  overrideMap overrides !! project
  = match overrideNames overrides project with
    | [] => None
    | names => Some names
    end.
Proof.
  unfold overrideMap.
  destruct (overrideMap_fold overrides ∅) as [H1 H2].
  { intros p v. by rewrite lookup_empty. }
  specialize (H2 project). rewrite lookup_empty in H2. simpl in H2.
  destruct (foldl _ ∅ overrides !! project) as [v|] eqn:E.
  - simpl in H2. rewrite <- H2. specialize (H1 _ _ E). by destruct v.
  - simpl in H2. by rewrite <- H2.
Qed.

(** X16: the map of the overrides has, for a project, the license names
    of all the entries of the override document for this project, in
    their order; a project whose entries list no license has no entry
    in the map, and a project has an entry exactly when an entry of the
    document for it lists a license. *)
Theorem overrideMap_names (overrides : list projectAndLicenses)
  (project : string) :
  overrideMap overrides !! project
  = match overrideNames overrides project with
    | [] => None
    | names => Some names
    end
  /\ (is_Some (overrideMap overrides !! project)
      <-> exists pl, pl ∈ overrides /\ Project pl = project
                     /\ Licenses pl <> []).
Proof.
  split; [apply overrideMap_lookup|].
  rewrite overrideMap_lookup. unfold overrideNames.
  split.
  - intros Hsome.
    destruct (overrides ≫= _) as [|n names] eqn:E; [by destruct Hsome|].
    assert (Hn : n ∈ overrides ≫= fun pl =>
                   if String.eqb (Project pl) project
                   then Name <$> Licenses pl else [])
      by (rewrite E; apply list_elem_of_here).
    apply list_elem_of_bind in Hn as (pl & Hn & Hpl).
    exists pl. split; [done|].
    destruct (String.eqb_spec (Project pl) project) as [Hp|_];
      [|by apply not_elem_of_nil in Hn].
    split; [done|]. intros Hl. rewrite Hl in Hn.
    by apply not_elem_of_nil in Hn.
  - intros (pl & Hpl & Hp & Hl).
    destruct (Licenses pl) as [|tl tls] eqn:El; [done|].
    assert (Hn : Name tl ∈ overrides ≫= fun pl =>
                   if String.eqb (Project pl) project
                   then Name <$> Licenses pl else []).
    { apply list_elem_of_bind. exists pl. split; [|done].
      rewrite (proj2 (String.eqb_eq _ _) Hp), El. apply list_elem_of_here. }
    destruct (overrides ≫= _); [by apply not_elem_of_nil in Hn|by eexists].
Qed.

Lemma appendForced_eq (tls : list truncLicense) (l : list string) :
  appendForced tls l
  = tls ++ ((fun n => mkTruncLicense n (Fin 1)) <$> l).
Proof.
  unfold appendForced. revert tls.
  induction l as [|n l IH]; intros tls; simpl; [by rewrite app_nil_r|].
  by rewrite IH, <- app_assoc.
Qed.

(** An entry that forces the names [names] on the project [p]. *)
Lemma forced_entry (p : string) (tls : list truncLicense)
  (names : list string) :
  Forall (fun tl => Confidence tl = Fin 1) tls ->
  Forall (fun tl => Confidence tl = Fin 1) (appendForced tls names)
  /\ forall n, n ∈ names ->
       mkTruncLicense n (Fin 1) ∈ appendForced tls names.
Proof.
  intros H. rewrite appendForced_eq. split.
  - apply Forall_app. split; [done|]. apply Forall_fmap.
    by apply Forall_forall.
  - intros n Hn. apply elem_of_app. right.
    apply list_elem_of_fmap. by exists n.
Qed.

Lemma overrideDetected_fplm (c : list projectAndLicenses) (st : Merging) :
  m_fplm (foldl overrideDetected st c)
  = foldl (fun m pl => delete (Project pl) m) (m_fplm st) c.
Proof.
  revert st. induction c as [|pl c IH]; intros st; [done|].
  simpl. rewrite IH. f_equal. unfold overrideDetected.
  destruct (m_fplm st !! Project pl) eqn:E; simpl; [done|].
  by rewrite delete_id.
Qed.

Lemma remaining_lookup (c : list projectAndLicenses)
  (m : gmap string (list string)) (p : string) :
  foldl (fun m pl => delete (Project pl) m) m c !! p
  = if decide (p ∈ Project <$> c) then None else m !! p.
Proof.
  revert m. induction c as [|pl c IH]; intros m; [done|].
  cbn [foldl]. rewrite IH, fmap_cons.
  destruct (decide (p ∈ Project <$> c)) as [Hin|Hnin].
  - rewrite decide_True; [done|]. by apply list_elem_of_further.
  - destruct (decide (Project pl = p)) as [<-|Hne].
    + rewrite lookup_delete_eq. rewrite decide_True; [done|].
      apply list_elem_of_here.
    + rewrite lookup_delete_ne by done. rewrite decide_False; [done|].
      intros [?|?]%elem_of_cons; done.
Qed.

Lemma forceAdd_fplm (entries : list (string * list string)) (st : Merging) :
  m_fplm (foldl forceAdd st entries) = m_fplm st.
Proof.
  revert st. induction entries as [|en entries IH]; intros st; [done|].
  simpl. by rewrite IH.
Qed.

(** X17: an error is reported after the overrides when its project has
    no license name in the override document, and also when its project
    is one of the detected projects; the errors that are reported are in
    the order they had. *)
Theorem mergeOverrides_errors (overrides c e : list projectAndLicenses) :
  (mergeOverrides overrides c e).2
  = filter (fun pl => overrideNames overrides (Project pl) = []
                      \/ Project pl ∈ Project <$> c) e.
Proof.
  unfold mergeOverrides. cbn [snd].
  apply list_filter_iff. intros pl.
  rewrite forceAdd_fplm. cbn [m_fplm].
  rewrite overrideDetected_fplm. cbn [m_fplm].
  rewrite remaining_lookup, overrideMap_lookup.
  destruct (decide (Project pl ∈ Project <$> c)) as [Hin|Hnin].
  - split; [by right|done].
  - destruct (overrideNames overrides (Project pl)) eqn:E.
    + split; [by left|done].
    + split; [done|]. by intros [?|?].
Qed.

(** The loop over the detected licenses. *)
Lemma overrideDetected_fold (c : list projectAndLicenses) (st : Merging) :
  Forall (fun tl => Confidence tl = Fin 1) (m_tls st) ->
  exists det,
    m_pls (foldl overrideDetected st c) = m_pls st ++ det
    /\ Project <$> det = Project <$> c
    /\ Forall (fun tl => Confidence tl = Fin 1)
              (m_tls (foldl overrideDetected st c))
    /\ (forall i pl, c !! i = Some pl -> m_fplm st !! Project pl = None ->
                     det !! i = Some pl)
    /\ (forall p names,
          m_fplm st !! p = Some names -> p ∈ Project <$> c ->
          exists pl, pl ∈ det /\ Project pl = p /\ Error pl = ""
                     /\ Forall (fun tl => Confidence tl = Fin 1) (Licenses pl)
                     /\ forall n, n ∈ names ->
                          mkTruncLicense n (Fin 1) ∈ Licenses pl).
Proof.
  revert st. induction c as [|pl c IH]; intros st Htls.
  - exists []. simpl. rewrite app_nil_r. repeat split; try done.
    intros p names _ Hp. by apply not_elem_of_nil in Hp.
  - cbn [foldl].
    destruct (m_fplm st !! Project pl) as [l|] eqn:E.
    + destruct (forced_entry (Project pl) (m_tls st) l Htls) as [Hf1 Hf2].
      destruct (IH (overrideDetected st pl)) as (det & Hpls & Hproj & Hc & Hkeep & Hforce).
      { unfold overrideDetected. by rewrite E. }
      assert (Hst : overrideDetected st pl
                    = mkMerging (appendForced (m_tls st) l)
                        (delete (Project pl) (m_fplm st))
                        (m_pls st ++ [mkProjectAndLicenses (Project pl)
                                        (appendForced (m_tls st) l) ""]))
        by (unfold overrideDetected; by rewrite E).
      exists (mkProjectAndLicenses (Project pl) (appendForced (m_tls st) l) ""
              :: det).
      split; [rewrite Hpls, Hst; simpl; by rewrite <- app_assoc|].
      split; [by rewrite !fmap_cons, Hproj|].
      split; [done|]. split.
      * intros [|i] pl' Hi Hnone.
        -- simpl in Hi. injection Hi as <-. congruence.
        -- simpl in Hi. simpl. apply Hkeep; [done|]. rewrite Hst. simpl.
           destruct (decide (Project pl = Project pl')) as [->|Hne].
           ++ by rewrite lookup_delete_eq.
           ++ by rewrite lookup_delete_ne.
      * intros p names Hp Hin.
        destruct (decide (Project pl = p)) as [<-|Hne].
        -- rewrite E in Hp. injection Hp as <-.
           eexists. split; [apply list_elem_of_here|]. by simpl.
        -- rewrite fmap_cons in Hin.
           apply elem_of_cons in Hin as [?|Hin]; [done|].
           destruct (Hforce p names) as (pl' & Hpl' & H'); [|done|].
           ++ rewrite Hst. simpl. by rewrite lookup_delete_ne.
           ++ exists pl'. split; [by apply list_elem_of_further|done].
    + assert (Hst : overrideDetected st pl
                    = mkMerging (m_tls st) (m_fplm st) (m_pls st ++ [pl]))
        by (unfold overrideDetected; by rewrite E).
      destruct (IH (overrideDetected st pl)) as (det & Hpls & Hproj & Hc & Hkeep & Hforce).
      { by rewrite Hst. }
      exists (pl :: det).
      split; [rewrite Hpls, Hst; simpl; by rewrite <- app_assoc|].
      split; [by rewrite !fmap_cons, Hproj|].
      split; [done|]. split.
      * intros [|i] pl' Hi Hnone.
        -- simpl in Hi. by injection Hi as <-.
        -- simpl in Hi. simpl. apply Hkeep; [done|]. by rewrite Hst.
      * intros p names Hp Hin.
        destruct (decide (Project pl = p)) as [<-|Hne]; [congruence|].
        rewrite fmap_cons in Hin.
        apply elem_of_cons in Hin as [?|Hin]; [done|].
        destruct (Hforce p names) as (pl' & Hpl' & H'); [|done|].
        -- by rewrite Hst.
        -- exists pl'. split; [by apply list_elem_of_further|done].
Qed.

(** The loop over the overrides that are left. *)
Lemma forceAdd_fold (entries : list (string * list string)) (st : Merging) :
  Forall (fun tl => Confidence tl = Fin 1) (m_tls st) ->
  exists forced,
    m_pls (foldl forceAdd st entries) = m_pls st ++ forced
    /\ Project <$> forced = entries.*1
    /\ forall p names, (p, names) ∈ entries ->
         exists pl, pl ∈ forced /\ Project pl = p /\ Error pl = ""
                    /\ Forall (fun tl => Confidence tl = Fin 1) (Licenses pl)
                    /\ forall n, n ∈ names ->
                         mkTruncLicense n (Fin 1) ∈ Licenses pl.
Proof.
  revert st. induction entries as [|[p0 l0] entries IH]; intros st Htls.
  - exists []. simpl. rewrite app_nil_r. repeat split; try done.
    intros p names Hp. by apply not_elem_of_nil in Hp.
  - cbn [foldl].
    destruct (forced_entry p0 (m_tls st) l0 Htls) as [Hf1 Hf2].
    destruct (IH (forceAdd st (p0, l0))) as (forced & Hpls & Hproj & Hforce).
    { done. }
    exists (mkProjectAndLicenses p0 (appendForced (m_tls st) l0) "" :: forced).
    split; [rewrite Hpls; simpl; by rewrite <- app_assoc|].
    split; [by rewrite !fmap_cons, Hproj|].
    intros p names [Heq|Hin]%elem_of_cons.
    + injection Heq as -> ->.
      eexists. split; [apply list_elem_of_here|]. by simpl.
    + destruct (Hforce p names Hin) as (pl' & Hpl' & H').
      exists pl'. split; [by apply list_elem_of_further|done].
Qed.

(** X18: the overrides neither remove nor move a detected project: the
    list [pkgsToLicenses] returns starts with one entry for each detected
    project, in their order, and an entry whose project has no override
    is the detected one; after them comes one entry for each project of
    the overrides that is not a detected one. *)
Theorem mergeOverrides_detected (overrides c e : list projectAndLicenses) :
  exists det forced,
    (mergeOverrides overrides c e).1 = det ++ forced
    /\ Project <$> det = Project <$> c
    /\ (forall i pl, c !! i = Some pl ->
          overrideNames overrides (Project pl) = [] -> det !! i = Some pl)
    /\ NoDup (Project <$> forced)
    /\ forall p, p ∈ Project <$> forced
                 <-> overrideNames overrides p <> []
                     /\ p ∉ Project <$> c.
Proof.
  unfold mergeOverrides. cbn [fst].
  set (st0 := mkMerging [] (overrideMap overrides) []).
  destruct (overrideDetected_fold c st0) as (det & Hpls & Hproj & Hc & Hkeep & _);
    [constructor|].
  set (st1 := foldl overrideDetected st0 c) in *.
  destruct (forceAdd_fold (map_to_list (m_fplm st1))
              (mkMerging [] (m_fplm st1) (m_pls st1)))
    as (forced & Hpls2 & Hproj2 & _); [constructor|].
  exists det, forced. rewrite Hpls2. cbn [m_pls]. rewrite Hpls.
  split; [done|]. split; [done|]. split.
  { intros i pl Hi Hnames. apply Hkeep; [done|].
    unfold st0. cbn [m_fplm]. by rewrite overrideMap_lookup, Hnames. }
  rewrite Hproj2. split; [apply NoDup_fst_map_to_list|].
  intros p. rewrite list_elem_of_fmap. split.
  - intros ([p' names] & -> & Hin). apply elem_of_map_to_list in Hin.
    simpl. unfold st1 in Hin.
    rewrite overrideDetected_fplm, remaining_lookup in Hin.
    destruct (decide (p' ∈ Project <$> c)); [done|].
    split; [|done]. unfold st0 in Hin. cbn [m_fplm] in Hin.
    rewrite overrideMap_lookup in Hin.
    by destruct (overrideNames overrides p').
  - intros [Hnames Hnin].
    exists (p, overrideNames overrides p). split; [done|].
    apply elem_of_map_to_list. unfold st1.
    rewrite overrideDetected_fplm, remaining_lookup.
    rewrite decide_False by done. unfold st0. cbn [m_fplm].
    rewrite overrideMap_lookup. by destruct (overrideNames overrides p).
Qed.

(** X19: every project for which the override document lists a license
    name has an entry in the list [pkgsToLicenses] returns; this entry
    has no error, all its licenses have the confidence 1, and the names
    the document lists for the project are among them. *)
Theorem mergeOverrides_forced (overrides c e : list projectAndLicenses)
  (project : string) :
  overrideNames overrides project <> [] ->
  exists pl,
    pl ∈ (mergeOverrides overrides c e).1
    /\ Project pl = project /\ Error pl = ""
    /\ Forall (fun tl => Confidence tl = Fin 1) (Licenses pl)
    /\ forall n, n ∈ overrideNames overrides project ->
         mkTruncLicense n (Fin 1) ∈ Licenses pl.
Proof.
  intros Hnames. unfold mergeOverrides. cbn [fst].
  set (st0 := mkMerging [] (overrideMap overrides) []).
  assert (Hmap : m_fplm st0 !! project
                 = Some (overrideNames overrides project)).
  { unfold st0. cbn [m_fplm]. rewrite overrideMap_lookup.
    by destruct (overrideNames overrides project). }
  destruct (overrideDetected_fold c st0) as (det & Hpls & _ & _ & _ & Hforce);
    [constructor|].
  set (st1 := foldl overrideDetected st0 c) in *.
  destruct (forceAdd_fold (map_to_list (m_fplm st1))
              (mkMerging [] (m_fplm st1) (m_pls st1)))
    as (forced & Hpls2 & _ & Hforce2); [constructor|].
  rewrite Hpls2. cbn [m_pls]. rewrite Hpls.
  destruct (decide (project ∈ Project <$> c)) as [Hin|Hnin].
  - destruct (Hforce project _ Hmap Hin) as (pl & Hpl & H').
    exists pl. split; [|done]. apply elem_of_app. left.
    apply elem_of_app. by right.
  - destruct (Hforce2 project (overrideNames overrides project))
      as (pl & Hpl & H').
    + apply elem_of_map_to_list. unfold st1.
      rewrite overrideDetected_fplm, remaining_lookup.
      by rewrite decide_False.
    + exists pl. split; [|done]. apply elem_of_app. by right.
Qed.

Lemma mergeOverrides_forced_witness :
  exists pl,
    pl ∈ (mergeOverrides
            [mkProjectAndLicenses "colors/missing"
               [mkTruncLicense "override missing" NaN] "";
             mkProjectAndLicenses "colors/red"
               [mkTruncLicense "override existing" NaN] ""]
            [mkProjectAndLicenses "colors/red"
               [mkTruncLicense "MIT License" (Fin (49 # 50))] ""]
            [mkProjectAndLicenses "colors/missing" [] "some error"]).1
    /\ Project pl = "colors/missing" /\ Error pl = ""
    /\ Forall (fun tl => Confidence tl = Fin 1) (Licenses pl)
    /\ forall n,
         n ∈ overrideNames
               [mkProjectAndLicenses "colors/missing"
                  [mkTruncLicense "override missing" NaN] "";
                mkProjectAndLicenses "colors/red"
                  [mkTruncLicense "override existing" NaN] ""]
               "colors/missing" ->
         mkTruncLicense n (Fin 1) ∈ Licenses pl.
Proof.
  apply mergeOverrides_forced. vm_compute. discriminate.
Defined.

(** ** More on [truncateFloat] *)

Lemma round_half_even_close (q : Q) :
  (inject_Z (round_half_even q) - q <= 1 # 2)%Q
  /\ (q - inject_Z (round_half_even q) <= 1 # 2)%Q.
Proof.
  unfold round_half_even.
  pose proof (Qfloor_le q) as Hle. pose proof (Qlt_floor q) as Hlt.
  rewrite inject_Z_plus in Hlt. change (inject_Z 1) with 1%Q in Hlt.
  destruct (Qcompare_spec (q - inject_Z (Qfloor q)) (1 # 2)) as [He|Hl|Hg].
  - destruct (Z.even (Qfloor q)).
    + split; lra.
    + rewrite inject_Z_plus. change (inject_Z 1) with 1%Q. split; lra.
  - split; lra.
  - rewrite inject_Z_plus. change (inject_Z 1) with 1%Q. split; lra.
Qed.

Lemma round_half_even_comp (q q' : Q) :
  (q == q')%Q -> round_half_even q = round_half_even q'.
Proof.
  intros H. unfold round_half_even.
  rewrite (Qfloor_comp _ _ H).
  assert (Hc : ((q - inject_Z (Qfloor q') ?= 1 # 2)
                = (q' - inject_Z (Qfloor q') ?= 1 # 2))%Q)
    by (by rewrite H).
  by rewrite Hc.
Qed.

Lemma round_half_even_Z (z : Z) : round_half_even (inject_Z z) = z.
Proof.
  unfold round_half_even. rewrite Qfloor_Z.
  assert (Hc : ((inject_Z z - inject_Z z ?= 1 # 2) = Lt)%Q).
  { apply (proj1 (Qlt_alt _ _)). lra. }
  by rewrite Hc.
Qed.


(** ** The template parser: [parseTemplate], [loadTemplates] *)

Lemma parseLine_before (tokens : list string) (st : Parsing) :
  p_state st = 0%nat -> Forall (fun t => ~ isDelimiter t) tokens ->
  foldl parseLine st tokens = st.
Proof.
  intros Hst H. induction H as [|t ts Ht _ IH]; [done|].
  simpl. unfold parseLine at 2. rewrite Hst.
  destruct (String.eqb_spec (TrimSpace t) "---"); [done|]. apply IH.
Qed.

Lemma parseLine_open (st : Parsing) (d : string) :
  p_state st = 0%nat -> isDelimiter d ->
  parseLine st d = mkParsing 1 (p_Title st) (p_Nickname st) (p_text st).
Proof.
  intros Hst Hd. unfold parseLine. rewrite Hst, Hd. reflexivity.
Qed.

Lemma parseLine_close (st : Parsing) (d : string) :
  p_state st = 1%nat -> isDelimiter d ->
  parseLine st d = mkParsing 2 (p_Title st) (p_Nickname st) (p_text st).
Proof.
  intros Hst Hd. unfold parseLine. rewrite Hst, Hd. reflexivity.
Qed.

Lemma title_not_nickname (s r : string) :
  strip_prefix "title:" s = Some r -> strip_prefix "nickname:" s = None.
Proof. intros H. apply strip_prefix_Some in H. subst s. reflexivity. Qed.

(** The front matter: the state stays 1, the text is not touched, and
    each of the two fields has the value of its last line. *)
Lemma parseLine_front (front : list string) (st : Parsing) :
  p_state st = 1%nat -> Forall (fun t => ~ isDelimiter t) front ->
  p_state (foldl parseLine st front) = 1%nat
  /\ p_text (foldl parseLine st front) = p_text st
  /\ p_Title (foldl parseLine st front)
     = foldl (fun v t => default v (fieldLine "title:" t)) (p_Title st) front
  /\ p_Nickname (foldl parseLine st front)
     = foldl (fun v t => default v (fieldLine "nickname:" t))
             (p_Nickname st) front.
Proof.
  intros Hst H. revert st Hst.
  induction H as [|t ts Ht _ IH]; intros st Hst; [done|].
  cbn [foldl].
  assert (Hstep : p_state (parseLine st t) = 1%nat
                  /\ p_text (parseLine st t) = p_text st
                  /\ p_Title (parseLine st t)
                     = default (p_Title st) (fieldLine "title:" t)
                  /\ p_Nickname (parseLine st t)
                     = default (p_Nickname st) (fieldLine "nickname:" t)).
  { unfold parseLine, fieldLine. rewrite Hst.
    destruct (String.eqb_spec (TrimSpace t) "---"); [done|].
    destruct (strip_prefix "title:" (TrimSpace t)) as [r|] eqn:E1.
    - rewrite (title_not_nickname _ _ E1). done.
    - destruct (strip_prefix "nickname:" (TrimSpace t)) as [r|]; done. }
  destruct Hstep as (H1 & H2 & H3 & H4).
  destruct (IH _ H1) as (H5 & H6 & H7 & H8).
  rewrite H5, H6, H7, H8, H2, H3, H4. done.
Qed.

Lemma parseLine_body (body : list string) (st : Parsing) :
  p_state st = 2%nat ->
  foldl parseLine st body
  = mkParsing 2 (p_Title st) (p_Nickname st)
      (p_text st +:+ linesText body).
Proof.
  revert st. induction body as [|t ts IH]; intros st Hst.
  - simpl. rewrite append_nil_r. destruct st. simpl in Hst. by subst.
  - cbn [foldl]. rewrite IH.
    + unfold parseLine. rewrite Hst. simpl. by rewrite !append_assoc.
    + unfold parseLine. by rewrite Hst.
Qed.

Lemma field_last (key : string) (f1 f2 : list string) (t v r : string) :
  fieldLine key t = Some r ->
  Forall (fun t' => fieldLine key t' = None) f2 ->
  foldl (fun v t => default v (fieldLine key t)) v (f1 ++ t :: f2) = r.
Proof.
  intros Ht Hf2. rewrite foldl_app. cbn [foldl]. rewrite Ht. simpl.
  generalize r. induction Hf2 as [|t' ts Ht' _ IH]; intros r'; [done|].
  simpl. rewrite Ht'. apply IH.
Qed.

Lemma field_none (key : string) (front : list string) (v : string) :
  Forall (fun t' => fieldLine key t' = None) front ->
  foldl (fun v t => default v (fieldLine key t)) v front = v.
Proof.
  induction 1 as [|t' ts Ht' _ IH]; [done|]. simpl. by rewrite Ht'.
Qed.

Lemma parseLines_sections (pre front body : list string) (d1 d2 : string) :
  Forall (fun t => ~ isDelimiter t) pre -> isDelimiter d1 ->
  Forall (fun t => ~ isDelimiter t) front -> isDelimiter d2 ->
  parseLines (pre ++ d1 :: front ++ d2 :: body)
  = mkParsing 2
      (foldl (fun v t => default v (fieldLine "title:" t)) "" front)
      (foldl (fun v t => default v (fieldLine "nickname:" t)) "" front)
      (linesText body).
Proof.
  intros Hpre Hd1 Hfront Hd2. unfold parseLines.
  rewrite foldl_app, (parseLine_before pre) by done.
  cbn [foldl]. rewrite parseLine_open by done.
  cbn [p_Title p_Nickname p_text].
  rewrite foldl_app. cbn [foldl].
  destruct (parseLine_front front (mkParsing 1 "" "" "") eq_refl Hfront)
    as (H1 & H2 & H3 & H4).
  rewrite (parseLine_close _ d2 H1 Hd2), parseLine_body by done.
  cbn [p_Title p_Nickname p_text]. by rewrite H2, H3, H4.
Qed.

(** X21: of a template document [parseTemplate] reads the lines between
    the first two delimiter lines as the front matter and the lines after
    the second one as the body: the words of the template are the word
    set of the body, the title is the trimmed value of the last [title:]
    line of the front matter and the nickname the one of the last
    [nickname:] line. *)
Theorem parseTemplate_sections (content : string)
  (pre front body : list string) (d1 d2 : string) :
  (ScanLines content).1 = pre ++ d1 :: front ++ d2 :: body ->
  Forall (fun t => ~ isDelimiter t) pre -> isDelimiter d1 ->
  Forall (fun t => ~ isDelimiter t) front -> isDelimiter d2 ->
  Words (parseTemplate content).1 = makeWordSet (linesText body)
  /\ (forall key f1 t f2 r,
        front = f1 ++ t :: f2 -> fieldLine key t = Some r ->
        Forall (fun t' => fieldLine key t' = None) f2 ->
        (key = "title:" -> Title (parseTemplate content).1 = r)
        /\ (key = "nickname:" -> Nickname (parseTemplate content).1 = r))
  /\ (Forall (fun t' => fieldLine "title:" t' = None) front ->
      Title (parseTemplate content).1 = "")
  /\ (Forall (fun t' => fieldLine "nickname:" t' = None) front ->
      Nickname (parseTemplate content).1 = "").
Proof.
  intros Htok Hpre Hd1 Hfront Hd2. unfold parseTemplate.
  rewrite Htok, parseLines_sections by done. cbn [fst Words Title Nickname
    p_Title p_Nickname p_text].
  split; [done|]. split; [|split].
  - intros key f1 t f2 r -> Ht Hf2.
    split; intros ->; by apply field_last.
  - apply field_none.
  - apply field_none.
Qed.

Lemma parseTemplate_sections_witness :
  Words (parseTemplate
           ("---" +:+ LF +:+ "title: MIT License" +:+ LF +:+ "---" +:+ LF
            +:+ "Permission is granted")).1
  = makeWordSet (linesText ["Permission is granted"]).
Proof.
  refine (proj1 (parseTemplate_sections
           ("---" +:+ LF +:+ "title: MIT License" +:+ LF +:+ "---" +:+ LF
            +:+ "Permission is granted")
           [] ["title: MIT License"] ["Permission is granted"] "---" "---"
           _ _ _ _ _)).
  - vm_compute. reflexivity.
  - constructor.
  - vm_compute. reflexivity.
  - constructor; [|constructor]. vm_compute. discriminate.
  - vm_compute. reflexivity.
Defined.

(** X22: a document without front matter, or whose front matter is not
    closed, gives a template without words; without front matter the
    template has no title and no nickname either. *)
Theorem parseTemplate_unclosed (content : string) :
  (Forall (fun t => ~ isDelimiter t) (ScanLines content).1 ->
   (parseTemplate content).1 = mkTemplate "" "" ∅)
  /\ (forall pre d1 front,
        (ScanLines content).1 = pre ++ d1 :: front ->
        Forall (fun t => ~ isDelimiter t) pre -> isDelimiter d1 ->
        Forall (fun t => ~ isDelimiter t) front ->
        Words (parseTemplate content).1 = ∅).
Proof.
  unfold parseTemplate, parseLines. split.
  - intros H. by rewrite parseLine_before.
  - intros pre d1 front -> Hpre Hd1 Hfront.
    rewrite foldl_app, (parseLine_before pre) by done.
    cbn [foldl]. rewrite parseLine_open by done.
    cbn [p_Title p_Nickname p_text].
    destruct (parseLine_front front (mkParsing 1 "" "" "") eq_refl Hfront)
      as (_ & H2 & _). cbn [fst Words]. by rewrite H2.
Qed.

Lemma scanTokens_error (ls : list string) :
  (Forall (fun l => tooLong l = false) ls -> (scanTokens ls).2 = None)
  /\ (Exists (fun l => tooLong l = true) ls ->
      (scanTokens ls).2 = Some ErrTooLong).
Proof.
  induction ls as [|l ls [IH1 IH2]]; simpl.
  - split; [done|]. by intros H%Exists_nil.
  - destruct (tooLong l) eqn:E; simpl.
    + split; [|done]. intros [? _]%Forall_cons. congruence.
    + split.
      * intros [_ H]%Forall_cons. by apply IH1.
      * intros [?|H]%Exists_cons; [congruence|by apply IH2].
Qed.

Lemma scanTokens_error_value (ls : list string) (e : string) :
  (scanTokens ls).2 = Some e -> e = ErrTooLong.
Proof.
  induction ls as [|l ls IH]; simpl; [done|].
  destruct (tooLong l); simpl; [by intros [= <-]|done].
Qed.

Lemma loadTemplates_stuck (assets : list string) (err : string) :
  foldl (fun acc a =>
           match acc with
           | Listed templates =>
               match parseTemplate a with
               | (templ, None) => Listed (templates ++ [templ])
               | (_, Some err) => OtherError err
               end
           | _ => acc
           end) (OtherError err) assets = OtherError err.
Proof. by induction assets. Qed.

Lemma loadTemplates_fold (assets : list string) (ts : list Template) :
  (Forall (fun a => Forall (fun l => tooLong l = false) (rawLines a)) assets ->
   foldl (fun acc a =>
            match acc with
            | Listed templates =>
                match parseTemplate a with
                | (templ, None) => Listed (templates ++ [templ])
                | (_, Some err) => OtherError err
                end
            | _ => acc
            end) (Listed ts) assets
   = Listed (ts ++ ((fun a => (parseTemplate a).1) <$> assets)))
  /\ (Exists (fun a => Exists (fun l => tooLong l = true) (rawLines a)) assets ->
      foldl (fun acc a =>
               match acc with
               | Listed templates =>
                   match parseTemplate a with
                   | (templ, None) => Listed (templates ++ [templ])
                   | (_, Some err) => OtherError err
                   end
               | _ => acc
               end) (Listed ts) assets
      = OtherError ErrTooLong).
Proof.
  revert ts. induction assets as [|a assets IH]; intros ts.
  - split; [by rewrite app_nil_r|]. by intros H%Exists_nil.
  - cbn [foldl].
    destruct (scanTokens_error (rawLines a)) as [Hok Hbad].
    destruct (parseTemplate a) as [templ err] eqn:Ea.
    assert (Herr : err = (scanTokens (rawLines a)).2)
      by (unfold parseTemplate, ScanLines in Ea; by injection Ea as _ <-).
    destruct (IH (ts ++ [templ])) as [IH1 IH2].
    split.
    + intros [Ha Hrest]%Forall_cons. rewrite Herr, (Hok Ha).
      rewrite (IH1 Hrest), fmap_cons, Ea. by rewrite <- app_assoc.
    + intros [Ha|Hrest]%Exists_cons.
      * rewrite Herr, (Hbad Ha). apply loadTemplates_stuck.
      * destruct err as [e|].
        -- symmetry in Herr. apply scanTokens_error_value in Herr.
           subst e. apply loadTemplates_stuck.
        -- by apply IH2.
Qed.

(** X23: [loadTemplates] gives the templates of the assets, in their
    order, when no asset has a line of 65536 bytes or more, and the error
    of the scanner when an asset has one. *)
Theorem loadTemplates_outcome (assets : list string) :
  (Forall (fun a => Forall (fun l => tooLong l = false) (rawLines a)) assets ->
   loadTemplates assets = Listed ((fun a => (parseTemplate a).1) <$> assets))
  /\ (Exists (fun a => Exists (fun l => tooLong l = true) (rawLines a)) assets ->
      loadTemplates assets = OtherError ErrTooLong).
Proof. apply (loadTemplates_fold assets []). Qed.

(** ** The go tool: [fixEnv], [listPackagesAndDeps], [getPackagesInfo] *)

Lemma fixEnv_fold (environ keptEnv : list string) :
  foldl (fun keptEnv env =>
           if negb (HasPrefix env "GOPATH=")
           then keptEnv ++ [env] else keptEnv) keptEnv environ
  = keptEnv
    ++ List.filter (fun env => negb (HasPrefix env "GOPATH=")) environ.
Proof.
  revert keptEnv. induction environ as [|env environ IH]; intros keptEnv.
  - by rewrite app_nil_r.
  - simpl. rewrite IH.
    destruct (negb (HasPrefix env "GOPATH=")); [|done].
    by rewrite <- app_assoc.
Qed.

Lemma append_inj_r (a b c : string) : a +:+ b = a +:+ c -> b = c.
Proof.
  intros H. apply (f_equal (strip_prefix a)) in H.
  rewrite !strip_prefix_append in H. by injection H.
Qed.

(** X24: for a [gopath] that is not empty, the environment [fixEnv]
    gives starts with the setting of [GOPATH] to it, which is the only
    setting of [GOPATH] it has, and goes on with the other variables of
    the process in their order; for the empty [gopath] it is nil. *)
Theorem fixEnv_gopath (environ : list string) (gopath : string) :
  fixEnv environ gopath
  = (if String.eqb gopath "" then None
     else Some (("GOPATH=" +:+ gopath)
                :: List.filter (fun env => negb (HasPrefix env "GOPATH="))
                     environ))
  /\ forall env value,
       fixEnv environ gopath = Some env ->
       "GOPATH=" +:+ value ∈ env -> value = gopath.
Proof.
  unfold fixEnv. rewrite fixEnv_fold.
  split; [done|]. intros env value.
  destruct (String.eqb gopath ""); [done|]. intros [= <-].
  cbn [app]. intros [Heq|Hin]%elem_of_cons.
  - by apply (append_inj_r "GOPATH=") in Heq.
  - apply list_elem_of_In, filter_In in Hin as [_ Hin].
    unfold HasPrefix in Hin. by rewrite strip_prefix_append in Hin.
Qed.

Lemma addDep_fold (l : list string) (st : list string * gset string) :
  NoDup st.1 -> (forall x, x ∈ st.1 <-> x ∈ st.2) ->
  NoDup (foldl addDep st l).1
  /\ (forall x, x ∈ (foldl addDep st l).1 <-> x ∈ (foldl addDep st l).2)
  /\ forall x, x ∈ (foldl addDep st l).1
               <-> x ∈ st.1 \/ (x <> "" /\ exists s, s ∈ l /\ TrimSpace s = x).
Proof.
  revert st. induction l as [|s l IH]; intros st Hnd Hseen.
  - split; [done|]. split; [done|]. intros x. split; [by left|].
    intros [?|(_ & s & Hs & _)]; [done|]. by apply not_elem_of_nil in Hs.
  - cbn [foldl].
    assert (Hstep : NoDup (addDep st s).1
                    /\ (forall x, x ∈ (addDep st s).1 <-> x ∈ (addDep st s).2)
                    /\ forall x, x ∈ (addDep st s).1
                                 <-> x ∈ st.1 \/ (x <> "" /\ TrimSpace s = x)).
    { unfold addDep.
      destruct (String.eqb_spec (TrimSpace s) "") as [He|Hne]; simpl.
      { split; [done|]. split; [done|]. intros x. split; [by left|].
        intros [?|[? ?]]; [done|congruence]. }
      destruct (bool_decide_reflect (TrimSpace s ∈ st.2)) as [Hin|Hnin]; simpl.
      { split; [done|]. split; [done|]. intros x. split; [by left|].
        intros [?|[_ <-]]; [done|]. by apply Hseen. }
      split; [|split].
      - apply NoDup_app. split; [done|]. split; [|apply NoDup_singleton].
        intros x Hx ->%list_elem_of_singleton. by apply Hnin, Hseen.
      - intros x. rewrite elem_of_app, list_elem_of_singleton, elem_of_union,
          elem_of_singleton, Hseen. tauto.
      - intros x. rewrite elem_of_app, list_elem_of_singleton. split.
        + intros [?| ->]; [by left|by right].
        + intros [?|[_ <-]]; [by left|by right]. }
    destruct Hstep as (H1 & H2 & H3).
    destruct (IH _ H1 H2) as (H4 & H5 & H6).
    split; [done|]. split; [done|]. intros x. rewrite H6, H3. split.
    + intros [[?|[Hx <-]]|(Hx & s' & Hs' & <-)].
      * by left.
      * right. split; [done|]. exists s. split; [apply list_elem_of_here|done].
      * right. split; [done|]. exists s'.
        split; [by apply list_elem_of_further|done].
    + intros [?|(Hx & s' & [-> |Hs']%elem_of_cons & <-)].
      * left. by left.
      * left. by right.
      * right. split; [done|]. by exists s'.
Qed.

Lemma addPkg_fold (l : list string) (st : list string * gset string) :
  NoDup st.1 -> (forall x, x ∈ st.1 <-> x ∈ st.2) ->
  NoDup (foldl addPkg st l).1
  /\ forall x, x ∈ (foldl addPkg st l).1 <-> x ∈ st.1 \/ x ∈ l.
Proof.
  revert st. induction l as [|s l IH]; intros st Hnd Hseen.
  - split; [done|]. intros x. split; [by left|].
    intros [?|Hs]; [done|]. by apply not_elem_of_nil in Hs.
  - cbn [foldl].
    assert (Hstep : NoDup (addPkg st s).1
                    /\ (forall x, x ∈ (addPkg st s).1 <-> x ∈ (addPkg st s).2)
                    /\ forall x, x ∈ (addPkg st s).1 <-> x ∈ st.1 \/ x = s).
    { unfold addPkg.
      destruct (bool_decide_reflect (s ∈ st.2)) as [Hin|Hnin]; simpl.
      { split; [done|]. split; [done|]. intros x. split; [by left|].
        intros [?| ->]; [done|]. by apply Hseen. }
      split; [|split].
      - apply NoDup_app. split; [done|]. split; [|apply NoDup_singleton].
        intros x Hx ->%list_elem_of_singleton. by apply Hnin, Hseen.
      - intros x. rewrite elem_of_app, list_elem_of_singleton, elem_of_union,
          elem_of_singleton, Hseen. tauto.
      - intros x. by rewrite elem_of_app, list_elem_of_singleton. }
    destruct Hstep as (H1 & H2 & H3).
    destruct (IH _ H1 H2) as (H4 & H5).
    split; [done|]. intros x. rewrite H5, H3, elem_of_cons. tauto.
Qed.

(** X25: the list [listPackagesAndDeps] returns is sorted and has no
    string twice; its strings are the packages [go list] expands the
    arguments to and the trimmed names, when they are not empty, between
    the bars of the list of their dependencies. *)
Theorem listPackagesAndDeps_sorted (go : GoTool) (environ : list string)
  (gopath : string) (pkgs deps : list string) :
  listPackagesAndDeps go environ gopath pkgs = Listed deps ->
  StronglySorted String.le deps /\ NoDup deps
  /\ exists pkgs',
       expandPackages go environ gopath pkgs = Listed pkgs'
       /\ forall d,
            d ∈ deps
            <-> d ∈ pkgs'
                \/ (d <> ""
                    /\ exists s,
                         s ∈ SplitBy "|" (cmd_out
                                 (go (fixEnv environ gopath)
                                     (["list"; "-f"; depsTemplate] ++ pkgs')))
                         /\ TrimSpace s = d).
Proof.
  unfold listPackagesAndDeps.
  destruct (expandPackages go environ gopath pkgs) as [pkgs'| |]; [|done|done].
  set (r := go (fixEnv environ gopath) (["list"; "-f"; depsTemplate] ++ pkgs')).
  destruct (cmd_failed r).
  { unfold goListError. by destruct (_ || _). }
  intros [= <-]. unfold sortStrings.
  destruct (addDep_fold (SplitBy "|" (cmd_out r)) ([], ∅)) as (H1 & H2 & H3).
  { apply NoDup_nil_2. }
  { intros x. simpl. split; [by intros ?%not_elem_of_nil|set_solver]. }
  destruct (addPkg_fold pkgs' _ H1 H2) as (H4 & H5).
  split; [apply StronglySorted_merge_sort; apply _|].
  split; [by rewrite merge_sort_Permutation|].
  exists pkgs'. split; [done|]. intros d.
  rewrite merge_sort_Permutation, H5, H3. simpl.
  split.
  - intros [[?%not_elem_of_nil|?]|?]; [done|by right|by left].
  - intros [?|?]; [by right|left; by right].
Qed.

Lemma listPackagesAndDeps_sorted_witness :
  StronglySorted String.le ["colors/cmd/paint"; "colors/red"; "fmt"; "os"]
  /\ NoDup ["colors/cmd/paint"; "colors/red"; "fmt"; "os"]
  /\ exists pkgs',
       expandPackages exampleGo [] "" ["colors/cmd/paint"] = Listed pkgs'
       /\ forall d,
            d ∈ ["colors/cmd/paint"; "colors/red"; "fmt"; "os"]
            <-> d ∈ pkgs'
                \/ (d <> ""
                    /\ exists s,
                         s ∈ SplitBy "|" (cmd_out
                                 (exampleGo (fixEnv [] "")
                                     (["list"; "-f"; depsTemplate] ++ pkgs')))
                         /\ TrimSpace s = d).
Proof.
  apply (listPackagesAndDeps_sorted exampleGo [] "" ["colors/cmd/paint"]).
  vm_compute. reflexivity.
Defined.

Lemma decodeInfos_paths (pkgs : list string) (decoded : list (option Pkg))
  (acc infos : list Pkg) :
  decodeInfos pkgs decoded acc = Listed infos ->
  exists new,
    infos = acc ++ new
    /\ (fun p => pi_ImportPath (pkg_info p)) <$> new = pkgs
    /\ Forall (fun p => pkg_Error p <> None ->
                        pi_Name (pkg_info p) = ""
                        -> pi_ImportPath (pkg_info p) = "") new
    /\ Forall2 (fun p d => d = Some p \/ exists p0, d = Some p0 /\ p = nameBroken p0)
               new (take (length pkgs) decoded).
Proof.
  revert decoded acc. induction pkgs as [|pkg pkgs IH]; intros decoded acc.
  - simpl. intros [= <-]. exists []. rewrite app_nil_r.
    repeat split; done.
  - simpl. destruct decoded as [|[p|] decoded]; [done| |done].
    destruct (String.eqb_spec pkg (pi_ImportPath (pkg_info p))) as [->|];
      [|done].
    simpl. intros H. apply IH in H as (new & -> & Hpaths & Hnames & Hdec).
    exists (nameBroken p :: new).
    split; [by rewrite <- app_assoc|].
    assert (Hp : pi_ImportPath (pkg_info (nameBroken p))
                 = pi_ImportPath (pkg_info p)).
    { unfold nameBroken. destruct (pkg_Error p); [|done].
      by destruct (String.eqb (pi_Name (pkg_info p)) ""). }
    split; [by rewrite fmap_cons, Hpaths, Hp|].
    split.
    + constructor; [|done]. unfold nameBroken.
      destruct (pkg_Error p) eqn:E; [|by rewrite E].
      destruct (String.eqb_spec (pi_Name (pkg_info p)) ""); simpl; [done|].
      done.
    + constructor; [|done]. right. by exists p.
Qed.

(** X26: the package infos [getPackagesInfo] returns are one for each
    package asked for, in their order and with its import path; and an
    info with an error has a name, unless its import path is empty. *)
Theorem getPackagesInfo_paths (go : GoTool) (decode : Decoder)
  (environ : list string) (gopath : string) (pkgs : list string)
  (infos : list Pkg) :
  getPackagesInfo go decode environ gopath pkgs = Listed infos ->
  (fun p => pi_ImportPath (pkg_info p)) <$> infos = pkgs
  /\ Forall (fun p => pkg_Error p <> None -> pi_Name (pkg_info p) = ""
                      -> pi_ImportPath (pkg_info p) = "") infos.
Proof.
  unfold getPackagesInfo.
  destruct (cmd_failed _); [done|].
  intros H. apply decodeInfos_paths in H as (new & -> & H1 & H2 & _). done.
Qed.

Lemma getPackagesInfo_paths_witness :
  (fun p => pi_ImportPath (pkg_info p))
    <$> [mkPkg examplePackage None;
         mkPkg (mkPkgInfo "colors/red" "" "" "colors/red")
               (Some "cannot find package")]
  = ["colors/cmd/paint"; "colors/red"]
  /\ Forall (fun p => pkg_Error p <> None -> pi_Name (pkg_info p) = ""
                      -> pi_ImportPath (pkg_info p) = "")
       [mkPkg examplePackage None;
        mkPkg (mkPkgInfo "colors/red" "" "" "colors/red")
              (Some "cannot find package")].
Proof.
  apply (getPackagesInfo_paths exampleGo exampleDecode [] ""
           ["colors/cmd/paint"; "colors/red"]).
  vm_compute. reflexivity.
Defined.

Lemma Contains_occurs (s sub : string) :
  Contains s sub = true <-> occursIn sub s.
Proof.
  unfold Contains, occursIn. destruct (Index s sub) as [i|] eqn:E.
  - split; [|done]. intros _.
    apply Index_Some in E as (a & b & -> & _). by exists a, b.
  - split; [done|]. intros (a & b & H).
    by destruct (Index_None _ _ E a b).
Qed.

Lemma names_fold (l names : list string) :
  foldl (fun names s =>
           if negb (String.eqb (TrimSpace s) "")
           then names ++ [TrimSpace s] else names) names l
  = names ++ List.filter nonempty (TrimSpace <$> l).
Proof.
  revert names. induction l as [|s l IH]; intros names.
  - by rewrite app_nil_r.
  - cbn [foldl]. rewrite IH, fmap_cons. cbn [List.filter]. unfold nonempty at 2.
    destruct (negb (String.eqb (TrimSpace s) "")); [|done].
    by rewrite <- app_assoc.
Qed.

(** X29: when the go command fails, [expandPackages] returns a
    [MissingError] with its output exactly when the output has
    [cannot find package] or [no buildable Go source files] in it, and
    another error otherwise; when it succeeds, the packages are the
    trimmed lines of its output that are not empty, in their order. *)
Theorem expandPackages_outcome (go : GoTool) (environ : list string)
  (gopath : string) (pkgs : list string) :
  let r := go (fixEnv environ gopath) ("list" :: pkgs) in
  (cmd_failed r = true ->
   (occursIn "cannot find package" (cmd_out r)
    \/ occursIn "no buildable Go source files" (cmd_out r) ->
    expandPackages go environ gopath pkgs = MissingError (cmd_out r))
   /\ (~ occursIn "cannot find package" (cmd_out r) ->
       ~ occursIn "no buildable Go source files" (cmd_out r) ->
       exists msg,
         expandPackages go environ gopath pkgs = OtherError msg))
  /\ (cmd_failed r = false ->
      expandPackages go environ gopath pkgs
      = Listed (List.filter nonempty
                  (TrimSpace <$> SplitBy "010" (cmd_out r)))
      /\ forall names,
           expandPackages go environ gopath pkgs = Listed names ->
           Forall (fun name => name <> "") names).
Proof.
  intros r. unfold expandPackages. fold r. split.
  - intros ->. unfold goListError. split.
    + intros H.
      replace (Contains (cmd_out r) "cannot find package"
               || Contains (cmd_out r) "no buildable Go source files")
        with true; [done|].
      symmetry. apply orb_true_iff.
      destruct H as [H|H]; [left|right]; by apply Contains_occurs.
    + intros H1 H2.
      replace (Contains (cmd_out r) "cannot find package"
               || Contains (cmd_out r) "no buildable Go source files")
        with false; [by eexists|].
      symmetry. apply orb_false_iff.
      split; apply not_true_is_false; by rewrite Contains_occurs.
  - intros ->. rewrite (names_fold _ []). split; [done|].
    intros names [= <-]. apply Forall_forall. intros name Hin.
    apply list_elem_of_In, filter_In in Hin as [Hin Hne].
    apply list_elem_of_In, list_elem_of_fmap in Hin as (s & -> & _).
    unfold nonempty in Hne. by destruct (String.eqb_spec (TrimSpace s) "").
Qed.

(** ** The listing: [listLicenses] and the whole of [pkgsToLicenses] *)

Lemma infoStep_stuck (readFile : FileReader) (templates : list Template)
  (root : string) (paths : list string)
  (acc : listing (gmap string MatchResult * list LicenseInfo)) :
  (forall r, acc <> Listed r) ->
  foldl (infoStep readFile templates root) acc paths = acc.
Proof.
  intros H. induction paths as [|path paths IH]; [done|].
  simpl. destruct acc as [r| |]; [by destruct (H r)|done|done].
Qed.

(** The loop over the paths gives the license infos the files have
    without the cache. *)
Lemma infoStep_fold (readFile : FileReader) (templates : list Template)
  (root : string) (paths : list string)
  (matched matched' : gmap string MatchResult)
  (acc infos : list LicenseInfo) :
  cacheOf readFile templates matched ->
  foldl (infoStep readFile templates root) (Listed (matched, acc)) paths
  = Listed (matched', infos) ->
  cacheOf readFile templates matched'
  /\ infos = acc ++ (readInfo readFile templates root <$> paths)
  /\ Forall (fun path =>
               path <> "" ->
               exists data,
                 readFile (filepath_Join [root; "src"; path]) = FileData data)
            paths.
Proof.
  revert matched acc. induction paths as [|path paths IH];
    intros matched acc Hc.
  - simpl. intros [= <- <-]. by rewrite app_nil_r.
  - cbn [foldl]. unfold infoStep at 2.
    rewrite fmap_cons. unfold readInfo at 1.
    destruct (String.eqb_spec path "") as [Hp|Hp].
    { intros H. apply IH in H as (H1 & -> & H2); [|done].
      split; [done|]. split; [by rewrite <- app_assoc|].
      by constructor. }
    destruct (matched !! filepath_Join [root; "src"; path]) as [m|] eqn:E.
    { destruct (Hc _ _ E) as (data & Hd & ->). rewrite Hd.
      intros H. apply IH in H as (H1 & -> & H2); [|done].
      split; [done|]. split; [by rewrite <- app_assoc|].
      constructor; [|done]. by exists data. }
    destruct (readFile (filepath_Join [root; "src"; path])) as [data|msg] eqn:Er.
    + intros H. apply IH in H as (H1 & -> & H2).
      * split; [done|]. split; [by rewrite <- app_assoc|].
        constructor; [|done]. by exists data.
      * intros fpath m.
        destruct (decide (filepath_Join [root; "src"; path] = fpath))
          as [<-|Hne].
        -- rewrite lookup_insert_eq. intros [= <-]. by exists data.
        -- rewrite lookup_insert_ne by done. apply Hc.
    + rewrite infoStep_stuck; [done|]. by intros r.
Qed.

Lemma matchWords_usable (words : gmap string nat)
  (templates : list Template) :
  (templates = [] -> mr_Template (matchWords words templates) = None)
  /\ (Exists (fun t => Words t <> ∅) templates ->
      mr_Template (matchWords words templates) <> None).
Proof.
  split; [by intros ->|]. intros Hex. unfold matchWords.
  destruct (matchStep_fold_cases words templates)
    as [[Hb Hall]|(t & Ht & Hb & Hpos)]; rewrite Hb; simpl; [|done].
  exfalso. apply Exists_exists in Hex as (t & Ht & Hw).
  apply Hw, map_size_empty_iff. specialize (Hall t Ht). lia.
Qed.

(** With a usable corpus the license infos of the paths [findLicenses]
    returns all have a template or all have none. *)
Lemma notMixed_of_paths (readFile : FileReader) (templates : list Template)
  (root package : string) (paths : list string) :
  usableCorpus templates ->
  paths = [""]
  \/ (@None string = None /\ paths <> [] /\ Forall (fun p => p <> "") paths) ->
  Forall (fun path =>
            path <> "" ->
            exists data,
              readFile (filepath_Join [root; "src"; path]) = FileData data)
         paths ->
  mixedTemplates (mkLicense package
                    (readInfo readFile templates root <$> paths) "") = false.
Proof.
  intros Hu [->|(_ & _ & Hne)] Hread; [reflexivity|].
  unfold mixedTemplates. cbn [Err LicenseInfos]. simpl.
  assert (Hinfo : forall path, path ∈ paths ->
            exists data,
              readInfo readFile templates root path
              = licenseInfoOf path (matchTemplates data templates)).
  { intros path Hp. rewrite Forall_forall in Hne, Hread.
    destruct (Hread path Hp (Hne path Hp)) as [data Hd].
    exists data. unfold readInfo. rewrite Hd.
    by destruct (String.eqb_spec path "") as [He|_]; [destruct (Hne path Hp)|]. }
  destruct Hu as [->|Hex].
  - replace (allNil (readInfo readFile [] root <$> paths)) with true; [done|].
    symmetry. apply allNil_spec, Forall_fmap, Forall_forall.
    intros path Hp. unfold compose.
    destruct (Hinfo path Hp) as [data ->]. done.
  - replace (allSome (readInfo readFile templates root <$> paths)) with true;
      [by rewrite andb_false_r|].
    symmetry. apply allSome_spec, Forall_fmap, Forall_forall.
    intros path Hp. unfold compose.
    destruct (Hinfo path Hp) as [data ->].
    by apply matchWords_usable.
Qed.

Lemma licenseStep_stuck (fuel : nat) (fs : FileSystem) (readFile : FileReader)
  (templates : list Template) (stdSet : gset string) (infos : list Pkg)
  (acc : option (listing (gmap string MatchResult * list License))) :
  (forall r, acc <> Some (Listed r)) ->
  foldl (licenseStep fuel fs readFile templates stdSet) acc infos = acc.
Proof.
  intros H. induction infos as [|p infos IH]; [done|].
  simpl. destruct acc as [[r| |]|]; [by destruct (H r)|done|done|done].
Qed.

Lemma licenseStep_fold (fuel : nat) (fs : FileSystem) (readFile : FileReader)
  (templates : list Template) (stdSet : gset string) (infos : list Pkg)
  (matched matched' : gmap string MatchResult) (acc licenses : list License) :
  cacheOf readFile templates matched ->
  foldl (licenseStep fuel fs readFile templates stdSet)
        (Some (Listed (matched, acc))) infos
  = Some (Listed (matched', licenses)) ->
  licenses
  = acc ++ omap (licenseOfPkg fuel fs readFile templates stdSet) infos
  /\ (usableCorpus templates ->
      Forall (fun l => mixedTemplates l = false) acc ->
      Forall (fun l => mixedTemplates l = false) licenses).
Proof.
  revert matched acc. induction infos as [|p infos IH];
    intros matched acc Hc.
  - simpl. intros [= <- <-]. by rewrite app_nil_r.
  - cbn [foldl omap list_omap]. unfold licenseStep at 2, licenseOfPkg at 1.
    destruct (pkg_Error p) as [err|].
    { intros H. apply IH in H as [-> Hm]; [|done].
      split; [by rewrite <- app_assoc|]. intros Hu Hacc. apply Hm; [done|].
      apply Forall_app. split; [done|]. constructor; [|done].
      unfold mixedTemplates. simpl. by rewrite andb_false_r. }
    destruct (bool_decide (pi_ImportPath (pkg_info p) ∈ stdSet)).
    { by apply IH. }
    destruct (findLicenses fuel fs (pkg_info p)) as [[paths [err|]]|] eqn:Ef.
    + rewrite licenseStep_stuck; [done|]. by intros r.
    + destruct (foldl _ (Listed (matched, [])) paths)
        as [[matched1 infos1]| |] eqn:E.
      * apply infoStep_fold in E as (Hc1 & -> & Hread); [|done].
        intros H. apply IH in H as [-> Hm]; [|done].
        split; [by rewrite <- app_assoc|]. intros Hu Hacc. apply Hm; [done|].
        apply Forall_app. split; [done|]. constructor; [|done].
        apply findLicensesFrom_paths in Ef. by apply notMixed_of_paths.
      * rewrite licenseStep_stuck; [done|]. by intros r.
      * rewrite licenseStep_stuck; [done|]. by intros r.
    + rewrite licenseStep_stuck; [done|]. by intros r.
Qed.

Lemma licensesOf_spec (fuel : nat) (fs : FileSystem) (readFile : FileReader)
  (templates : list Template) (stdSet : gset string) (infos : list Pkg)
  (licenses : list License) :
  licensesOf fuel fs readFile templates stdSet infos = Some (Listed licenses) ->
  licenses = omap (licenseOfPkg fuel fs readFile templates stdSet) infos.
Proof.
  unfold licensesOf.
  destruct (foldl _ _ infos) as [[[matched' ls]| |]|] eqn:E; [|done..].
  intros [= <-]. apply licenseStep_fold in E as [E _]; [done|].
  intros fpath m. by rewrite lookup_empty.
Qed.

Lemma licenseOfPkg_infos (fuel : nat) (fs : FileSystem) (readFile : FileReader)
  (templates : list Template) (stdSet : gset string) (p : Pkg) (l : License) :
  licenseOfPkg fuel fs readFile templates stdSet p = Some l ->
  LicenseInfos l <> [].
Proof.
  unfold licenseOfPkg. destruct (pkg_Error p); [by intros [= <-]|].
  destruct (bool_decide _); [done|].
  destruct (findLicenses fuel fs (pkg_info p)) as [[paths err]|] eqn:E;
    [|done].
  intros [= <-]. simpl.
  apply findLicensesFrom_paths in E as [->|(_ & Hne & _)]; [done|].
  by destruct paths.
Qed.

(** X27: the cache of [listLicenses] does not change its result: the
    licenses it returns are, in the order of the package infos, those of
    the packages with an error and of the packages outside of the
    standard library, and a license info with a path is the match
    result of the file at this path, as it is read.  Every license has a
    license info. *)
Theorem licensesOf_uncached (fuel : nat) (fs : FileSystem)
  (readFile : FileReader) (templates : list Template) (stdSet : gset string)
  (infos : list Pkg) (licenses : list License) :
  licensesOf fuel fs readFile templates stdSet infos = Some (Listed licenses) ->
  licenses = omap (licenseOfPkg fuel fs readFile templates stdSet) infos
  /\ Forall (fun l => LicenseInfos l <> []) licenses.
Proof.
  intros H. apply licensesOf_spec in H. split; [done|]. subst licenses.
  apply Forall_forall. intros l (p & _ & Hp)%list_elem_of_omap.
  by apply licenseOfPkg_infos in Hp.
Qed.

Lemma licensesOf_uncached_witness :
  [mkLicense "colors/cmd/paint" [licenseInfoOf "colors/COPYING"
                    (matchTemplates "Permission is granted" []);
                  licenseInfoOf "colors/License.md"
                    (matchTemplates "All rights reserved" [])] "";
   mkLicense "colors/cmd" [licenseInfoOf "colors/COPYING"
                    (matchTemplates "Permission is granted" []);
                  licenseInfoOf "colors/License.md"
                    (matchTemplates "All rights reserved" [])] ""]
  = omap (licenseOfPkg 20 exampleTree exampleReader [] ∅)
      [mkPkg (mkPkgInfo "a" "" "/go" "colors/cmd/paint") None;
       mkPkg (mkPkgInfo "b" "" "/go" "colors/cmd") None]
  /\ Forall (fun l => LicenseInfos l <> [])
       [mkLicense "colors/cmd/paint" [licenseInfoOf "colors/COPYING"
                         (matchTemplates "Permission is granted" []);
                       licenseInfoOf "colors/License.md"
                         (matchTemplates "All rights reserved" [])] "";
        mkLicense "colors/cmd" [licenseInfoOf "colors/COPYING"
                         (matchTemplates "Permission is granted" []);
                       licenseInfoOf "colors/License.md"
                         (matchTemplates "All rights reserved" [])] ""].
Proof.
  apply (licensesOf_uncached 20 exampleTree exampleReader [] ∅
           [mkPkg (mkPkgInfo "a" "" "/go" "colors/cmd/paint") None;
            mkPkg (mkPkgInfo "b" "" "/go" "colors/cmd") None]).
  vm_compute. reflexivity.
Defined.

Lemma licensesOf_not_mixed (fuel : nat) (fs : FileSystem)
  (readFile : FileReader) (templates : list Template) (stdSet : gset string)
  (infos : list Pkg) (licenses : list License) :
  usableCorpus templates ->
  licensesOf fuel fs readFile templates stdSet infos = Some (Listed licenses) ->
  Forall (fun l => mixedTemplates l = false) licenses.
Proof.
  intros Hu. unfold licensesOf.
  destruct (foldl _ _ infos) as [[[matched' ls]| |]|] eqn:E; [|done..].
  intros [= <-]. apply licenseStep_fold in E as [_ E]; [by apply E|].
  intros fpath m. by rewrite lookup_empty.
Qed.

Lemma pkgsToLicenses_not_mixed (licenses : list License)
  (overrides : list projectAndLicenses) :
  Forall (fun l => mixedTemplates l = false) licenses ->
  pkgsToLicenses licenses overrides <> Panic.
Proof.
  intros Hall. unfold pkgsToLicenses.
  destruct (groupLicenses_returns_or_fails licenses)
    as [[grouped Hg]|[msg ->]]; [|done].
  rewrite Hg. unfold licensesToProjectAndLicenses.
  destruct (projectStep_fold grouped [] [])
    as [[Hex _]|(_ & c & e & -> & _)]; [|done].
  exfalso. apply Exists_exists in Hex as (l' & Hl' & Hm).
  destruct (groupLicenses_entries _ _ _ Hg Hl') as (l & Hl & Hi & He).
  rewrite Forall_forall in Hall. specialize (Hall l Hl).
  unfold mixedTemplates in *. rewrite Hi, He in Hm. congruence.
Qed.

(** X28: with license templates among which one has a word,
    [pkgsToLicenses] does not panic: no license that [listLicenses]
    returns, and none that the grouping makes of them, has license infos
    with a template beside license infos without. *)
Theorem runPkgsToLicenses_no_panic (fuel : nat) (w : World)
  (pkgs : list string) (overrides : list projectAndLicenses) :
  (forall templates,
     loadTemplates (w_assets w) = Listed templates ->
     usableCorpus templates) ->
  runPkgsToLicenses fuel w pkgs overrides <> Some Panic.
Proof.
  intros Hu. unfold runPkgsToLicenses, listLicenses.
  destruct (loadTemplates (w_assets w)) as [templates| |]; [|done|done].
  specialize (Hu templates eq_refl).
  destruct (listPackagesAndDeps _ _ _ _) as [deps| |]; [|done|done].
  destruct (listStandardPackages _ _ _) as [std| |]; [|done|done].
  destruct (getPackagesInfo _ _ _ _ _) as [infos| |]; [|done|done].
  destruct (licensesOf _ _ _ _ _ _) as [[licenses| |]|] eqn:E; [|done..].
  apply licensesOf_not_mixed in E; [|done].
  intros [= H]. by apply (pkgsToLicenses_not_mixed licenses overrides).
Qed.

Lemma runPkgsToLicenses_no_panic_witness :
  runPkgsToLicenses 20 exampleWorld ["colors/cmd/paint"] [] <> Some Panic.
Proof.
  apply runPkgsToLicenses_no_panic.
  intros templates H. vm_compute in H. injection H as <-.
  right. apply Exists_cons_hd. intros Heq.
  apply (f_equal (fun m : gmap string nat => m !! "is")) in Heq.
  vm_compute in Heq. discriminate.
Defined.

Lemma listPackagesAndDeps_ordered (go : GoTool) (environ : list string)
  (gopath : string) (pkgs deps : list string) :
  listPackagesAndDeps go environ gopath pkgs = Listed deps ->
  StronglySorted String.le deps /\ NoDup deps.
Proof.
  unfold listPackagesAndDeps.
  destruct (expandPackages go environ gopath pkgs) as [pkgs'| |]; [|done|done].
  destruct (cmd_failed _).
  { unfold goListError. by destruct (_ || _). }
  intros [= <-]. unfold sortStrings.
  split; [apply StronglySorted_merge_sort; apply _|].
  rewrite merge_sort_Permutation.
  destruct (addDep_fold (SplitBy "|" (cmd_out
              (go (fixEnv environ gopath)
                  (["list"; "-f"; depsTemplate] ++ pkgs')))) ([], ∅))
    as (H1 & H2 & _).
  { apply NoDup_nil_2. }
  { intros x. simpl. split; [by intros ?%not_elem_of_nil|].
    by intros ?%not_elem_of_empty. }
  by destruct (addPkg_fold pkgs' _ H1 H2) as [H4 _].
Qed.

(** X30: [listLicenses] goes through the packages in the sorted order of
    their import paths, each of them once: the licenses it returns are
    those of a list of package infos whose import paths are sorted and
    pairwise distinct, for the templates of the assets and the standard
    packages the go command lists. *)
Theorem listLicenses_sorted (fuel : nat) (w : World) (gopath : string)
  (pkgs : list string) (licenses : list License) :
  listLicenses fuel w gopath pkgs = Some (Listed licenses) ->
  exists templates std infos,
    loadTemplates (w_assets w) = Listed templates
    /\ listStandardPackages (w_go w) (w_environ w) gopath = Listed std
    /\ StronglySorted String.le
         ((fun p => pi_ImportPath (pkg_info p)) <$> infos)
    /\ NoDup ((fun p => pi_ImportPath (pkg_info p)) <$> infos)
    /\ licenses
       = omap (licenseOfPkg fuel (w_fs w) (w_readFile w) templates
                 (list_to_set std)) infos.
Proof.
  unfold listLicenses.
  destruct (loadTemplates (w_assets w)) as [templates| |]; [|done|done].
  destruct (listPackagesAndDeps _ _ _ _) as [deps| |] eqn:Ed; [|done|done].
  destruct (listStandardPackages _ _ _) as [std| |]; [|done|done].
  destruct (getPackagesInfo _ _ _ _ _) as [infos| |] eqn:Ei; [|done|done].
  intros H. apply licensesOf_spec in H.
  exists templates, std, infos.
  apply listPackagesAndDeps_ordered in Ed as [Hs Hn].
  unfold getPackagesInfo in Ei. destruct (cmd_failed _); [done|].
  apply decodeInfos_paths in Ei as (new & -> & Hp & _).
  simpl. by rewrite Hp.
Qed.

Lemma listLicenses_sorted_witness :
  exists templates std infos,
    loadTemplates (w_assets exampleWorld) = Listed templates
    /\ listStandardPackages (w_go exampleWorld) (w_environ exampleWorld) ""
       = Listed std
    /\ StronglySorted String.le
         ((fun p => pi_ImportPath (pkg_info p)) <$> infos)
    /\ NoDup ((fun p => pi_ImportPath (pkg_info p)) <$> infos)
    /\ [mkLicense "colors/cmd/paint"
          [licenseInfoOf "colors/COPYING"
             (matchTemplates "Permission is granted"
                [(parseTemplate exampleAsset).1]);
           licenseInfoOf "colors/License.md"
             (matchTemplates "All rights reserved"
                [(parseTemplate exampleAsset).1])] "";
        mkLicense "colors/red" [noLicenseInfo] "cannot find package"]
       = omap (licenseOfPkg 20 (w_fs exampleWorld) (w_readFile exampleWorld)
                 templates (list_to_set std)) infos.
Proof.
  apply (listLicenses_sorted 20 exampleWorld "" ["colors/cmd/paint"]).
  vm_compute. reflexivity.
Defined.
